(** * gen_patch.py: overlay-manifest generator

    A shallow embedding of [src/gen_patch.py] and the properties of its
    behaviour contract.

    Conventions of the model.
    - Python [str] is [string]; a character is a code point below 256.
    - A Python [set] of strings is a [gset string].  Iterating over a set
      visits its elements in an order the program does not control (string
      hashing is randomised per process): every [for x in some_set] of the
      source goes through [iter], which applies an arbitrary reordering
      [order] to the elements.
    - A [dict] is a [gmap]; [sorted] is a merge sort by code point order.
    - [pathlib] paths are records of a root and its parts; [os.path] works
      on strings.
    - The file system, the environment and git are read through the oracles
      of a [World]; what the run prints, which git commands it issues and
      what it writes is recorded as a trace of events.
    - [sys.exit(n)] and an exception that nothing catches end the run: the
      result of a computation is a value, an exit code or an exception.
    - The run starts when [parse_args] has returned, the values of the
      configuration have the types the program expects, and the [git]
      executable can be started. *)

From Stdlib Require Import ZArith Ascii.
From stdpp Require Import gmap strings list sorting pretty.

(** ** Python string operations *)

Module Str.

Definition startswith (s pre : string) : bool := String.prefix pre s.

Definition endswith (s suf : string) : bool :=
    String.prefix (String.rev suf) (String.rev s).

  (** [sub in s] *)
Fixpoint contains (sub s : string) : bool :=
    String.prefix sub s ||
    match s with
    | "" => false
    | String _ s' => contains sub s'
    end.

Fixpoint drop (n : nat) (s : string) : string :=
    match n, s with
    | O, _ => s
    | S n', String _ s' => drop n' s'
    | S _, "" => ""
    end.

  (** [s.split(sep, 1)] for a [sep] that occurs in [s]: the text before and
      after the first occurrence; [None] when [sep] does not occur. *)
Fixpoint partition (sep s : string) : option (string * string) :=
    if String.prefix sep s then Some ("", drop (String.length sep) s)
    else match s with
         | "" => None
         | String c s' =>
             match partition sep s' with
             | Some (a, b) => Some (String c a, b)
             | None => None
             end
         end.

  (** [s.split(c)] for a one-character separator: never the empty list. *)
Fixpoint split (c : ascii) (s : string) : list string :=
    match s with
    | "" => [""]
    | String a s' =>
        if Ascii.eqb a c then "" :: split c s'
        else match split c s' with
             | x :: r => String a x :: r
             | [] => [String a ""]
             end
    end.

  (** [sep.join(l)] *)
Definition join (sep : string) (l : list string) : string :=
    String.concat sep l.

Fixpoint lstrip_with (p : ascii → bool) (s : string) : string :=
    match s with
    | "" => ""
    | String a s' => if p a then lstrip_with p s' else s
    end.

Fixpoint rstrip_with (p : ascii → bool) (s : string) : string :=
  match s with
  | "" => ""
  | String a s' =>
      match rstrip_with p s' with
      | "" => if p a then "" else String a ""
      | r => String a r
      end
  end.

  (** [str.isspace] on one character *)
Definition isspace (a : ascii) : bool :=
    let n := N_of_ascii a in
    ((9 <=? n) && (n <=? 13) || (28 <=? n) && (n <=? 32)
     || (n =? 133) || (n =? 160))%N.

Definition strip (s : string) : string :=
    rstrip_with isspace (lstrip_with isspace s).
Definition lstrip (c : ascii) (s : string) : string :=
    lstrip_with (Ascii.eqb c) s.
Definition rstrip (c : ascii) (s : string) : string :=
    rstrip_with (Ascii.eqb c) s.

Definition lower_char (a : ascii) : ascii :=
    let n := N_of_ascii a in
    if ((65 <=? n) && (n <=? 90))%N then ascii_of_N (n + 32) else a.

Fixpoint lower (s : string) : string :=
    match s with
    | "" => ""
    | String a s' => String (lower_char a) (lower s')
    end.

  (** line boundaries of [str.splitlines] *)
Definition is_linebreak (a : ascii) : bool :=
    let n := N_of_ascii a in
    ((10 <=? n) && (n <=? 13) || (28 <=? n) && (n <=? 30) || (n =? 133))%N.

Fixpoint splitlines_go (cur : string) (s : string) : list string :=
    match s with
    | "" => match cur with "" => [] | _ => [String.rev cur] end
    | String a s' =>
        if Ascii.eqb a "013" then
          match s' with
          | String "010" s'' => String.rev cur :: splitlines_go "" s''
          | _ => String.rev cur :: splitlines_go "" s'
          end
        else if is_linebreak a then String.rev cur :: splitlines_go "" s'
        else splitlines_go (String a cur) s'
    end.
Definition splitlines (s : string) : list string := splitlines_go "" s.

Definition nonempty (s : string) : bool :=
    match s with "" => false | _ => true end.

End Str.

(** [sorted(xs)] on strings *)
Definition sorted (l : list string) : list string := merge_sort String.le l.

(** [sorted(xs, key=lambda x: x[1])] *)
Definition le_snd {A} (x y : A * string) : Prop := String.le x.2 y.2.
Global Instance le_snd_dec {A} : RelDecision (@le_snd A).
Proof. intros x y. unfold le_snd. apply _. Defined.
Definition sorted_by_snd {A} (l : list (A * string)) : list (A * string) :=
  merge_sort le_snd l.


(** ** [os.path] (posixpath) *)

Module OsPath.

Definition isabs (s : string) : bool := Str.startswith s "/".

  (** [os.path.join(a, b)] *)
Definition join (a b : string) : string :=
    if isabs b then b
    else if Str.nonempty a && negb (Str.endswith a "/") then a +:+ "/" +:+ b
    else a +:+ b.

  (** the number of slashes [normpath] keeps in front *)
Definition initial_slashes (path : string) : nat :=
    if Str.startswith path "/" then
      if Str.startswith path "//" && negb (Str.startswith path "///")
      then 2 else 1
    else 0.

  (** one step of the component loop of [normpath]; [new_comps] is kept
      reversed, so its last component is the head *)
Definition normpath_step (slashes : nat) (new_comps : list string)
      (comp : string) : list string :=
    if bool_decide (comp = "") || bool_decide (comp = ".") then new_comps
    else if negb (bool_decide (comp = ".."))
         || (bool_decide (slashes = 0%nat) && bool_decide (new_comps = []))
         || bool_decide (head new_comps = Some "..")
    then comp :: new_comps
    else tail new_comps.

Definition normpath (path : string) : string :=
    match path with
    | "" => "."
    | _ =>
        let slashes := initial_slashes path in
        let comps :=
          rev (fold_left (normpath_step slashes) (Str.split "/" path) []) in
        let r := match slashes with
                 | 0%nat => Str.join "/" comps
                 | 1%nat => "/" +:+ Str.join "/" comps
                 | _ => "//" +:+ Str.join "/" comps
                 end in
        match r with "" => "." | _ => r end
    end.

  (** [os.path.abspath], with the working directory [cwd] of the process *)
Definition abspath (cwd path : string) : string :=
    if isabs path then normpath path else normpath (join cwd path).

  (** longest common leading part of two component lists *)
Fixpoint common_prefix (l1 l2 : list string) : list string :=
    match l1, l2 with
    | x :: l1', y :: l2' =>
        if bool_decide (x = y) then x :: common_prefix l1' l2' else []
    | _, _ => []
    end.

Definition components (tail : string) : list string :=
    match tail with "" => [] | _ => Str.split "/" tail end.

  (** [os.path.relpath(path, start)].  Python raises [ValueError] on an
      empty [path]; every caller passes the [as_posix()] of a path, which is
      never empty, and the model returns ["."] there. *)
Definition relpath (cwd path start : string) : string :=
    let start_list := components (Str.lstrip "/" (abspath cwd start)) in
    let path_list := components (Str.lstrip "/" (abspath cwd path)) in
    let i := length (common_prefix start_list path_list) in
    let rel_list :=
      (replicate (length start_list - i) ".." ++ list.drop i path_list) in
    match rel_list with
    | [] => "."
    | _ => Str.join "/" rel_list
    end.

Definition keep_component (c : string) : bool :=
    negb (bool_decide (c = "")) && negb (bool_decide (c = ".")).

  (** [os.path.commonpath(paths)]: the longest common sub-path, by whole
      components; [None] is the [ValueError] raised on an empty sequence
      and on a mix of absolute and relative paths. *)
Definition commonpath (paths : list string) : option string :=
    match paths with
    | [] => None
    | p :: ps =>
        if forallb (λ q, bool_decide (isabs q = isabs p)) ps then
          let split_paths :=
            map (λ q, filter (λ c, keep_component c = true) (Str.split "/" q))
                paths in
          let common :=
            match split_paths with
            | [] => []
            | s :: ss => fold_left common_prefix ss s
            end in
          Some ((if isabs p then "/" else "") +:+ Str.join "/" common)
        else None
    end.

End OsPath.

(** ** [pathlib.PurePosixPath] *)

Record Path := MkPath { root : string; parts : list string }.

Module PathOps.

  (** [Path(s)]: the root is ["//"] for exactly two leading slashes, ["/"]
      for any other number of them; empty and ["."] components vanish. *)
Definition of_string (s : string) : Path :=
    {| root := match OsPath.initial_slashes s with
               | 0%nat => "" | 1%nat => "/" | _ => "//"
               end;
       parts := filter (λ c, OsPath.keep_component c = true)
                  (Str.split "/" s) |}.

  (** [p.as_posix()], also [str(p)] *)
Definition as_posix (p : Path) : string :=
    match root p, parts p with
    | "", [] => "."
    | r, ps => r +:+ Str.join "/" ps
    end.

Definition is_absolute (p : Path) : bool := Str.nonempty (root p).

  (** [a / b] *)
Definition joinpath (a b : Path) : Path :=
    if is_absolute b then b
    else {| root := root a; parts := (parts a ++ parts b) |}.

  (** [p.parent] *)
Definition parent (p : Path) : Path :=
    {| root := root p; parts := removelast (parts p) |}.

  (** [p.name] *)
Definition name (p : Path) : string := List.last (parts p) "".

  (** [p.relative_to(other)]: [None] is the [ValueError]. *)
Definition relative_to (p other : Path) : option Path :=
    if bool_decide (root p = root other)
       && bool_decide (parts other `prefix_of` parts p)
    then Some {| root := ""; parts := list.drop (length (parts other)) (parts p) |}
    else None.

End PathOps.

Notation "a // b" := (PathOps.joinpath a b) (at level 40, left associativity).


(** ** The environment of a run *)

(** What [subprocess.run] returns (and what [CalledProcessError] carries). *)
Record CompletedProcess := MkProc {
  returncode : Z;
  stdout : string;
  stderr : string
}.

(** The TOML configuration, one field per key the program reads;
    [None] is an absent key. *)
Record Config := MkConfig {
  cfg_repo_dir : option string;
  cfg_baseline : option string;
  cfg_target : option string;
  cfg_fetch : option bool;
  sel_commits : option (list string);
  sel_ranges : option (list string);
  sel_paths : option (list string);
  opt_restrict_prefixes : option (list string);
  opt_order : option string;
  opt_baseline_mode : option string;
  opt_output_format : option string;
  opt_include_uncommitted : option bool;
  cfg_include_specs : option (list string);
  opt_include_specs : option (list string);
  cfg_output : option string;
  opt_output : option string
}.

(** The command line after [parse_args]. *)
Record Args := MkArgs { arg_config : string; arg_output : option string }.

(** Everything the run reads from outside.  The repository and the working
    tree do not change while the run lasts, so each oracle is a function of
    its arguments; [git] answers as the repository is after the optional
    fetch.  [None] from [fs_resolve] or [toml] is an exception raised by
    [Path.resolve] or by [tomllib.load] / [open]. *)
Record World := MkWorld {
  cwd : string;
  os_expanduser : string → string;
  fs_resolve : string → option string;
  fs_is_file : string → bool;
  fs_is_dir : string → bool;
  fs_exists : string → bool;
  fs_can_write : string → bool;
  fs_can_replace : string → string → bool;
  toml : string → option Config;
  git : list string → CompletedProcess
}.

(** ** Effects *)

Inductive event :=
| Stdout (s : string)
| Stderr (s : string)
| Git (cmd : list string)
| WriteFile (path : string) (content : string)
| Replace (src dst : string).

Inductive result (A : Type) :=
| Ret (a : A)
| Exit (code : Z)
| Raise (exn : string).
Arguments Ret {A} a.
Arguments Exit {A} code.
Arguments Raise {A} exn.

Definition M (A : Type) : Type := list event * result A.

Global Instance M_ret : MRet M := λ A a, ([], Ret a).
Global Instance M_bind : MBind M := λ A B f m,
  match m with
  | (t, Ret a) => let '(t', r) := f a in ((t ++ t'), r)
  | (t, Exit c) => (t, Exit c)
  | (t, Raise e) => (t, Raise e)
  end.

Definition emit (e : event) : M unit := ([e], Ret tt).
(** [print(msg)] and [print(msg, file=sys.stderr)] *)
Definition print (msg : string) : M unit := emit (Stdout msg).
Definition eprint (msg : string) : M unit := emit (Stderr msg).
(** [sys.exit(code)] *)
Definition sys_exit {A} (code : Z) : M A := ([], Exit code).
Definition raise {A} (exn : string) : M A := ([], Raise exn).

(** [for x in l: body x] *)
Fixpoint for_each {A} (l : list A) (body : A → M unit) : M unit :=
  match l with
  | [] => mret tt
  | x :: l' => body x ;; for_each l' body
  end.

(** a loop that threads an accumulator *)
Fixpoint fold_m {A S} (l : list A) (body : S → A → M S) (s : S) : M S :=
  match l with
  | [] => mret s
  | x :: l' => s' ← body s x; fold_m l' body s'
  end.

Definition trace {A} (m : M A) : list event := m.1.
Definition outcome {A} (m : M A) : result A := m.2.

(** The status the process ends with: 0 when [main] returns, the argument
    of [sys.exit], 1 when an exception reaches the top. *)
Definition exit_code {A} (r : result A) : Z :=
  match r with
  | Ret _ => 0
  | Exit c => c
  | Raise _ => 1
  end.

Definition newline : string := String "010" "".
Definition tab : ascii := "009"%char.

(** ** The program *)

Import PathOps.

(** [relpath_posix(p, start)] *)
Definition relpath_posix (cwd p start : string) : string :=
  as_posix (of_string (OsPath.relpath cwd p start)).

(** [parse_name_status(text)] *)
Definition parse_name_status_line (line : string) : list string :=
  if negb (Str.nonempty (Str.strip line)) then []
  else
    let parts := Str.split tab (Str.rstrip "010" line) in
    let status := default "" (head parts) in
    if Str.startswith status "R" then
      match parts with
      | _ :: _ :: new :: _ => [new]
      | _ => []
      end
    else
      match parts with
      | _ :: p :: _ => [p]
      | _ => []
      end.

Definition parse_name_status (text : string) : list string :=
  flat_map parse_name_status_line (Str.splitlines text).

(** [is_under_prefixes(path_rel, prefixes)] *)
Definition is_under_prefixes (path_rel : string) (prefixes : list string) : bool :=
  existsb (λ pref, Str.startswith path_rel pref) prefixes.

(** [for rel in rels: if is_under_prefixes(rel, prefixes): rel_paths.add(rel)] *)
Definition add_under_prefixes (prefixes rels : list string)
    (rel_paths : gset string) : gset string :=
  fold_left (λ acc rel, if is_under_prefixes rel prefixes then acc ∪ {[rel]} else acc)
            rels rel_paths.

Section Program.

  (** the order in which this run iterates over sets *)
Variable order : list string → list string.
Variable W : World.

  (** [for x in s] for a set [s] *)
Definition iter (s : gset string) : list string := order (elements s).

  (** [run(cmd)] with [check=True]: [inl] is the [CalledProcessError] that
      every caller catches. *)
Definition run (cmd : list string) : M (CompletedProcess + CompletedProcess) :=
    emit (Git cmd) ;;
    let p := git W cmd in
    mret (if bool_decide (returncode p = 0%Z) then inr p else inl p).

  (** [p.resolve()], [p.expanduser()] and the file tests of [pathlib] *)
Definition resolve (p : Path) : M Path :=
    match fs_resolve W (as_posix p) with
    | Some s => mret (of_string s)
    | None => raise "RuntimeError"
    end.

Definition expanduser (p : Path) : M Path :=
    match root p, parts p with
    | "", first :: rest =>
        if Str.startswith first "~" then
          let homedir := os_expanduser W first in
          if Str.startswith homedir "~" then raise "RuntimeError"
          else
            let h := of_string homedir in
            mret {| root := root h; parts := parts h ++ rest |}
        else mret p
    | _, _ => mret p
    end.

Definition is_file (p : Path) : bool := fs_is_file W (as_posix p).
Definition is_dir (p : Path) : bool := fs_is_dir W (as_posix p).
Definition exists_ (p : Path) : bool := fs_exists W (as_posix p).

  (** [load_config(cfg_path)] *)
Definition load_config (cfg_path : Path) : M Config :=
    match toml W (as_posix cfg_path) with
    | Some cfg => mret cfg
    | None => raise "TOMLDecodeError"
    end.

  (** [resolve_repo_dir_from_config(cfg, cfg_path)] *)
Definition resolve_repo_dir_from_config (cfg : Config) (cfg_path : Path) : M Path :=
    match cfg_repo_dir cfg with
    | None =>
        eprint "ERROR: config must define 'repo_dir' (absolute or relative to the TOML)." ;;
        sys_exit 2
    | Some rd_raw =>
        rd_path ← expanduser (of_string rd_raw);
        if is_absolute rd_path then resolve rd_path
        else resolve (parent cfg_path // rd_path)
    end.

  (** [maybe_fetch(repo_dir, do_fetch)] *)
Definition maybe_fetch (repo_dir : Path) (do_fetch : bool) : M unit :=
    if negb do_fetch then mret tt
    else
      r ← run ["git"; "-C"; as_posix repo_dir; "fetch"; "--prune"];
      match r with
      | inr _ => mret tt
      | inl e =>
          eprint ("ERROR: git fetch failed:" +:+ newline +:+ stderr e) ;;
          sys_exit 2
      end.

  (** [ensure_target_exists(repo_dir, target)] *)
Definition ensure_target_exists (repo_dir : Path) (target : string) : M unit :=
    r ← run ["git"; "-C"; as_posix repo_dir; "rev-parse"; "--verify"; target];
    match r with
    | inr _ => mret tt
    | inl e =>
        eprint ("ERROR: target ref invalid: " +:+ target +:+ newline +:+ stderr e) ;;
        sys_exit 2
    end.

  (** [ensure_selectors_are_ancestors(repo_dir, commits, ranges, target)] *)
Definition check_commit (repo_dir : Path) (target c : string) : M unit :=
    r ← run ["git"; "-C"; as_posix repo_dir; "merge-base"; "--is-ancestor"; c; target];
    match r with
    | inr _ => mret tt
    | inl _ =>
        eprint ("ERROR: commit " +:+ c +:+ " is not an ancestor of " +:+ target
                +:+ ". Cannot include without copying.") ;;
        sys_exit 2
    end.

Definition check_range (repo_dir : Path) (target rng : string) : M unit :=
    if negb (Str.contains ".." rng) then
      eprint ("ERROR: range must be A..B, got: " +:+ rng) ;;
      sys_exit 2
    else
      match Str.partition ".." rng with
      | None => raise "ValueError"
      | Some (A, B) =>
          r ← run ["git"; "-C"; as_posix repo_dir; "merge-base"; "--is-ancestor"; B; target];
          match r with
          | inr _ => mret tt
          | inl _ =>
              eprint ("ERROR: range tip " +:+ B +:+ " is not an ancestor of " +:+ target
                      +:+ ". Cannot include without copying.") ;;
              sys_exit 2
          end
      end.

Definition ensure_selectors_are_ancestors (repo_dir : Path)
      (commits ranges : list string) (target : string) : M unit :=
    for_each commits (check_commit repo_dir target) ;;
    for_each ranges (check_range repo_dir target).

  (** [collect_paths_from_diff(repo_dir, baseline, target, prefixes)] *)
Definition collect_paths_from_diff (repo_dir : Path) (baseline target : string)
      (prefixes : list string) : M (gset string) :=
    r ← run ["git"; "-C"; as_posix repo_dir; "diff"; "--name-status";
             "--diff-filter=AMR"; baseline +:+ ".." +:+ target];
    match r with
    | inr p => mret (add_under_prefixes prefixes (parse_name_status (stdout p)) ∅)
    | inl e =>
        eprint ("ERROR: diff baseline..target failed:" +:+ newline +:+ stderr e) ;;
        sys_exit 2
    end.

  (** [collect_paths_from_commits(repo_dir, commits, prefixes)] *)
Definition collect_paths_from_commits (repo_dir : Path) (commits prefixes : list string)
      : M (gset string) :=
    fold_m commits (λ rel_paths c,
      r ← run ["git"; "-C"; as_posix repo_dir; "diff-tree"; "--name-status";
               "--first-parent"; "-r"; c +:+ "^!"; "--diff-filter=AMR"];
      match r with
      | inr p => mret (add_under_prefixes prefixes (parse_name_status (stdout p)) rel_paths)
      | inl e =>
          eprint ("ERROR: diff-tree for " +:+ c +:+ " failed:" +:+ newline +:+ stderr e) ;;
          sys_exit 2
      end) ∅.

  (** [collect_paths_from_ranges(repo_dir, ranges, prefixes)] *)
Definition collect_paths_from_ranges (repo_dir : Path) (ranges prefixes : list string)
      : M (gset string) :=
    fold_m ranges (λ rel_paths rng,
      match Str.partition ".." rng with
      | None => raise "ValueError"
      | Some (A, B) =>
          r ← run ["git"; "-C"; as_posix repo_dir; "diff"; "--name-status";
                   "--diff-filter=AMR"; A +:+ ".." +:+ B];
          match r with
          | inr p => mret (add_under_prefixes prefixes (parse_name_status (stdout p)) rel_paths)
          | inl e =>
              eprint ("ERROR: diff for range " +:+ rng +:+ " failed:" +:+ newline +:+ stderr e) ;;
              sys_exit 2
          end
      end) ∅.

  (** [collect_paths_from_uncommitted(repo_dir, prefixes)] *)
Definition untracked_lines (text : string) : list string :=
    filter (λ rel, Str.nonempty rel = true) (map Str.strip (Str.splitlines text)).

Definition collect_paths_from_uncommitted (repo_dir : Path) (prefixes : list string)
      : M (gset string) :=
    r ← run ["git"; "-C"; as_posix repo_dir; "diff"; "--cached"; "--name-status";
             "--diff-filter=AMR"];
    rel_paths ← match r with
      | inr p => mret (add_under_prefixes prefixes (parse_name_status (stdout p)) ∅)
      | inl e =>
          eprint ("ERROR: diff --cached failed:" +:+ newline +:+ stderr e) ;;
          sys_exit 2
      end;
    r ← run ["git"; "-C"; as_posix repo_dir; "diff"; "--name-status"; "--diff-filter=AMR"];
    rel_paths ← match r with
      | inr p => mret (add_under_prefixes prefixes (parse_name_status (stdout p)) rel_paths)
      | inl e =>
          eprint ("ERROR: diff (worktree) failed:" +:+ newline +:+ stderr e) ;;
          sys_exit 2
      end;
    r ← run ["git"; "-C"; as_posix repo_dir; "ls-files"; "--others"; "--exclude-standard"];
    match r with
    | inr p => mret (add_under_prefixes prefixes (untracked_lines (stdout p)) rel_paths)
    | inl e =>
        eprint ("ERROR: ls-files for untracked failed:" +:+ newline +:+ stderr e) ;;
        sys_exit 2
    end.

  (** [normalize_and_apply_explicit_paths(explicit_paths, repo_dir, prefixes)];
      the result is [(explicit_set, rel_paths)]. *)
Definition normalize_explicit_path (repo_dir : Path) (pth : string) : M string :=
    p_expanded ← expanduser (of_string pth);
    if is_absolute p_expanded then
      match fs_resolve W (as_posix p_expanded) with
      | None =>
          eprint ("ERROR: invalid explicit path: " +:+ pth) ;;
          sys_exit 2
      | Some s =>
          let abs_norm := of_string s in
          match relative_to abs_norm repo_dir with
          | None =>
              eprint ("ERROR: explicit path not under repo_dir: " +:+ pth) ;;
              sys_exit 2
          | Some rel => mret (as_posix rel)
          end
      end
    else mret (as_posix (of_string pth)).

Definition apply_explicit_path (repo_dir : Path) (prefixes : list string)
    (acc : gset string * gset string) (pth : string) : M (gset string * gset string) :=
  let '(explicit_set, rel_paths) := acc in
  rel_s ← normalize_explicit_path repo_dir pth;
  mret (explicit_set ∪ {[rel_s]},
        if is_under_prefixes rel_s prefixes then rel_paths ∪ {[rel_s]}
        else rel_paths).

Definition normalize_and_apply_explicit_paths (explicit_paths : list string)
    (repo_dir : Path) (prefixes : list string) : M (gset string * gset string) :=
  fold_m explicit_paths (apply_explicit_path repo_dir prefixes) (∅, ∅).

  (** [materialize_and_classify(repo_dir, rel_paths, explicit_set)] *)
Record Classified := MkClassified {
    abs_spec : gset string;
    abs_m : gset string;
    missing_explicit : list string;
    dropped_missing : list string
  }.

Definition classify_one (repo_dir : Path) (explicit_set : gset string)
      (acc : Classified) (rel : string) : M Classified :=
    abs_p ← resolve (repo_dir // of_string rel);
    if negb (exists_ abs_p) then
      if bool_decide (rel ∈ explicit_set) then
        mret (MkClassified (abs_spec acc) (abs_m acc)
                (missing_explicit acc ++ [rel]) (dropped_missing acc))
      else
        mret (MkClassified (abs_spec acc) (abs_m acc)
                (missing_explicit acc) (dropped_missing acc ++ [rel]))
    else if Str.endswith rel ".spec" then
      mret (MkClassified (abs_spec acc ∪ {[as_posix (repo_dir // of_string rel)]})
              (abs_m acc) (missing_explicit acc) (dropped_missing acc))
    else if Str.endswith rel ".m" then
      mret (MkClassified (abs_spec acc)
              (abs_m acc ∪ {[as_posix (repo_dir // of_string rel)]})
              (missing_explicit acc) (dropped_missing acc))
    else mret acc.

Definition materialize_and_classify (repo_dir : Path)
      (rel_paths explicit_set : gset string) : M Classified :=
    fold_m (sorted (iter rel_paths)) (classify_one repo_dir explicit_set)
           (MkClassified ∅ ∅ [] []).

  (** [resolve_effective_baseline(repo_dir, baseline_ref, target_ref, mode)] *)
Definition resolve_effective_baseline (repo_dir : Path)
      (baseline_ref target_ref mode : string) : M string :=
    let mode_lc := Str.lower (if Str.nonempty mode then mode else "raw") in
    let merge_base (msg : string) : M string :=
      r ← run ["git"; "-C"; as_posix repo_dir; "merge-base"; baseline_ref; target_ref];
      match r with
      | inr p => mret (Str.strip (stdout p))
      | inl e =>
          eprint ("ERROR: git merge-base " +:+ msg +:+ "failed for " +:+ baseline_ref
                  +:+ " and " +:+ target_ref +:+ ":" +:+ newline +:+ stderr e) ;;
          sys_exit 2
      end in
    if bool_decide (mode_lc = "raw") then mret baseline_ref
    else if bool_decide (mode_lc = "merge-base") then merge_base ""
    else if bool_decide (mode_lc = "fork-point") then
      r ← run ["git"; "-C"; as_posix repo_dir; "merge-base"; "--fork-point";
               baseline_ref; target_ref];
      match r with
      | inr p =>
          let out := Str.strip (stdout p) in
          if Str.nonempty out then mret out else merge_base "fallback "
      | inl _ => merge_base "fallback "
      end
    else
      eprint ("ERROR: unknown baseline_mode '" +:+ mode
              +:+ "'. Use 'raw', 'merge-base', or 'fork-point'.") ;;
      sys_exit 2.

  (** [build_output_lines_flat(abs_spec, abs_m, order_mode, out_dir, include_specs_abs)] *)
Definition to_rel (out_dir : Path) (p : string) : string :=
    relpath_posix (cwd W) p (as_posix out_dir).

Definition build_output_lines_flat (abs_spec abs_m : gset string)
      (order_mode : string) (out_dir : Path) (include_specs_abs : list string)
      : list string :=
    let lines := map (λ p, "+" +:+ to_rel out_dir p) include_specs_abs in
    if bool_decide (order_mode = "spec-first") then
      (lines ++ map (λ p, "+" +:+ to_rel out_dir p) (sorted (iter abs_spec))
             ++ map (to_rel out_dir) (sorted (iter abs_m)))
    else
      let both :=
        (map (λ p, (0%nat, "+" +:+ to_rel out_dir p)) (iter abs_spec)
         ++ map (λ p, (1%nat, to_rel out_dir p)) (iter abs_m)) in
      (lines ++ map snd (sorted_by_snd both)).

  (** [build_output_lines_curly(abs_spec, abs_m, out_dir, include_specs_abs)] *)

  (** parent directory and base name of a path, relative to [out_dir] *)
Definition parent_and_name (out_dir : Path) (abs_path : string) : string * string :=
    let rel := of_string (to_rel out_dir abs_path) in
    (as_posix (parent rel), name rel).

  (** [dir_to_files[parent].append(name)] *)
Definition add_file (out_dir : Path) (d : gmap string (list string))
    (abs_path : string) : gmap string (list string) :=
  let '(parent, name) := parent_and_name out_dir abs_path in
  <[parent := default [] (d !! parent) ++ [name]]> d.

(** [dir_to_spec_files[parent].add(name)] *)
Definition add_spec (out_dir : Path) (d : gmap string (gset string))
    (abs_path : string) : gmap string (gset string) :=
  let '(parent, name) := parent_and_name out_dir abs_path in
  <[parent := default ∅ (d !! parent) ∪ {[name]}]> d.

(** the two loops that group the files by parent directory *)
Definition group_files (out_dir : Path) (abs_m : gset string)
    : gmap string (list string) :=
  fold_left (add_file out_dir) (iter abs_m) ∅.

Definition group_specs (out_dir : Path) (abs_spec : gset string)
    : gmap string (gset string) :=
  fold_left (add_spec out_dir) (iter abs_spec) ∅.

Definition all_dirs_of (dir_to_files : gmap string (list string))
      (dir_to_spec_files : gmap string (gset string)) : list string :=
    let norm_dirs :=
      map (λ d, if bool_decide (d = ".") then "" else d)
          (iter (dom dir_to_files ∪ dom dir_to_spec_files)) in
    sorted (iter (list_to_set norm_dirs)).

Definition find_common_dir (all_dirs : list string) : option string :=
    let nonempty_dirs := filter (λ d, Str.nonempty d = true) all_dirs in
    if bool_decide (1 < length nonempty_dirs)%nat then
      match OsPath.commonpath nonempty_dirs with
      | Some candidate =>
          if Str.nonempty candidate && negb (bool_decide (candidate = "."))
             && forallb (λ d, bool_decide (d = candidate)
                              || Str.startswith d (Str.rstrip "/" candidate +:+ "/"))
                        nonempty_dirs
          then Some (Str.rstrip "/" candidate)
          else None
      | None => None
      end
    else None.

  (** the entries of one directory: source files, then manifests *)
Definition dir_entries (indent : string)
      (dir_to_files : gmap string (list string))
      (dir_to_spec_files : gmap string (gset string)) (d : string) : list string :=
    (map (λ fname, indent +:+ fname) (sorted (default [] (dir_to_files !! d)))
     ++ map (λ spec_name, indent +:+ "+" +:+ spec_name)
            (sorted (iter (default ∅ (dir_to_spec_files !! d))))).

Definition nested_subdir (common_dir : string)
      (dir_to_files : gmap string (list string))
      (dir_to_spec_files : gmap string (gset string)) (d : string) : list string :=
    let prefix := common_dir +:+ "/" in
    if negb (Str.nonempty d) || bool_decide (d = common_dir) then []
    else if negb (Str.startswith d prefix) then []
    else
      let rel := Str.rstrip "/" (Str.drop (String.length prefix) d) in
      (["  " +:+ rel +:+ "/"; "  {"]
       ++ dir_entries "    " dir_to_files dir_to_spec_files d
       ++ ["  }"]).

Definition fallback_dir (dir_to_files : gmap string (list string))
      (dir_to_spec_files : gmap string (gset string)) (d : string) : list string :=
    if Str.nonempty d then
      ([Str.rstrip "/" d +:+ "/"; "{"]
       ++ dir_entries "  " dir_to_files dir_to_spec_files d
       ++ ["}"])
    else dir_entries "  " dir_to_files dir_to_spec_files d.

Definition build_output_lines_curly (abs_spec abs_m : gset string)
      (out_dir : Path) (include_specs_abs : list string) : list string :=
    let lines := map (λ p, "+" +:+ to_rel out_dir p) include_specs_abs in
    let dir_to_files := group_files out_dir abs_m in
    let dir_to_spec_files := group_specs out_dir abs_spec in
    let all_dirs := all_dirs_of dir_to_files dir_to_spec_files in
    let fallback :=
      (lines ++ flat_map (fallback_dir dir_to_files dir_to_spec_files) all_dirs) in
    match find_common_dir all_dirs with
    | Some common_dir =>
        if Str.nonempty common_dir then
          (lines ++ [common_dir +:+ "/"; "{"]
           ++ dir_entries "  " dir_to_files dir_to_spec_files common_dir
           ++ flat_map (nested_subdir common_dir dir_to_files dir_to_spec_files) all_dirs
           ++ ["}"])
        else fallback
    | None => fallback
    end.

  (** [write_atomic_lines(out_path, lines)] *)
Definition file_content (lines : list string) : string :=
    String.concat "" (map (λ line, line +:+ newline) lines).

Definition write_atomic_lines (out_path : Path) (lines : list string) : M Path :=
    let tmp_path := parent out_path // of_string ("." +:+ name out_path +:+ ".tmp") in
    (if fs_can_write W (as_posix tmp_path)
     then emit (WriteFile (as_posix tmp_path) (file_content lines))
     else raise "OSError") ;;
    (if fs_can_replace W (as_posix tmp_path) (as_posix out_path)
     then emit (Replace (as_posix tmp_path) (as_posix out_path))
     else raise "OSError") ;;
    mret out_path.

  (** Python truthiness of an optional string, and [a or b] *)
Definition truthy (o : option string) : bool :=
    match o with Some s => Str.nonempty s | None => false end.
Definition py_or (a b : option string) : option string :=
    if truthy a then a else b.
Definition or_list (a b : list string) : list string :=
    match a with [] => b | _ => a end.

  (** [set(Path(p).resolve().as_posix() for p in paths)] *)
Definition resolve_all (paths : gset string) : M (gset string) :=
    fold_m (iter paths) (λ acc p,
      q ← resolve (of_string p);
      mret (acc ∪ {[as_posix q]})) ∅.

  (** the loop of [main] that makes the forced entries absolute *)
Definition resolve_include_specs (repo_dir : Path) (include_specs_all : list string)
      : M (list string) :=
    fold_m include_specs_all (λ include_specs_abs sp,
      p ← expanduser (of_string sp);
      q ← (if negb (is_absolute p) then resolve (repo_dir // p) else resolve p);
      mret (include_specs_abs ++ [as_posix q])) [].

Definition choose_out_path (repo_dir : Path) (chosen_output : option string) : M Path :=
    if truthy chosen_output then
      out_path ← expanduser (of_string (default "" chosen_output));
      if negb (is_absolute out_path) then resolve (repo_dir // out_path)
      else mret out_path
    else resolve (repo_dir // of_string ".magma_overlay.spec").

  (** [main()], after [parse_args()] has returned [args] *)
Definition main (args : Args) : M unit :=
    cfg_path ← resolve (of_string (arg_config args));
    (if negb (is_file cfg_path) then
       eprint ("ERROR: config not found: " +:+ as_posix cfg_path) ;;
       sys_exit 2
     else mret tt) ;;
    cfg ← load_config cfg_path;
    repo_dir ← resolve_repo_dir_from_config cfg cfg_path;
    let baseline := default "origin/main" (cfg_baseline cfg) in
    let target := default "HEAD" (cfg_target cfg) in
    let do_fetch := default false (cfg_fetch cfg) in
    let commits := default [] (sel_commits cfg) in
    let ranges := default [] (sel_ranges cfg) in
    let explicit_paths := default [] (sel_paths cfg) in
    let prefixes := default ["package/"] (opt_restrict_prefixes cfg) in
    let order_mode := default "spec-first" (opt_order cfg) in
    let baseline_mode := default "raw" (opt_baseline_mode cfg) in
    let output_format := default "curly" (opt_output_format cfg) in
    let include_uncommitted := default true (opt_include_uncommitted cfg) in
    (if negb (is_dir repo_dir) then
       eprint ("ERROR: repo_dir does not exist: " +:+ as_posix repo_dir) ;;
       sys_exit 2
     else mret tt) ;;
    maybe_fetch repo_dir do_fetch ;;
    ensure_target_exists repo_dir target ;;
    ensure_selectors_are_ancestors repo_dir commits ranges target ;;
    effective_baseline ← resolve_effective_baseline repo_dir baseline target baseline_mode;
    from_diff ← collect_paths_from_diff repo_dir effective_baseline target prefixes;
    from_commits ← collect_paths_from_commits repo_dir commits prefixes;
    from_ranges ← collect_paths_from_ranges repo_dir ranges prefixes;
    from_uncommitted ←
      (if include_uncommitted then collect_paths_from_uncommitted repo_dir prefixes
       else mret ∅);
    let rel_paths := from_diff ∪ from_commits ∪ from_ranges ∪ from_uncommitted in
    '(explicit_set, rel_from_explicit) ←
      normalize_and_apply_explicit_paths explicit_paths repo_dir prefixes;
    let rel_paths := rel_paths ∪ rel_from_explicit in
    cl ← materialize_and_classify repo_dir rel_paths explicit_set;
    abs_spec ← resolve_all (abs_spec cl);
    abs_m ← resolve_all (abs_m cl);
    (match missing_explicit cl with
     | [] => mret tt
     | missing =>
         eprint "ERROR: explicitly selected paths missing at target:" ;;
         for_each missing (λ rel, eprint ("  " +:+ rel)) ;;
         sys_exit 2
     end) ;;
    for_each (dropped_missing cl) (λ rel,
      eprint ("WARNING: path missing at target and was dropped: " +:+ rel)) ;;
    let include_specs_all :=
      or_list (default [] (cfg_include_specs cfg)) (default [] (opt_include_specs cfg)) in
    include_specs_abs ← resolve_include_specs repo_dir include_specs_all;
    let chosen_output :=
      if truthy (arg_output args) then arg_output args
      else py_or (cfg_output cfg) (opt_output cfg) in
    out_path ← choose_out_path repo_dir chosen_output;
    let fmt := Str.lower (if Str.nonempty output_format then output_format else "flat") in
    lines ←
      (if bool_decide (fmt = "flat") then
         mret (build_output_lines_flat abs_spec abs_m order_mode (parent out_path)
                 include_specs_abs)
       else if bool_decide (fmt = "curly") then
         mret (build_output_lines_curly abs_spec abs_m (parent out_path) include_specs_abs)
       else
         eprint ("ERROR: unknown output_format '" +:+ output_format
                 +:+ "'. Use 'flat' or 'curly'.") ;;
         sys_exit 2);
    let lines := ("{" :: lines ++ ["}"]) in
    out_path ← write_atomic_lines out_path lines;
    print ("Wrote " +:+ pretty (size abs_spec) +:+ " spec and " +:+ pretty (size abs_m)
           +:+ " source entries to " +:+ as_posix out_path).

End Program.


(** * The vocabulary of the properties *)

(** ** Traces and outcomes *)

(** every event of the trace satisfies [P] *)
Definition emits {A} (P : event → Prop) (m : M A) : Prop := Forall P (trace m).

Definition is_write (e : event) : bool :=
  match e with
  | WriteFile _ _ | Replace _ _ => true
  | _ => false
  end.

(** the [git] sub-command of an invocation [git -C <dir> <sub> ...] *)
Definition is_diff (e : event) : bool :=
  match e with
  | Git (_ :: _ :: _ :: sub :: _) =>
      bool_decide (sub = "diff") || bool_decide (sub = "diff-tree")
  | _ => false
  end.

Definition no_write (e : event) : Prop := is_write e = false.
Definition no_diff (e : event) : Prop := is_diff e = false.
Definition no_write_no_diff (e : event) : Prop := no_write e ∧ no_diff e.

(** [R] holds of the trace and the code whenever the computation ends in
    [sys.exit]. *)
Definition exits {A} (R : list event → Z → Prop) (m : M A) : Prop :=
  ∀ c, outcome m = Exit c → R (trace m) c.

(** code 2, straight after a message on the diagnostic stream *)
Definition after_message (t : list event) (c : Z) : Prop :=
  c = 2%Z ∧ ∃ t' msg, t = t' ++ [Stderr msg].

(** [P] holds of every event of a run that ends in [sys.exit]. *)
Definition exit_emits {A} (P : event → Prop) (m : M A) : Prop :=
  ∀ c, outcome m = Exit c → Forall P (trace m).


(** [Q] holds of the value of a computation that returns. *)
Definition yields {A} (Q : A → Prop) (m : M A) : Prop :=
  ∀ a, outcome m = Ret a → Q a.

(** [R] holds of the last events and of the value of a computation that
    returns. *)
Definition ends {A} (R : list event → A → Prop) (m : M A) : Prop :=
  ∀ a, outcome m = Ret a → ∃ t s, trace m = t ++ s ∧ R s a.

Definition is_stderr (e : event) : bool :=
  match e with Stderr _ => true | _ => false end.

(** The effect of the events of a run on the files it can touch: a map from
    paths to contents. *)
Definition fs_step (fs : gmap string string) (e : event) : gmap string string :=
  match e with
  | WriteFile path content => <[path := content]> fs
  | Replace src dst =>
      match fs !! src with
      | Some content => <[dst := content]> (delete src fs)
      | None => fs
      end
  | _ => fs
  end.

Definition fs_after (fs : gmap string string) (t : list event) : gmap string string :=
  fold_left fs_step t fs.

(** ** Selectors *)

(** the verdict of [git merge-base --is-ancestor c target] *)
Definition is_ancestor (W : World) (repo_dir : Path) (c target : string) : bool :=
  bool_decide (returncode (git W ["git"; "-C"; as_posix repo_dir; "merge-base";
                                  "--is-ancestor"; c; target]) = 0%Z).

(** a range selector that passes its check: it reads [A..B] and its tip [B]
    is an ancestor of the target *)
Definition range_ok (W : World) (repo_dir : Path) (target rng : string) : bool :=
  Str.contains ".." rng &&
  match Str.partition ".." rng with
  | Some (_, B) => is_ancestor W repo_dir B target
  | None => false
  end.

(** The run gets as far as selector validation: the configuration file is
    found and loaded as [cfg], the repository directory resolves to
    [repo_dir] and exists, the optional fetch succeeds and the target ref is
    valid. *)
Definition reaches_validation (W : World) (args : Args)
    (cfg_path : Path) (cfg : Config) (repo_dir : Path) : Prop :=
  outcome (resolve W (of_string (arg_config args))) = Ret cfg_path
  ∧ is_file W cfg_path = true
  ∧ outcome (load_config W cfg_path) = Ret cfg
  ∧ outcome (resolve_repo_dir_from_config W cfg cfg_path) = Ret repo_dir
  ∧ is_dir W repo_dir = true
  ∧ outcome (maybe_fetch W repo_dir (default false (cfg_fetch cfg))) = Ret tt
  ∧ outcome (ensure_target_exists W repo_dir (default "HEAD" (cfg_target cfg))) = Ret tt.

(** a selector that is relative, also after [~] is expanded *)
Definition relative_selector (W : World) (pth : string) : Prop :=
  ∃ p, outcome (expanduser W (of_string pth)) = Ret p ∧ is_absolute p = false.

(** a selector that is absolute once [~] is expanded *)
Definition absolute_selector (W : World) (pth : string) : Prop :=
  ∃ p, outcome (expanduser W (of_string pth)) = Ret p ∧ is_absolute p = true.

(** ** The order of iteration, strings and paths *)

(** an iteration over a set visits each element once *)
Definition visits_once (order : list string → list string) : Prop :=
  ∀ l, order l ≡ₚ l.

(** where a path of the classified sets resolves to *)
Definition resolved (W : World) (p : string) : option string :=
  (λ s, as_posix (of_string s)) <$> fs_resolve W (as_posix (of_string p)).

(** the base names of the files of [l] whose parent directory is [dir], in
    the order of [l] *)
Definition names_in (W : World) (out_dir : Path) (dir : string) (l : list string)
    : list string :=
  (parent_and_name W out_dir <$> l) ≫= λ pn, if decide (pn.1 = dir) then [pn.2] else [].

(** the character [c] occurs in [s] *)
Fixpoint has_char (c : ascii) (s : string) : bool :=
  match s with
  | "" => false
  | String a s' => Ascii.eqb a c || has_char c s'
  end.

(** a component as [pathlib] keeps them *)
Definition good_part (p : string) : Prop :=
  p ≠ "" ∧ p ≠ "." ∧ has_char "/" p = false.

Definition wf_path (p : Path) : Prop :=
  (root p = "" ∨ root p = "/" ∨ root p = "//") ∧ Forall good_part (parts p).

(** a component without separator that is not empty *)
Definition plain_part (p : string) : Prop := p ≠ "" ∧ has_char "/" p = false.

(** a directory name as the grouping produces them: components joined by
    the separator, at least one *)
Definition normal_dir (d : string) : Prop :=
  ∃ ps, ps ≠ [] ∧ Forall good_part ps ∧ d = Str.join "/" ps.

(** the components of the directories of a list *)
Definition dir_parts (d : string) : list string :=
  filter (λ c, OsPath.keep_component c = true) (Str.split "/" d).

(** ** The grouped layout *)

(** the non-root directories of the grouped layout, in their sorted order *)
Definition directories (order : list string → list string) (W : World)
    (abs_spec abs_m : gset string) (out_dir : Path) : list string :=
  filter (λ d, Str.nonempty d = true)
    (all_dirs_of order (group_files order W out_dir abs_m)
       (group_specs order W out_dir abs_spec)).

(** the name of [d] below [common_dir], as the nested view prints it *)
Definition subdir_name (common_dir d : string) : string :=
  Str.rstrip "/" (Str.drop (String.length (common_dir +:+ "/")) d).

(** what a block lists for directory [d]: the base names of its source
    files in alphabetical order, then those of its manifests, each once and
    with a [+], in alphabetical order *)
Definition block_entries (W : World) (abs_spec abs_m : gset string)
    (out_dir : Path) (indent d : string) : list string :=
  map (λ fname, indent +:+ fname) (sorted (names_in W out_dir d (elements abs_m)))
  ++ map (λ spec_name, indent +:+ "+" +:+ spec_name)
       (sorted (elements (list_to_set (names_in W out_dir d (elements abs_spec))
                          : gset string))).

(** ** Successful runs *)

(** every path of the set lies under an allowed prefix *)
Definition all_under (prefixes : list string) (s : gset string) : Prop :=
  ∀ rel, rel ∈ s → is_under_prefixes rel prefixes = true.

(** [p] is the path the classifier keeps for a candidate [rel] that ends in
    [suffix] and whose file exists *)
Definition classified_from (W : World) (repo_dir : Path) (rel_paths : gset string)
    (suffix p : string) : Prop :=
  ∃ rel s, rel ∈ rel_paths
    ∧ Str.endswith rel suffix = true
    ∧ fs_resolve W (as_posix (repo_dir // of_string rel)) = Some s
    ∧ fs_exists W (as_posix (of_string s)) = true
    ∧ p = as_posix (repo_dir // of_string rel).

(** the options of a configuration as [main] reads them *)
Definition prefixes_of (cfg : Config) : list string :=
  default ["package/"] (opt_restrict_prefixes cfg).
Definition format_of (cfg : Config) : string :=
  Str.lower (if Str.nonempty (default "curly" (opt_output_format cfg))
             then default "curly" (opt_output_format cfg) else "flat").
Definition include_specs_of (cfg : Config) : list string :=
  or_list (default [] (cfg_include_specs cfg)) (default [] (opt_include_specs cfg)).

(** [line] is the entry of a candidate [rel] under an allowed prefix, whose
    file [(repo_dir / rel).resolve()] existed when it was classified: a
    manifest with its [+], or a source file *)
Definition flat_entry (W : World) (repo_dir out_dir : Path) (prefixes : list string)
    (line : string) : Prop :=
  ∃ rel s,
    is_under_prefixes rel prefixes = true
    ∧ fs_resolve W (as_posix (repo_dir // of_string rel)) = Some s
    ∧ fs_exists W (as_posix (of_string s)) = true
    ∧ ((Str.endswith rel ".spec" = true
        ∧ line = "+" +:+ to_rel W out_dir (as_posix (of_string s)))
       ∨ (Str.endswith rel ".m" = true
          ∧ line = to_rel W out_dir (as_posix (of_string s)))).

(** [q] is the resolved path of a candidate [rel] under an allowed prefix
    that ends in [suffix] and whose file existed when it was classified *)
Definition selected_file (W : World) (repo_dir : Path) (prefixes : list string)
    (suffix q : string) : Prop :=
  ∃ rel s,
    is_under_prefixes rel prefixes = true
    ∧ fs_resolve W (as_posix (repo_dir // of_string rel)) = Some s
    ∧ fs_exists W (as_posix (of_string s)) = true
    ∧ Str.endswith rel suffix = true
    ∧ q = as_posix (of_string s).

(** What a successful run leaves behind: the manifest with [lines] between
    its outer braces.  The lines are laid out, flat or grouped, from one
    forced entry for each inclusion of the configuration and from two sets
    of selected files; in flat mode the lines after the forced ones are
    entries of selected files and nothing else. *)
Definition manifest_written (order : list string → list string) (W : World)
    (s : list event) : Prop :=
  ∃ cfg_path cfg repo_dir out_path abs_spec abs_m include_specs_abs lines tmp summary,
    toml W (as_posix cfg_path) = Some cfg
    ∧ outcome (resolve_repo_dir_from_config W cfg cfg_path) = Ret repo_dir
    ∧ s = [ WriteFile tmp (file_content ("{" :: lines ++ ["}"]));
            Replace tmp (as_posix out_path); Stdout summary ]
    ∧ length include_specs_abs = length (include_specs_of cfg)
    ∧ (∀ q, q ∈ abs_spec → selected_file W repo_dir (prefixes_of cfg) ".spec" q)
    ∧ (∀ q, q ∈ abs_m → selected_file W repo_dir (prefixes_of cfg) ".m" q)
    ∧ (format_of cfg = "curly" →
       lines = build_output_lines_curly order W abs_spec abs_m (parent out_path)
                 include_specs_abs)
    ∧ (format_of cfg = "flat" →
       lines = build_output_lines_flat order W abs_spec abs_m
                 (default "spec-first" (opt_order cfg)) (parent out_path)
                 include_specs_abs
       ∧ ∃ forced body,
           lines = forced ++ body
           ∧ length forced = length (include_specs_of cfg)
           ∧ Forall (flat_entry W repo_dir (parent out_path) (prefixes_of cfg)) body).

(** a path entry without its optional [+] *)
Definition strip_plus (line : string) : string :=
  match line with
  | String "+" s => s
  | _ => line
  end.

(** the lines of a file *)
Definition content_lines (content : string) : list string :=
  removelast (Str.split "010" content).

(** The claim of C2 read on a run, as far as existence goes: every path
    entry of the manifest that was put in place, taken without its [+] and
    resolved against the directory of the output file, is an existing
    file. *)
Definition entries_exist (order : list string → list string) (W : World)
    (args : Args) : Prop :=
  ∀ tmp content out line,
    WriteFile tmp content ∈ trace (main order W args) →
    Replace tmp out ∈ trace (main order W args) →
    line ∈ content_lines content → line ≠ "{" → line ≠ "}" →
    ∃ target,
      fs_resolve W (as_posix (parent (of_string out) // of_string (strip_plus line)))
      = Some target
      ∧ fs_exists W target = true.

(** The claim of C7 read on the model: the status of every run is 0 or 2. *)
Definition status_is_0_or_2 (order : list string → list string) (W : World)
    (args : Args) : Prop :=
  exit_code (outcome (main order W args)) = 0%Z
  ∨ exit_code (outcome (main order W args)) = 2%Z.

(** ** Name-status listings *)

(** every character of [s] satisfies [p] *)
Fixpoint forall_chars (p : ascii → bool) (s : string) : bool :=
  match s with
  | "" => true
  | String a s' => p a && forall_chars p s'
  end.

(** a field of a record: no tab and no line boundary in it *)
Definition is_field (s : string) : bool :=
  forall_chars (λ a, negb (Str.is_linebreak a) && negb (Ascii.eqb a tab)) s.

(** a string of white space only *)
Definition is_blank (s : string) : bool := forall_chars Str.isspace s.

(** The records of a name-status listing: a status with one path, a rename
    with the old and the new path, and the two kinds of record that lack a
    field: a status alone (or any line without a tab) and a rename with one
    path only. *)
Inductive record :=
| Changed (status path : string)
| Renamed (status old new : string)
| Bare (text : string)
| HalfRenamed (status old : string).

Definition record_line (r : record) : string :=
  match r with
  | Changed status path => status +:+ String tab path
  | Renamed status old new => status +:+ String tab old +:+ String tab new
  | Bare text => text
  | HalfRenamed status old => status +:+ String tab old
  end.

Definition record_ok (r : record) : Prop :=
  match r with
  | Changed status path =>
      is_field status = true ∧ is_field path = true
      ∧ is_blank status = false ∧ Str.startswith status "R" = false
  | Renamed status old new =>
      is_field status = true ∧ is_field old = true ∧ is_field new = true
      ∧ Str.startswith status "R" = true
  | Bare text => is_field text = true
  | HalfRenamed status old =>
      is_field status = true ∧ is_field old = true
      ∧ Str.startswith status "R" = true
  end.

(** the path a record contributes *)
Definition record_path (r : record) : option string :=
  match r with
  | Changed _ path => Some path
  | Renamed _ _ new => Some new
  | Bare _ | HalfRenamed _ _ => None
  end.

(** the text of a listing: one line per record *)
Definition listing (rs : list record) : string :=
  String.concat "" (map (λ r, record_line r +:+ newline) rs).

(** ** Git commands *)

(** the commands of the collectors *)
Definition diff_cmd (repo_dir : Path) (baseline target : string) : list string :=
  ["git"; "-C"; as_posix repo_dir; "diff"; "--name-status"; "--diff-filter=AMR";
   baseline +:+ ".." +:+ target].
Definition diff_tree_cmd (repo_dir : Path) (c : string) : list string :=
  ["git"; "-C"; as_posix repo_dir; "diff-tree"; "--name-status"; "--first-parent";
   "-r"; c +:+ "^!"; "--diff-filter=AMR"].

(** a command that ends with status 0 *)
Definition succeeds (W : World) (cmd : list string) : Prop :=
  returncode (git W cmd) = 0%Z.

Global Instance succeeds_dec W cmd : Decision (succeeds W cmd).
Proof. unfold succeeds. apply _. Defined.

Definition range_cmd (repo_dir : Path) (rng : string) : list string :=
  ["git"; "-C"; as_posix repo_dir; "diff"; "--name-status"; "--diff-filter=AMR"; rng].
Definition staged_cmd (repo_dir : Path) : list string :=
  ["git"; "-C"; as_posix repo_dir; "diff"; "--cached"; "--name-status";
   "--diff-filter=AMR"].
Definition unstaged_cmd (repo_dir : Path) : list string :=
  ["git"; "-C"; as_posix repo_dir; "diff"; "--name-status"; "--diff-filter=AMR"].
Definition untracked_cmd (repo_dir : Path) : list string :=
  ["git"; "-C"; as_posix repo_dir; "ls-files"; "--others"; "--exclude-standard"].
Definition ancestor_cmd (repo_dir : Path) (c target : string) : list string :=
  ["git"; "-C"; as_posix repo_dir; "merge-base"; "--is-ancestor"; c; target].

(** the tip [B] of a range [A..B] *)
Definition range_tip (rng : string) : string :=
  match Str.partition ".." rng with
  | Some (_, B) => B
  | None => ""
  end.

Definition merge_base_cmd (repo_dir : Path) (baseline_ref target_ref : string)
    : list string :=
  ["git"; "-C"; as_posix repo_dir; "merge-base"; baseline_ref; target_ref].
Definition fork_point_cmd (repo_dir : Path) (baseline_ref target_ref : string)
    : list string :=
  ["git"; "-C"; as_posix repo_dir; "merge-base"; "--fork-point"; baseline_ref; target_ref].

(** the fork-point probe gives nothing: it fails or prints only white space *)
Definition no_fork_point (W : World) (repo_dir : Path) (baseline_ref target_ref : string)
    : Prop :=
  ¬ succeeds W (fork_point_cmd repo_dir baseline_ref target_ref)
  ∨ Str.strip (stdout (git W (fork_point_cmd repo_dir baseline_ref target_ref))) = "".

(** ** The output file *)

(** the temporary file of [write_atomic_lines] *)
Definition tmp_path_of (out_path : Path) : Path :=
  parent out_path // of_string ("." +:+ name out_path +:+ ".tmp").

(** ** Runs that succeed *)

(** [P] holds of every event of a computation that returns. *)
Definition ret_emits {A} (P : event → Prop) (m : M A) : Prop :=
  ∀ a, outcome m = Ret a → Forall P (trace m).

(** what a run that succeeds may have done before it writes: git commands
    that succeeded, the fork-point probe whatever its result, and a
    warning for a path that was dropped *)
Definition went_well (W : World) (e : event) : Prop :=
  match e with
  | Git cmd => succeeds W cmd ∨ ∃ repo_dir b t, cmd = fork_point_cmd repo_dir b t
  | Stderr msg => ∃ rel, msg = "WARNING: path missing at target and was dropped: " +:+ rel
  | _ => True
  end.

(** ** The repository of a run *)

(** the sub-commands of git that only read the repository *)
Definition git_queries : list string :=
  ["rev-parse"; "merge-base"; "diff"; "diff-tree"; "ls-files"].

(** a git command of a run on the repository at [dir]: a query, or the
    fetch when the configuration asks for one *)
Definition repo_command (dir : string) (fetch : bool) (cmd : list string) : Prop :=
  (∃ sub rest, cmd = "git" :: "-C" :: dir :: sub :: rest ∧ sub ∈ git_queries)
  ∨ (fetch = true ∧ cmd = ["git"; "-C"; dir; "fetch"; "--prune"]).

Definition repo_event (dir : string) (fetch : bool) (e : event) : Prop :=
  match e with
  | Git cmd => repo_command dir fetch cmd
  | _ => True
  end.

Definition is_git (e : event) : bool :=
  match e with Git _ => true | _ => false end.

(** The start of a run up to the point where the repository is known: the
    configuration file is found and read, and the repository directory it
    names is a directory. *)
Definition repository_found (W : World) (args : Args)
    (cfg_path : Path) (cfg : Config) (repo_dir : Path) : Prop :=
  outcome (resolve W (of_string (arg_config args))) = Ret cfg_path
  ∧ is_file W cfg_path = true
  ∧ toml W (as_posix cfg_path) = Some cfg
  ∧ outcome (resolve_repo_dir_from_config W cfg cfg_path) = Ret repo_dir
  ∧ is_dir W repo_dir = true.

(** ** Classification *)

(** the file of candidate [rel] is there: [(repo_dir / rel).resolve()]
    exists *)
Definition present (W : World) (repo_dir : Path) (rel : string) : bool :=
  match fs_resolve W (as_posix (repo_dir // of_string rel)) with
  | Some s => fs_exists W (as_posix (of_string s))
  | None => false
  end.

(** the path the classifier records for a candidate *)
Definition abs_of (repo_dir : Path) (rel : string) : string :=
  as_posix (repo_dir // of_string rel).

(** ** Directories without a common one *)

(** no directory is above all the others: there is at most one directory,
    or two of them differ in their first component *)
Definition no_shared_ancestor (dirs : list string) : Prop :=
  (length dirs ≤ 1)%nat
  ∨ ∃ d1 d2, d1 ∈ dirs ∧ d2 ∈ dirs ∧ head (dir_parts d1) ≠ head (dir_parts d2).

(** ** Normalised paths *)

(** a component of a normalised path: not empty, not [.] and not [..],
    without separator *)
Definition clean_part (c : string) : Prop := good_part c ∧ c ≠ "..".

(** the absolute, normalised path with the components [ps] *)
Definition abs_path (ps : list string) : Path := {| root := "/"; parts := ps |}.

(** ** Suffixes *)

(** the last character of a string *)
Fixpoint last_char (s : string) : option ascii :=
  match s with
  | "" => None
  | String a "" => Some a
  | String _ s' => last_char s'
  end.

(** ** The end of a run *)

(** [R] holds of the last events and of the value of a computation that
    returns, and [P] of every event before them. *)
Definition ends_after {A} (P : event → Prop) (R : list event → A → Prop) (m : M A)
    : Prop :=
  ∀ a, outcome m = Ret a → ∃ t s, trace m = t ++ s ∧ Forall P t ∧ R s a.

(** the first of the values that is given and is not empty *)
Fixpoint first_given (l : list (option string)) : option string :=
  match l with
  | [] => None
  | o :: l' => if truthy o then o else first_given l'
  end.

(** What a run that succeeds has computed when it writes: the sets of the
    selected files, the forced entries, the output path and the lines, and
    the three events it ends with. *)
Definition final_state (order : list string → list string) (W : World) (args : Args)
    (cfg : Config) (repo_dir out_path : Path) (abs_spec abs_m : gset string)
    (include_specs_abs lines : list string) (s : list event) : Prop :=
  outcome (resolve_include_specs W repo_dir (include_specs_of cfg)) = Ret include_specs_abs
  ∧ outcome (choose_out_path W repo_dir
               (first_given [arg_output args; cfg_output cfg; opt_output cfg]))
    = Ret out_path
  ∧ (format_of cfg = "flat" ∨ format_of cfg = "curly")
  ∧ (format_of cfg = "flat" →
     lines = build_output_lines_flat order W abs_spec abs_m
               (default "spec-first" (opt_order cfg)) (parent out_path) include_specs_abs)
  ∧ (format_of cfg = "curly" →
     lines = build_output_lines_curly order W abs_spec abs_m (parent out_path)
               include_specs_abs)
  ∧ s = [ WriteFile (as_posix (tmp_path_of out_path)) (file_content ("{" :: lines ++ ["}"]));
          Replace (as_posix (tmp_path_of out_path)) (as_posix out_path);
          Stdout ("Wrote " +:+ pretty (size abs_spec) +:+ " spec and "
                  +:+ pretty (size abs_m) +:+ " source entries to "
                  +:+ as_posix out_path) ].

(** [q] is the forced entry of the inclusion [sp]: the path [sp], taken
    from the repository directory unless it is absolute, and resolved *)
Definition forced_from (W : World) (repo_dir : Path) (sp q : string) : Prop :=
  ∃ p s, outcome (expanduser W (of_string sp)) = Ret p
         ∧ fs_resolve W (as_posix (if is_absolute p then p else repo_dir // p)) = Some s
         ∧ q = as_posix (of_string s).

(** a git command that looks at the working tree: the staged changes, the
    changes that are not staged, or the untracked files *)
Definition worktree_query (cmd : list string) : Prop :=
  ∃ repo_dir, cmd = staged_cmd repo_dir ∨ cmd = unstaged_cmd repo_dir
              ∨ cmd = untracked_cmd repo_dir.

Definition no_worktree_query (e : event) : Prop :=
  match e with
  | Git cmd => ¬ worktree_query cmd
  | _ => True
  end.

(** ** The order of a flat manifest *)

(** The claim of C5 read on the model, for order mode [spec-first]: after
    the forced entries come the manifest entries in alphabetical order and
    then the source entries in alphabetical order. *)
Definition spec_first_alphabetical (order : list string → list string) (W : World)
    (abs_spec abs_m : gset string) (out_dir : Path) (include_specs_abs : list string)
    : Prop :=
  ∃ specs ms,
    build_output_lines_flat order W abs_spec abs_m "spec-first" out_dir include_specs_abs
    = map (λ p, "+" +:+ to_rel W out_dir p) include_specs_abs ++ specs ++ ms
    ∧ specs ≡ₚ map (λ p, "+" +:+ to_rel W out_dir p) (elements abs_spec)
    ∧ ms ≡ₚ map (to_rel W out_dir) (elements abs_m)
    ∧ Sorted String.le specs
    ∧ Sorted String.le ms.

(** ** The diagnostics of selector validation *)

(** the diagnostic of a commit selector that fails its check *)
Definition commit_diagnostic (target c : string) : string :=
  "ERROR: commit " +:+ c +:+ " is not an ancestor of " +:+ target
  +:+ ". Cannot include without copying.".

(** the diagnostic of a range selector that fails its check: it does not
    read [A..B], or its tip is not an ancestor of the target *)
Definition range_diagnostic (target rng : string) : string :=
  match Str.partition ".." rng with
  | Some (_, B) =>
      "ERROR: range tip " +:+ B +:+ " is not an ancestor of " +:+ target
      +:+ ". Cannot include without copying."
  | None => "ERROR: range must be A..B, got: " +:+ rng
  end.

(** the diagnostic of the first selector that fails its check: the commits
    are checked before the ranges, and each list in its order *)
Definition first_diagnostic (W : World) (repo_dir : Path)
    (commits ranges : list string) (target : string) : option string :=
  match find (λ c, negb (is_ancestor W repo_dir c target)) commits with
  | Some c => Some (commit_diagnostic target c)
  | None =>
      range_diagnostic target
        <$> find (λ rng, negb (range_ok W repo_dir target rng)) ranges
  end.

(** The claim of C10 read on the model: a run whose configuration has a
    range selector without [".."] ends in [sys.exit(2)] and has printed the
    diagnostic [range must be A..B]. *)
Definition bad_range_diagnosed (order : list string → list string) (W : World)
    (args : Args) : Prop :=
  ∀ cfg_path cfg rng,
    outcome (resolve W (of_string (arg_config args))) = Ret cfg_path →
    toml W (as_posix cfg_path) = Some cfg →
    rng ∈ default [] (sel_ranges cfg) →
    Str.contains ".." rng = false →
    outcome (main order W args) = Exit 2
    ∧ ∃ rng', Stderr ("ERROR: range must be A..B, got: " +:+ rng')
              ∈ trace (main order W args).

(** ** The selection of a run *)

(** The two sets of files that a run lists: [specs] is the manifest-type
    set and [sources] the source-type set.  The answers of git to the diff
    from the effective baseline, to the commit and range selectors and,
    unless the configuration says otherwise, to the questions about the
    working tree are collected under the prefixes of the configuration; the
    explicit paths are added; the candidates are classified, none of the
    explicit ones among them is missing, and the paths of the two classes
    are resolved. *)
Definition selects (order : list string → list string) (W : World) (cfg : Config)
    (repo_dir : Path) (specs sources : gset string) : Prop :=
  ∃ effective_baseline from_diff from_commits from_ranges from_uncommitted
    explicit_set rel_from_explicit cl,
    outcome (resolve_effective_baseline W repo_dir
               (default "origin/main" (cfg_baseline cfg))
               (default "HEAD" (cfg_target cfg))
               (default "raw" (opt_baseline_mode cfg))) = Ret effective_baseline
    ∧ outcome (collect_paths_from_diff W repo_dir effective_baseline
                 (default "HEAD" (cfg_target cfg)) (prefixes_of cfg)) = Ret from_diff
    ∧ outcome (collect_paths_from_commits W repo_dir (default [] (sel_commits cfg))
                 (prefixes_of cfg)) = Ret from_commits
    ∧ outcome (collect_paths_from_ranges W repo_dir (default [] (sel_ranges cfg))
                 (prefixes_of cfg)) = Ret from_ranges
    ∧ outcome (if default true (opt_include_uncommitted cfg)
               then collect_paths_from_uncommitted W repo_dir (prefixes_of cfg)
               else mret ∅) = Ret from_uncommitted
    ∧ outcome (normalize_and_apply_explicit_paths W (default [] (sel_paths cfg))
                 repo_dir (prefixes_of cfg)) = Ret (explicit_set, rel_from_explicit)
    ∧ outcome (materialize_and_classify order W repo_dir
                 (from_diff ∪ from_commits ∪ from_ranges ∪ from_uncommitted
                  ∪ rel_from_explicit) explicit_set) = Ret cl
    ∧ missing_explicit cl = []
    ∧ outcome (resolve_all order W (abs_spec cl)) = Ret specs
    ∧ outcome (resolve_all order W (abs_m cl)) = Ret sources.

(** ** Runs that do not succeed *)

(** the event is not the move of a file over another *)
Definition no_replace (e : event) : Prop :=
  match e with Replace _ _ => False | _ => True end.

(** The claim of C3 read on the model: a run that does not succeed ends in
    [sys.exit(2)] and has not written. *)
Definition fatal_is_exit_2 (order : list string → list string) (W : World)
    (args : Args) : Prop :=
  outcome (main order W args) ≠ Ret tt →
  outcome (main order W args) = Exit 2
  ∧ Forall no_write (trace (main order W args)).

(** [R] holds of the last events of a computation that ends in an
    exception, and [P] of every event before them. *)
Definition raises_after {A} (P : event → Prop) (R : list event → Prop) (m : M A)
    : Prop :=
  ∀ e, outcome m = Raise e → ∃ t s, trace m = t ++ s ∧ Forall P t ∧ R s.

(** What a run that ends in an exception can have written last: nothing,
    or, when the exception comes from the writer, the temporary file of the
    output path of the run. *)
Definition wrote_at_most_tmp (W : World) (args : Args) (s : list event) : Prop :=
  s = []
  ∨ ∃ cfg_path cfg repo_dir out_path content,
      repository_found W args cfg_path cfg repo_dir
      ∧ outcome (choose_out_path W repo_dir
                   (first_given [arg_output args; cfg_output cfg; opt_output cfg]))
        = Ret out_path
      ∧ s = [WriteFile (as_posix (tmp_path_of out_path)) content].

(** ** Scenarios *)

(** A repository at [/r] whose diff [origin/main..HEAD] adds
    [package/a/x.m], modifies [package/a/y.spec], renames a file to
    [package/b/z.m] and adds [other/q.m]; the paths in [absent] are missing
    from the working tree and the refs in [strangers] are not ancestors of
    anything. *)
Definition diff_text : string :=
  "A" +:+ String tab "package/a/x.m" +:+ newline
  +:+ "M" +:+ String tab "package/a/y.spec" +:+ newline
  +:+ "R100" +:+ String tab "package/old.m" +:+ String tab "package/b/z.m" +:+ newline
  +:+ "A" +:+ String tab "other/q.m" +:+ newline.

Definition example_git (strangers : list string) (cmd : list string) : CompletedProcess :=
  match cmd with
  | [_; _; _; sub; a; b; c] =>
      if bool_decide (sub = "diff") && bool_decide (c = "origin/main..HEAD")
      then MkProc 0 diff_text ""
      else if bool_decide (sub = "merge-base") && bool_decide (b ∈ strangers)
      then MkProc 1 "" ""
      else MkProc 0 "" ""
  | _ => MkProc 0 "" ""
  end.

Definition example_world (cfg : option Config) (absent strangers : list string) : World :=
  {| cwd := "/r";
     os_expanduser := λ s, s;
     fs_resolve := λ s, Some (OsPath.abspath "/r" s);
     fs_is_file := λ _, true;
     fs_is_dir := λ _, true;
     fs_exists := λ s, bool_decide (s ∉ absent);
     fs_can_write := λ _, true;
     fs_can_replace := λ _ _, true;
     toml := λ _, cfg;
     git := example_git strangers |}.

Definition example_config (commits ranges paths include_specs : list string)
    (order output_format : option string) : Config :=
  {| cfg_repo_dir := Some "/r"; cfg_baseline := None; cfg_target := None;
     cfg_fetch := None; sel_commits := Some commits; sel_ranges := Some ranges;
     sel_paths := Some paths; opt_restrict_prefixes := None; opt_order := order;
     opt_baseline_mode := None; opt_output_format := output_format;
     opt_include_uncommitted := None; cfg_include_specs := Some include_specs;
     opt_include_specs := None; cfg_output := None; opt_output := None |}.

Definition example_args : Args := MkArgs "overlay.toml" None.

(** an output format the program does not know *)
Definition world_bad_format : World :=
  example_world (Some (example_config [] [] [] [] None (Some "yaml"))) [] [].

(** a commit selector that is not an ancestor of the target *)
Definition world_stranger_commit : World :=
  example_world (Some (example_config ["deadbeef"] [] [] [] None None)) [] ["deadbeef"].

(** a range selector without [".."], after one that is fine *)
Definition world_bad_range : World :=
  example_world (Some (example_config ["c0ffee"] ["v1..v2"; "v3"] [] [] None None)) [] [].

(** a configuration file that is there but is not valid TOML *)
Definition world_malformed_config : World := example_world None [] [].

(** an explicit selector outside the allowed prefixes, absent from the
    working tree; and the same with a selector under [package/] *)
Definition world_unchecked_explicit : World :=
  example_world (Some (example_config [] [] ["other/gone.m"] [] None None))
                ["/r/other/gone.m"] [].
Definition world_missing_explicit : World :=
  example_world (Some (example_config [] [] ["package/gone.m"] [] None None))
                ["/r/package/gone.m"] [].

(** a flat manifest with a forced entry for a file that does not exist *)
Definition world_forced_missing : World :=
  example_world (Some (example_config [] [] [] ["extra/none.spec"] None (Some "flat")))
                ["/r/extra/none.spec"] [].

(** the three files of the grouped-mode scenario *)
Definition scenario_spec : gset string := {["/r/package/a/y.spec"]}.
Definition scenario_m : gset string := {["/r/package/a/x.m"; "/r/package/b/z.m"]}.

(** a repository whose answers are given by a script: the commands that
    are not in it succeed and print nothing *)
Fixpoint scripted_git (script : list (list string * CompletedProcess))
    (cmd : list string) : CompletedProcess :=
  match script with
  | [] => MkProc 0 "" ""
  | (c, p) :: rest => if bool_decide (c = cmd) then p else scripted_git rest cmd
  end.

Definition world_with_git (g : list string → CompletedProcess) : World :=
  {| cwd := "/r";
     os_expanduser := λ s, s;
     fs_resolve := λ s, Some (OsPath.abspath "/r" s);
     fs_is_file := λ _, true;
     fs_is_dir := λ _, true;
     fs_exists := λ _, true;
     fs_can_write := λ _, true;
     fs_can_replace := λ _ _, true;
     toml := λ _, None;
     git := g |}.

(** a path of the diff that is gone from the working tree *)
Definition world_dropped_path : World :=
  example_world (Some (example_config [] [] [] [] None None)) ["/r/package/a/x.m"] [].

(** a repository directory that is not there *)
Definition world_no_repo : World :=
  {| cwd := "/r";
     os_expanduser := λ s, s;
     fs_resolve := λ s, Some (OsPath.abspath "/r" s);
     fs_is_file := λ _, true;
     fs_is_dir := λ _, false;
     fs_exists := λ _, true;
     fs_can_write := λ _, true;
     fs_can_replace := λ _ _, true;
     toml := λ _, Some (example_config [] [] [] [] None None);
     git := example_git [] |}.

(** a configuration that leaves the working tree out *)
Definition config_committed_only : Config :=
  {| cfg_repo_dir := Some "/r"; cfg_baseline := None; cfg_target := None;
     cfg_fetch := None; sel_commits := None; sel_ranges := None;
     sel_paths := None; opt_restrict_prefixes := None; opt_order := None;
     opt_baseline_mode := None; opt_output_format := None;
     opt_include_uncommitted := Some false; cfg_include_specs := None;
     opt_include_specs := None; cfg_output := None; opt_output := None |}.

Definition world_committed_only : World :=
  example_world (Some config_committed_only) [] [].

(** a range selector without [".."], after a commit that is not an ancestor
    of the target *)
Definition world_stranger_before_bad_range : World :=
  example_world (Some (example_config ["deadbeef"] ["v3"] [] [] None None))
                [] ["deadbeef"].

(** an output file that cannot be put in place *)
Definition world_no_replace : World :=
  {| cwd := "/r";
     os_expanduser := λ s, s;
     fs_resolve := λ s, Some (OsPath.abspath "/r" s);
     fs_is_file := λ _, true;
     fs_is_dir := λ _, true;
     fs_exists := λ _, true;
     fs_can_write := λ _, true;
     fs_can_replace := λ _ _, false;
     toml := λ _, Some (example_config [] [] [] [] None None);
     git := example_git [] |}.

(** * Properties *)

(** ** Reasoning about computations *)

Section Monad.
Context {A B : Type}.
Implicit Types (m : M A) (f : A → M B).

Lemma bind_Ret m f a :
    outcome m = Ret a →
    trace (m ≫= f) = trace m ++ trace (f a) ∧ outcome (m ≫= f) = outcome (f a).
  Proof.
    destruct m as [t r]; simpl; intros ->. unfold mbind, M_bind.
    by destruct (f a).
  Qed.

Lemma bind_Exit m f c :
    outcome m = Exit c → m ≫= f = (trace m, Exit c).
  Proof. destruct m as [t r]; simpl; by intros ->. Qed.

Lemma bind_Raise m f e :
    outcome m = Raise e → m ≫= f = (trace m, Raise e).
  Proof. destruct m as [t r]; simpl; by intros ->. Qed.

Lemma bind_Ret_inv m f b :
    outcome (m ≫= f) = Ret b →
    ∃ a, outcome m = Ret a ∧ outcome (f a) = Ret b
         ∧ trace (m ≫= f) = trace m ++ trace (f a).
  Proof.
    destruct m as [t [a|c|e]]; simpl; try done.
    intros H. exists a. unfold mbind, M_bind in *.
    by destruct (f a).
  Qed.
End Monad.

Section Emits.
Context (P : event → Prop).

Lemma emits_ret {A} (a : A) : emits P (mret a).
  Proof. constructor. Qed.
Lemma emits_exit {A} c : emits P (@sys_exit A c).
  Proof. constructor. Qed.
Lemma emits_raise {A} e : emits P (@raise A e).
  Proof. constructor. Qed.
Lemma emits_emit e : P e → emits P (emit e).
  Proof. by repeat constructor. Qed.
Lemma emits_bind {A B} (m : M A) (f : A → M B) :
    emits P m → (∀ a, emits P (f a)) → emits P (m ≫= f).
  Proof.
    unfold emits. destruct m as [t [a|c|e]]; simpl; try done.
    intros Ht Hf. specialize (Hf a). unfold mbind, M_bind.
    destruct (f a); simpl in *. by apply Forall_app.
  Qed.
Lemma emits_for_each {A} (l : list A) body :
    (∀ x, emits P (body x)) → emits P (for_each l body).
  Proof.
    intros H. induction l; simpl; [apply emits_ret|].
    apply emits_bind; auto.
  Qed.
Lemma emits_fold_m {A S} (l : list A) (body : S → A → M S) s :
    (∀ s x, emits P (body s x)) → emits P (fold_m l body s).
  Proof.
    intros H. revert s. induction l; intros s; simpl; [apply emits_ret|].
    apply emits_bind; auto.
  Qed.
End Emits.

(** Decompose a goal [emits P m] along the structure of [m]; the side
    conditions [P e] on single events are left to [tac]. *)
Ltac emits_step tac :=
  lazymatch goal with
  | |- emits _ (mret _) => apply emits_ret
  | |- emits _ (sys_exit _) => apply emits_exit
  | |- emits _ (raise _) => apply emits_raise
  | |- emits _ (emit _) => apply emits_emit; tac
  | |- emits _ (_ ≫= _) => apply emits_bind; [|intros]
  | |- emits _ (for_each _ _) => apply emits_for_each; intros
  | |- emits _ (fold_m _ _ _) => apply emits_fold_m; intros
  | |- emits _ (match ?x with _ => _ end) => destruct x
  | |- emits _ ((match ?x with _ => _ end) _) => destruct x
  | |- emits _ _ => progress cbv zeta
  end.

Ltac emits_solve tac :=
  unfold print, eprint; repeat (emits_step tac).

Section Quiet.
Context (order : list string → list string) (W : World).
Context (P : event → Prop).
  (** [P] holds of everything except, possibly, what the writer emits *)
Hypothesis P_out : ∀ s, P (Stdout s).
Hypothesis P_err : ∀ s, P (Stderr s).
Hypothesis P_git : ∀ cmd, P (Git cmd).

Local Ltac go := emits_solve ltac:(auto).

Lemma emits_run cmd : emits P (run W cmd).
  Proof. unfold run. go. Qed.
Lemma emits_resolve p : emits P (resolve W p).
  Proof. unfold resolve. go. Qed.
Lemma emits_expanduser p : emits P (expanduser W p).
  Proof. unfold expanduser. go. Qed.
Lemma emits_load_config p : emits P (load_config W p).
  Proof. unfold load_config. go. Qed.
Hint Resolve emits_run emits_resolve emits_expanduser emits_load_config : core.
Local Ltac go' := emits_solve ltac:(auto); auto.

Lemma emits_resolve_repo_dir cfg p : emits P (resolve_repo_dir_from_config W cfg p).
  Proof. unfold resolve_repo_dir_from_config. go'. Qed.
Lemma emits_maybe_fetch r b : emits P (maybe_fetch W r b).
  Proof. unfold maybe_fetch. go'. Qed.
Lemma emits_ensure_target_exists r t : emits P (ensure_target_exists W r t).
  Proof. unfold ensure_target_exists. go'. Qed.
Lemma emits_ensure_selectors r cs rs t :
    emits P (ensure_selectors_are_ancestors W r cs rs t).
  Proof. unfold ensure_selectors_are_ancestors, check_commit, check_range. go'. Qed.
Lemma emits_resolve_effective_baseline r b t m :
    emits P (resolve_effective_baseline W r b t m).
  Proof. unfold resolve_effective_baseline. go'. Qed.
Lemma emits_collect_diff r b t ps : emits P (collect_paths_from_diff W r b t ps).
  Proof. unfold collect_paths_from_diff. go'. Qed.
Lemma emits_collect_commits r cs ps : emits P (collect_paths_from_commits W r cs ps).
  Proof. unfold collect_paths_from_commits. go'. Qed.
Lemma emits_collect_ranges r rs ps : emits P (collect_paths_from_ranges W r rs ps).
  Proof. unfold collect_paths_from_ranges. go'. Qed.
Lemma emits_collect_uncommitted r ps : emits P (collect_paths_from_uncommitted W r ps).
  Proof. unfold collect_paths_from_uncommitted. go'. Qed.
Lemma emits_normalize_explicit ps r pre :
    emits P (normalize_and_apply_explicit_paths W ps r pre).
  Proof.
    unfold normalize_and_apply_explicit_paths, apply_explicit_path,
      normalize_explicit_path. go'.
  Qed.
Lemma emits_materialize r rp es : emits P (materialize_and_classify order W r rp es).
  Proof. unfold materialize_and_classify, classify_one. go'. Qed.
Lemma emits_resolve_all s : emits P (resolve_all order W s).
  Proof. unfold resolve_all. go'. Qed.
Lemma emits_resolve_include_specs r l : emits P (resolve_include_specs W r l).
  Proof. unfold resolve_include_specs. go'. Qed.
Lemma emits_choose_out_path r o : emits P (choose_out_path W r o).
  Proof. unfold choose_out_path. go'. Qed.
End Quiet.

(** ** What a fatal exit looks like *)

Section Exits.
Context (R : list event → Z → Prop).
  (** what happened before does not matter to [R] *)
Hypothesis R_app : ∀ t t' c, R t' c → R (t ++ t') c.

Lemma exits_ret {A} (a : A) : exits R (mret a).
  Proof. by intros c. Qed.
Lemma exits_raise {A} e : exits R (@raise A e).
  Proof. by intros c. Qed.
Lemma exits_emit e : exits R (emit e).
  Proof. by intros c. Qed.
Lemma exits_bind {A B} (m : M A) (f : A → M B) :
    exits R m → (∀ a, exits R (f a)) → exits R (m ≫= f).
  Proof.
    intros Hm Hf c Hc. destruct (outcome m) as [a|c'|e] eqn:Hr.
    - destruct (bind_Ret m f a Hr) as [-> Ho]. rewrite Ho in Hc.
      apply R_app. by apply Hf.
    - rewrite (bind_Exit m f c' Hr) in Hc |- *. simpl in *.
      injection Hc as ->. by apply Hm.
    - by rewrite (bind_Raise m f e Hr) in Hc.
  Qed.
Lemma exits_for_each {A} (l : list A) body :
    (∀ x, exits R (body x)) → exits R (for_each l body).
  Proof.
    intros H. induction l; simpl; [apply exits_ret|].
    apply exits_bind; auto.
  Qed.
Lemma exits_fold_m {A S} (l : list A) (body : S → A → M S) s :
    (∀ s x, exits R (body s x)) → exits R (fold_m l body s).
  Proof.
    intros H. revert s. induction l; intros s; simpl; [apply exits_ret|].
    apply exits_bind; auto.
  Qed.
  (** the one way the program ends a run: a message, then [sys.exit(2)] *)
Lemma exits_fatal {A} msg :
    R [Stderr msg] 2 → exits R (eprint msg ;; @sys_exit A 2).
  Proof. intros H c [= <-]. exact H. Qed.
End Exits.

Ltac exits_step tac :=
  lazymatch goal with
  | |- exits _ (mret _) => apply exits_ret
  | |- exits _ (raise _) => apply exits_raise
  | |- exits _ (emit _) => apply exits_emit
  | |- exits _ (eprint _) => apply exits_emit
  | |- exits _ (print _) => apply exits_emit
  | |- exits _ (eprint _ ≫= λ _, sys_exit _) => apply exits_fatal; tac
  | |- exits _ (_ ≫= _) => apply exits_bind; [tac| |intros]
  | |- exits _ (for_each _ _) => apply exits_for_each; [tac|intros]
  | |- exits _ (fold_m _ _ _) => apply exits_fold_m; [tac|intros]
  | |- exits _ (match ?x with _ => _ end) => destruct x
  | |- exits _ ((match ?x with _ => _ end) _) => destruct x
  | |- exits _ _ => progress cbv zeta
  end.

Lemma after_message_app t t' c : after_message t' c → after_message (t ++ t') c.
Proof.
  intros [-> (t0 & msg & ->)]. split; [done|].
  exists (t ++ t0), msg. by rewrite app_assoc.
Qed.

Lemma after_message_one msg : after_message [Stderr msg] 2.
Proof. split; [done|]. by exists [], msg. Qed.

Lemma for_each_eprint (l : list string) (f : string → string) :
  for_each l (λ x, eprint (f x)) = (map (λ x, Stderr (f x)) l, Ret tt).
Proof.
  induction l as [|x l IH]; simpl; [done|]. by rewrite IH.
Qed.

Lemma fatal_listing (h : string) (l : list string) (f : string → string) :
  exits after_message
    (eprint h ;; for_each l (λ x, eprint (f x)) ;; @sys_exit unit 2).
Proof.
  rewrite for_each_eprint. intros c [= <-]. split; [done|]. simpl.
  destruct (map _ l) as [|e t] eqn:E using rev_ind.
  - by exists [], h.
  - assert (In e (map (λ x, Stderr (f x)) l)) as Hin.
    { rewrite E. apply in_or_app. right. by left. }
    apply in_map_iff in Hin as (x & <- & _).
    exists (Stderr h :: t), (f x). by rewrite app_nil_r.
Qed.

Ltac fatal_solve :=
  repeat first
    [ lazymatch goal with
      | |- exits _ (eprint _ ≫= λ _, for_each _ _ ≫= λ _, sys_exit _) =>
          apply fatal_listing
      end
    | exits_step ltac:(first [exact after_message_app | exact (after_message_one _)]) ].

Section Fatal.
Context (order : list string → list string) (W : World).
Abbreviation ok := (exits after_message).
Local Ltac go := fatal_solve.

Lemma fatal_run cmd : ok (run W cmd).
  Proof. unfold run. go. Qed.
Lemma fatal_resolve p : ok (resolve W p).
  Proof. unfold resolve. go. Qed.
Lemma fatal_expanduser p : ok (expanduser W p).
  Proof. unfold expanduser. go. Qed.
Lemma fatal_load_config p : ok (load_config W p).
  Proof. unfold load_config. go. Qed.
Hint Resolve fatal_run fatal_resolve fatal_expanduser fatal_load_config : core.
Local Ltac go' := go; auto.

Lemma fatal_resolve_repo_dir cfg p : ok (resolve_repo_dir_from_config W cfg p).
  Proof. unfold resolve_repo_dir_from_config. go'. Qed.
Lemma fatal_maybe_fetch r b : ok (maybe_fetch W r b).
  Proof. unfold maybe_fetch. go'. Qed.
Lemma fatal_ensure_target_exists r t : ok (ensure_target_exists W r t).
  Proof. unfold ensure_target_exists. go'. Qed.
Lemma fatal_ensure_selectors r cs rs t :
    ok (ensure_selectors_are_ancestors W r cs rs t).
  Proof. unfold ensure_selectors_are_ancestors, check_commit, check_range. go'. Qed.
Lemma fatal_resolve_effective_baseline r b t m :
    ok (resolve_effective_baseline W r b t m).
  Proof. unfold resolve_effective_baseline. go'. Qed.
Lemma fatal_collect_diff r b t ps : ok (collect_paths_from_diff W r b t ps).
  Proof. unfold collect_paths_from_diff. go'. Qed.
Lemma fatal_collect_commits r cs ps : ok (collect_paths_from_commits W r cs ps).
  Proof. unfold collect_paths_from_commits. go'. Qed.
Lemma fatal_collect_ranges r rs ps : ok (collect_paths_from_ranges W r rs ps).
  Proof. unfold collect_paths_from_ranges. go'. Qed.
Lemma fatal_collect_uncommitted r ps : ok (collect_paths_from_uncommitted W r ps).
  Proof. unfold collect_paths_from_uncommitted. go'. Qed.
Lemma fatal_normalize_explicit ps r pre :
    ok (normalize_and_apply_explicit_paths W ps r pre).
  Proof.
    unfold normalize_and_apply_explicit_paths, apply_explicit_path,
      normalize_explicit_path. go'.
  Qed.
Lemma fatal_materialize r rp es : ok (materialize_and_classify order W r rp es).
  Proof. unfold materialize_and_classify, classify_one. go'. Qed.
Lemma fatal_resolve_all s : ok (resolve_all order W s).
  Proof. unfold resolve_all. go'. Qed.
Lemma fatal_resolve_include_specs r l : ok (resolve_include_specs W r l).
  Proof. unfold resolve_include_specs. go'. Qed.
Lemma fatal_choose_out_path r o : ok (choose_out_path W r o).
  Proof. unfold choose_out_path. go'. Qed.
Lemma fatal_write_atomic_lines p l : ok (write_atomic_lines W p l).
  Proof. unfold write_atomic_lines. go'. Qed.
End Fatal.

(** ** The files of the output directory *)

Lemma fs_after_no_write fs t : Forall no_write t → fs_after fs t = fs.
Proof.
  unfold fs_after. induction 1 as [|e t He _ IH]; simpl; [done|].
  rewrite <- IH at 2. f_equal. by destruct e.
Qed.

Lemma exit_emits_bind {A B} P (m : M A) (f : A → M B) :
  emits P m → (∀ a, exit_emits P (f a)) → exit_emits P (m ≫= f).
Proof.
  intros Hm Hf c Hc. destruct (outcome m) as [a|c'|e] eqn:Hr.
  - destruct (bind_Ret m f a Hr) as [-> Ho]. rewrite Ho in Hc.
    apply Forall_app. split; [done|]. by eapply Hf.
  - by rewrite (bind_Exit m f c' Hr).
  - by rewrite (bind_Raise m f e Hr) in Hc.
Qed.

Lemma emits_exit_emits {A} P (m : M A) : emits P m → exit_emits P m.
Proof. by intros H c _. Qed.

Section Main.
Context (order : list string → list string) (W : World).

  (** Once the writer is called the run no longer exits: it returns or an
      exception escapes. *)
Lemma write_then_print_no_exit out_path lines (k : Path → string) c :
    outcome (p ← write_atomic_lines W out_path lines; print (k p)) ≠ Exit c.
  Proof.
    unfold write_atomic_lines.
    destruct (fs_can_write W _), (fs_can_replace W _ _); done.
  Qed.

Section Pre.
Context (P : event → Prop).
Hypothesis P_out : ∀ s, P (Stdout s).
Hypothesis P_err : ∀ s, P (Stderr s).
Hypothesis P_git : ∀ cmd, P (Git cmd).

    (** Everything [main] emits before it ends in [sys.exit] is output on
        the two streams or a git command. *)
Lemma main_exit_emits args : exit_emits P (main order W args).
    Proof using P_out P_err P_git.
      unfold main.
      repeat first
        [ lazymatch goal with
          | |- exit_emits _ (_ ← write_atomic_lines _ _ _; _) =>
              intros c Hc; by apply write_then_print_no_exit in Hc
          end
        | apply exit_emits_bind;
          [ first
              [ by eauto using emits_resolve, emits_load_config,
                  emits_resolve_repo_dir, emits_maybe_fetch,
                  emits_ensure_target_exists, emits_ensure_selectors,
                  emits_resolve_effective_baseline, emits_collect_diff,
                  emits_collect_commits, emits_collect_ranges,
                  emits_collect_uncommitted, emits_normalize_explicit,
                  emits_materialize, emits_resolve_all,
                  emits_resolve_include_specs, emits_choose_out_path
              | emits_solve ltac:(auto);
                eauto using emits_collect_uncommitted ]
          | intros ]
        | lazymatch goal with
          | |- exit_emits _ (let '(_, _) := ?x in _) => destruct x
          end
        | progress cbv zeta ].
    Qed.
End Pre.

Lemma main_fatal args : exits after_message (main order W args).
  Proof.
    unfold main.
    fatal_solve;
      eauto using fatal_resolve, fatal_load_config, fatal_resolve_repo_dir,
        fatal_maybe_fetch, fatal_ensure_target_exists, fatal_ensure_selectors,
        fatal_resolve_effective_baseline, fatal_collect_diff, fatal_collect_commits,
        fatal_collect_ranges, fatal_collect_uncommitted, fatal_normalize_explicit,
        fatal_materialize, fatal_resolve_all, fatal_resolve_include_specs,
        fatal_choose_out_path, fatal_write_atomic_lines.
  Qed.
End Main.

(** ** Selector validation *)

Lemma ret_bind {A B} (a : A) (f : A → M B) : mret a ≫= f = f a.
Proof. unfold mret, M_ret, mbind, M_bind. by destruct (f a). Qed.

Lemma mret_eq {A} (a b : A) : a = b → (mret a : M A) = mret b.
Proof. by intros ->. Qed.

Lemma bind_Ret_eq {A B} (m : M A) (f : A → M B) a :
  outcome m = Ret a → m ≫= f = (trace m ++ trace (f a), outcome (f a)).
Proof.
  intros H. destruct (bind_Ret m f a H) as [Ht Ho].
  destruct (m ≫= f); simpl in *. by subst.
Qed.

Lemma partition_of_contains sep s :
  Str.contains sep s = true → ∃ a b, Str.partition sep s = Some (a, b).
Proof.
  induction s as [|c s IH]; intros H.
  - change (Str.contains sep "") with (String.prefix sep "" || false) in H.
    change (Str.partition sep "")
      with (if String.prefix sep "" then Some ("", Str.drop (String.length sep) "")
            else None).
    destruct (String.prefix sep ""); [eauto|done].
  - change (Str.contains sep (String c s))
      with (String.prefix sep (String c s) || Str.contains sep s) in H.
    change (Str.partition sep (String c s))
      with (if String.prefix sep (String c s)
            then Some ("", Str.drop (String.length sep) (String c s))
            else match Str.partition sep s with
                 | Some (a, b) => Some (String c a, b)
                 | None => None
                 end).
    destruct (String.prefix sep (String c s)); [eauto|].
    simpl in H. destruct (IH H) as (a & b & ->). eauto.
Qed.

Section Validation.
Context (order : list string → list string) (W : World).
Implicit Types (repo_dir : Path) (target : string).

Local Ltac go := emits_solve ltac:(by split).

Lemma startup_resolve p : emits no_write_no_diff (resolve W p).
Proof. unfold resolve. go. Qed.
Lemma startup_expanduser p : emits no_write_no_diff (expanduser W p).
Proof. unfold expanduser. go. Qed.
Lemma startup_load_config p : emits no_write_no_diff (load_config W p).
Proof. unfold load_config. go. Qed.
Lemma startup_resolve_repo_dir cfg p :
  emits no_write_no_diff (resolve_repo_dir_from_config W cfg p).
Proof.
  unfold resolve_repo_dir_from_config. go;
    auto using startup_resolve, startup_expanduser.
Qed.
Lemma startup_maybe_fetch r b : emits no_write_no_diff (maybe_fetch W r b).
Proof. unfold maybe_fetch, run. go. Qed.
Lemma startup_ensure_target_exists r t :
  emits no_write_no_diff (ensure_target_exists W r t).
Proof. unfold ensure_target_exists, run. go. Qed.
Lemma startup_ensure_selectors r cs rs t :
  emits no_write_no_diff (ensure_selectors_are_ancestors W r cs rs t).
Proof.
  unfold ensure_selectors_are_ancestors, check_commit, check_range, run. go.
Qed.

(** a run that ends inside selector validation *)
Lemma main_ends_in_validation args cfg_path cfg repo_dir c :
  reaches_validation W args cfg_path cfg repo_dir →
  outcome (ensure_selectors_are_ancestors W repo_dir
             (default [] (sel_commits cfg)) (default [] (sel_ranges cfg))
             (default "HEAD" (cfg_target cfg))) = Exit c →
  ∃ t0, Forall no_write_no_diff t0 ∧
    main order W args =
      (t0 ++ trace (ensure_selectors_are_ancestors W repo_dir
                      (default [] (sel_commits cfg)) (default [] (sel_ranges cfg))
                      (default "HEAD" (cfg_target cfg))), Exit c).
Proof.
  intros (H1 & H2 & H3 & H4 & H5 & H6 & H7) Hc.
  unfold main.
  rewrite (bind_Ret_eq _ _ _ H1), H2. simpl negb. cbv iota.
  rewrite ret_bind.
  rewrite (bind_Ret_eq _ _ _ H3), (bind_Ret_eq _ _ _ H4). cbv zeta.
  rewrite H5. simpl negb. cbv iota.
  rewrite ret_bind.
  rewrite (bind_Ret_eq _ _ _ H6), (bind_Ret_eq _ _ _ H7).
  rewrite (bind_Exit _ _ _ Hc). simpl.
  eexists. split; [|by rewrite !app_assoc].
  pose proof (startup_resolve (of_string (arg_config args))).
  pose proof (startup_load_config cfg_path).
  pose proof (startup_resolve_repo_dir cfg cfg_path).
  pose proof (startup_maybe_fetch repo_dir (default false (cfg_fetch cfg))).
  pose proof (startup_ensure_target_exists repo_dir (default "HEAD" (cfg_target cfg))).
  unfold emits in *. by rewrite !Forall_app.
Qed.

Lemma check_commit_outcome repo_dir target c :
  outcome (check_commit W repo_dir target c)
  = if is_ancestor W repo_dir c target then Ret tt else Exit 2.
Proof.
  unfold check_commit, is_ancestor, run. simpl.
  by destruct (bool_decide _).
Qed.

Lemma check_range_outcome repo_dir target rng :
  outcome (check_range W repo_dir target rng)
  = if range_ok W repo_dir target rng then Ret tt else Exit 2.
Proof.
  unfold check_range, range_ok, is_ancestor, run.
  destruct (Str.contains ".." rng) eqn:Hc; simpl; [|done].
  destruct (partition_of_contains _ _ Hc) as (A & B & ->). simpl.
  by destruct (bool_decide _).
Qed.

Lemma for_each_outcome {A} (l : list A) (body : A → M unit) (ok : A → bool) :
  (∀ x, outcome (body x) = if ok x then Ret tt else Exit 2) →
  outcome (for_each l body) = if forallb ok l then Ret tt else Exit 2.
Proof.
  intros H. induction l as [|x l IH]; simpl; [done|].
  specialize (H x). destruct (ok x); simpl.
  - destruct (bind_Ret (body x) (λ _, for_each l body) tt H) as [_ ->]. exact IH.
  - by rewrite (bind_Exit _ _ _ H).
Qed.

Lemma ensure_selectors_outcome repo_dir commits ranges target :
  outcome (ensure_selectors_are_ancestors W repo_dir commits ranges target)
  = if forallb (λ c, is_ancestor W repo_dir c target) commits
       && forallb (range_ok W repo_dir target) ranges
    then Ret tt else Exit 2.
Proof.
  unfold ensure_selectors_are_ancestors.
  pose proof (for_each_outcome commits (check_commit W repo_dir target) _
                (check_commit_outcome repo_dir target)) as Hc.
  pose proof (for_each_outcome ranges (check_range W repo_dir target) _
                (check_range_outcome repo_dir target)) as Hr.
  destruct (forallb _ commits); simpl.
  - destruct (bind_Ret _ (λ _, for_each ranges (check_range W repo_dir target)) tt Hc)
      as [_ ->]. exact Hr.
  - by rewrite (bind_Exit _ _ _ Hc).
Qed.

(** a loop that runs into [sys.exit] after some rounds that return *)
Lemma for_each_stops {A} (l1 l2 : list A) (x : A) (body : A → M unit) c e :
  (∀ y, y ∈ l1 → outcome (body y) = Ret tt) →
  outcome (body x) = Exit c →
  last (trace (body x)) = Some e →
  last (trace (for_each (l1 ++ x :: l2) body)) = Some e.
Proof.
  intros Hl1 Hx He. induction l1 as [|y l1 IH]; simpl.
  - by rewrite (bind_Exit _ _ _ Hx).
  - rewrite (bind_Ret_eq _ _ tt); [|apply Hl1; by left]. simpl.
    apply last_app_Some. left. apply IH. intros z Hz. apply Hl1. by right.
Qed.

Lemma validation_stops_at_range repo_dir commits before after target rng :
  forallb (λ c, is_ancestor W repo_dir c target) commits = true →
  forallb (range_ok W repo_dir target) before = true →
  Str.contains ".." rng = false →
  last (trace (ensure_selectors_are_ancestors W repo_dir commits
                 (before ++ rng :: after) target))
  = Some (Stderr ("ERROR: range must be A..B, got: " +:+ rng)).
Proof.
  intros Hcommits Hbefore Hno. unfold ensure_selectors_are_ancestors.
  rewrite (bind_Ret_eq _ _ tt).
  2:{ rewrite (for_each_outcome commits _ _ (check_commit_outcome repo_dir target)).
      by rewrite Hcommits. }
  simpl. apply last_app_Some. left.
  apply for_each_stops with (c := 2%Z).
  - intros y Hy. rewrite check_range_outcome.
    rewrite forallb_forall in Hbefore. apply list_elem_of_In in Hy.
    by rewrite (Hbefore y Hy).
  - unfold check_range. by rewrite Hno.
  - unfold check_range. by rewrite Hno.
Qed.

End Validation.

(** *** The diagnostic of a validation that fails *)

Section Diagnostics.
Context (W : World).
Implicit Types (repo_dir : Path) (target : string).

Lemma check_commit_failed repo_dir target c :
  is_ancestor W repo_dir c target = false →
  outcome (check_commit W repo_dir target c) = Exit 2
  ∧ last (trace (check_commit W repo_dir target c))
    = Some (Stderr (commit_diagnostic target c)).
Proof.
  unfold check_commit, is_ancestor, run. simpl. by intros ->.
Qed.

Lemma check_range_failed repo_dir target rng :
  range_ok W repo_dir target rng = false →
  outcome (check_range W repo_dir target rng) = Exit 2
  ∧ last (trace (check_range W repo_dir target rng))
    = Some (Stderr (range_diagnostic target rng)).
Proof.
  unfold check_range, range_ok, range_diagnostic, is_ancestor, run.
  destruct (Str.contains ".." rng) eqn:Hc; simpl.
  - destruct (partition_of_contains _ _ Hc) as (A & B & ->). simpl. by intros ->.
  - intros _. destruct (Str.partition ".." rng) as [[A B]|] eqn:Hp; [|done].
    exfalso. revert Hc. clear -Hp. revert A B Hp.
    induction rng as [|c s IH]; intros A B.
    + change (Str.partition ".." "") with (@None (string * string)). done.
    + change (Str.partition ".." (String c s))
        with (if String.prefix ".." (String c s)
              then Some ("", Str.drop (String.length "..") (String c s))
              else match Str.partition ".." s with
                   | Some (a, b) => Some (String c a, b)
                   | None => None
                   end).
      change (Str.contains ".." (String c s))
        with (String.prefix ".." (String c s) || Str.contains ".." s).
      destruct (String.prefix ".." (String c s)); [done|].
      destruct (Str.partition ".." s) as [[a b]|] eqn:E; [|done].
      intros _. simpl. by apply (IH a b).
Qed.

(** a loop stops at the first round that does not pass *)
Lemma for_each_first_failure {A} (l : list A) (body : A → M unit) (ok : A → bool)
    (msg : A → string) x :
  (∀ y, ok y = true → outcome (body y) = Ret tt) →
  (∀ y, ok y = false →
        outcome (body y) = Exit 2 ∧ last (trace (body y)) = Some (Stderr (msg y))) →
  find (λ y, negb (ok y)) l = Some x →
  outcome (for_each l body) = Exit 2
  ∧ last (trace (for_each l body)) = Some (Stderr (msg x)).
Proof.
  intros Hok Hbad. induction l as [|y l IH]; [done|]. cbn [find for_each].
  destruct (ok y) eqn:Ey; simpl negb; cbv iota.
  - intros Hx. destruct (IH Hx) as [Ho Hl].
    rewrite (bind_Ret_eq _ _ tt) by auto. simpl. split; [done|].
    apply last_app_Some. by left.
  - intros [= <-]. destruct (Hbad y Ey) as [Ho Hl].
    by rewrite (bind_Exit _ _ _ Ho).
Qed.

Lemma find_none_forallb {A} (ok : A → bool) (l : list A) :
  find (λ y, negb (ok y)) l = None → forallb ok l = true.
Proof.
  induction l as [|y l IH]; [done|]. simpl.
  destruct (ok y); simpl; [done|done].
Qed.

(** validation that fails ends with the diagnostic of the first selector
    that does not pass *)
Lemma validation_first_diagnostic repo_dir commits ranges target msg :
  first_diagnostic W repo_dir commits ranges target = Some msg →
  outcome (ensure_selectors_are_ancestors W repo_dir commits ranges target) = Exit 2
  ∧ last (trace (ensure_selectors_are_ancestors W repo_dir commits ranges target))
    = Some (Stderr msg).
Proof.
  unfold first_diagnostic, ensure_selectors_are_ancestors.
  destruct (find _ commits) as [c|] eqn:Hc.
  - intros [= <-].
    destruct (for_each_first_failure commits (check_commit W repo_dir target)
                (λ c, is_ancestor W repo_dir c target) (commit_diagnostic target) c)
      as [Ho Hl]; [| |done|].
    + intros y Hy. by rewrite check_commit_outcome, Hy.
    + intros y Hy. by apply check_commit_failed.
    + by rewrite (bind_Exit _ _ _ Ho).
  - destruct (find _ ranges) as [rng|] eqn:Hr; [|done]. intros [= <-].
    rewrite (bind_Ret_eq _ _ tt).
    2:{ rewrite (for_each_outcome commits _ _ (check_commit_outcome W repo_dir target)).
        by rewrite (find_none_forallb _ _ Hc). }
    destruct (for_each_first_failure ranges (check_range W repo_dir target)
                (range_ok W repo_dir target) (range_diagnostic target) rng)
      as [Ho Hl]; [| |done|].
    + intros y Hy. by rewrite check_range_outcome, Hy.
    + intros y Hy. by apply check_range_failed.
    + simpl. split; [done|]. apply last_app_Some. by left.
Qed.

Lemma validation_fails_first_diagnostic repo_dir commits ranges target c :
  outcome (ensure_selectors_are_ancestors W repo_dir commits ranges target) = Exit c →
  ∃ msg, first_diagnostic W repo_dir commits ranges target = Some msg.
Proof.
  rewrite ensure_selectors_outcome. unfold first_diagnostic.
  destruct (find _ commits) as [c'|] eqn:Hc; [by eexists|].
  rewrite (find_none_forallb _ _ Hc). simpl.
  destruct (find _ ranges) as [rng|] eqn:Hr; [by eexists|].
  by rewrite (find_none_forallb _ _ Hr).
Qed.

End Diagnostics.

(** ** Rejected selectors *)


(** C6: when the run gets to selector validation and some commit selector,
    or the tip [B] of some range selector [A..B], is not an ancestor of the
    target, the run ends with [sys.exit(2)] inside
    [ensure_selectors_are_ancestors]: no diff has been computed and nothing
    has been written. *)
Theorem non_ancestor_selector_rejected order W args cfg_path cfg repo_dir :
  reaches_validation W args cfg_path cfg repo_dir →
  (∃ c, c ∈ default [] (sel_commits cfg)
        ∧ is_ancestor W repo_dir c (default "HEAD" (cfg_target cfg)) = false)
  ∨ (∃ rng A B, rng ∈ default [] (sel_ranges cfg)
        ∧ Str.partition ".." rng = Some (A, B)
        ∧ is_ancestor W repo_dir B (default "HEAD" (cfg_target cfg)) = false) →
  outcome (main order W args) = Exit 2
  ∧ (∃ t0, trace (main order W args)
           = t0 ++ trace (ensure_selectors_are_ancestors W repo_dir
                            (default [] (sel_commits cfg)) (default [] (sel_ranges cfg))
                            (default "HEAD" (cfg_target cfg))))
  ∧ Forall no_write (trace (main order W args))
  ∧ Forall no_diff (trace (main order W args)).
Proof.
  intros Hreach Hbad.
  assert (outcome (ensure_selectors_are_ancestors W repo_dir
            (default [] (sel_commits cfg)) (default [] (sel_ranges cfg))
            (default "HEAD" (cfg_target cfg))) = Exit 2) as Hexit.
  { rewrite ensure_selectors_outcome.
    destruct Hbad as [(c & Hin & Hc)|(rng & A & B & Hin & Hp & Hc)].
    - assert (forallb (λ c, is_ancestor W repo_dir c (default "HEAD" (cfg_target cfg)))
                (default [] (sel_commits cfg)) = false) as ->; [|done].
      apply not_true_is_false. intros Hall.
      rewrite forallb_forall in Hall. apply list_elem_of_In in Hin.
      by rewrite (Hall c Hin) in Hc.
    - assert (forallb (range_ok W repo_dir (default "HEAD" (cfg_target cfg)))
                (default [] (sel_ranges cfg)) = false) as ->;
        [|by rewrite andb_false_r].
      apply not_true_is_false. intros Hall.
      rewrite forallb_forall in Hall. apply list_elem_of_In in Hin.
      specialize (Hall rng Hin). unfold range_ok in Hall.
      rewrite Hp, Hc in Hall. by rewrite andb_false_r in Hall. }
  destruct (main_ends_in_validation order W args _ _ _ _ Hreach Hexit)
    as (t0 & Ht0 & ->).
  pose proof (startup_ensure_selectors W repo_dir (default [] (sel_commits cfg))
                (default [] (sel_ranges cfg)) (default "HEAD" (cfg_target cfg))) as Hv.
  unfold emits in Hv. simpl.
  split; [done|]. split; [by exists t0|].
  split; apply Forall_app; split;
    (eapply Forall_impl; [eassumption|by intros ? []]).
Qed.

Lemma non_ancestor_selector_rejected_witness :
  outcome (main id world_stranger_commit example_args) = Exit 2
  ∧ Forall no_write (trace (main id world_stranger_commit example_args))
  ∧ Forall no_diff (trace (main id world_stranger_commit example_args)).
Proof.
  destruct (non_ancestor_selector_rejected id world_stranger_commit example_args
              (of_string "/r/overlay.toml")
              (example_config ["deadbeef"] [] [] [] None None)
              (of_string "/r")) as (H1 & _ & H2 & H3).
  - vm_compute. repeat split.
  - left. exists "deadbeef". split; [by left|]. vm_compute. reflexivity.
  - exact (conj H1 (conj H2 H3)).
Defined.

(** C10, counterexample: the range [v3] does not read [A..B], but the
    commit [deadbeef] is checked first and is not an ancestor of the
    target: the run ends with the diagnostic of the commit, and
    [range must be A..B] is never printed. *)
Lemma stranger_commit_hides_bad_range :
  outcome (main id world_stranger_before_bad_range example_args) = Exit 2
  ∧ last (trace (main id world_stranger_before_bad_range example_args))
    = Some (Stderr "ERROR: commit deadbeef is not an ancestor of HEAD. Cannot include without copying.")
  ∧ ¬ bad_range_diagnosed id world_stranger_before_bad_range example_args.
Proof.
  assert (trace (main id world_stranger_before_bad_range example_args)
          = [ Git ["git"; "-C"; "/r"; "rev-parse"; "--verify"; "HEAD"];
              Git ["git"; "-C"; "/r"; "merge-base"; "--is-ancestor"; "deadbeef"; "HEAD"];
              Stderr "ERROR: commit deadbeef is not an ancestor of HEAD. Cannot include without copying." ])
    as Ht by (by vm_compute).
  split; [by vm_compute|]. split; [by rewrite Ht|].
  intros H.
  destruct (H (of_string "/r/overlay.toml")
              (example_config ["deadbeef"] ["v3"] [] [] None None) "v3")
    as (_ & rng' & Hin).
  - by vm_compute.
  - done.
  - by left.
  - by vm_compute.
  - rewrite Ht in Hin.
    repeat (apply elem_of_cons in Hin as [Hin|Hin]; [by simplify_eq|]).
    by apply elem_of_nil in Hin.
Qed.

(** C10, amended: when the run gets to selector validation and some range
    selector does not contain [".."], the run ends with [sys.exit(2)]
    inside [ensure_selectors_are_ancestors], before any diff is computed
    and before anything is written.  The last thing it prints is the
    diagnostic of the first selector that fails its check, the commits
    being checked before the ranges; it is
    [ERROR: range must be A..B, got: <range>] when the selectors checked
    before that range pass. *)
Theorem malformed_range_rejected order W args cfg_path cfg repo_dir rng :
  reaches_validation W args cfg_path cfg repo_dir →
  rng ∈ default [] (sel_ranges cfg) →
  Str.contains ".." rng = false →
  outcome (main order W args) = Exit 2
  ∧ Forall no_write (trace (main order W args))
  ∧ Forall no_diff (trace (main order W args))
  ∧ (∃ msg, first_diagnostic W repo_dir (default [] (sel_commits cfg))
              (default [] (sel_ranges cfg)) (default "HEAD" (cfg_target cfg)) = Some msg
            ∧ last (trace (main order W args)) = Some (Stderr msg))
  ∧ (∀ before after,
       default [] (sel_ranges cfg) = before ++ rng :: after →
       forallb (λ c, is_ancestor W repo_dir c (default "HEAD" (cfg_target cfg)))
               (default [] (sel_commits cfg)) = true →
       forallb (range_ok W repo_dir (default "HEAD" (cfg_target cfg))) before = true →
       last (trace (main order W args))
       = Some (Stderr ("ERROR: range must be A..B, got: " +:+ rng))).
Proof.
  intros Hreach Hin Hno.
  assert (range_ok W repo_dir (default "HEAD" (cfg_target cfg)) rng = false) as Hbad.
  { unfold range_ok. by rewrite Hno. }
  assert (outcome (ensure_selectors_are_ancestors W repo_dir
            (default [] (sel_commits cfg)) (default [] (sel_ranges cfg))
            (default "HEAD" (cfg_target cfg))) = Exit 2) as Hexit.
  { rewrite ensure_selectors_outcome.
    assert (forallb (range_ok W repo_dir (default "HEAD" (cfg_target cfg)))
              (default [] (sel_ranges cfg)) = false) as ->;
      [|by rewrite andb_false_r].
    apply not_true_is_false. intros Hall.
    rewrite forallb_forall in Hall. apply list_elem_of_In in Hin.
    by rewrite (Hall rng Hin) in Hbad. }
  destruct (validation_fails_first_diagnostic W _ _ _ _ _ Hexit) as [msg Hmsg].
  destruct (validation_first_diagnostic W _ _ _ _ _ Hmsg) as [_ Hlast].
  destruct (main_ends_in_validation order W args _ _ _ _ Hreach Hexit)
    as (t0 & Ht0 & ->).
  pose proof (startup_ensure_selectors W repo_dir (default [] (sel_commits cfg))
                (default [] (sel_ranges cfg)) (default "HEAD" (cfg_target cfg))) as Hv.
  unfold emits in Hv. simpl.
  split; [done|].
  split; [|split; [|split]].
  1,2: apply Forall_app; split; (eapply Forall_impl; [eassumption|by intros ? []]).
  - exists msg. split; [done|]. apply last_app_Some. by left.
  - intros before after Hsplit Hcommits Hbefore.
    apply last_app_Some. left.
    rewrite Hsplit. by apply validation_stops_at_range.
Qed.

Lemma malformed_range_rejected_witness :
  outcome (main id world_bad_range example_args) = Exit 2
  ∧ Forall no_diff (trace (main id world_bad_range example_args))
  ∧ last (trace (main id world_bad_range example_args))
    = Some (Stderr "ERROR: range must be A..B, got: v3").
Proof.
  destruct (malformed_range_rejected id world_bad_range example_args
              (of_string "/r/overlay.toml")
              (example_config ["c0ffee"] ["v1..v2"; "v3"] [] [] None None)
              (of_string "/r") "v3") as (H1 & _ & H2 & _ & H3).
  - vm_compute. repeat split.
  - right. by left.
  - vm_compute. reflexivity.
  - split; [exact H1|]. split; [exact H2|].
    apply (H3 ["v1..v2"] []); vm_compute; reflexivity.
Defined.



(** ** Explicit path selectors *)

(** C1, the code at the failing input: the explicitly selected
    [other/gone.m] does not exist and is not under [package/]; it never
    reaches the existence check, the run prints nothing on the diagnostic
    stream, writes the manifest and ends with status 0.  The same selector
    under [package/] ends the run with status 2 and the listing. *)
Theorem explicit_path_outside_prefixes_not_checked :
  exists_ world_unchecked_explicit (of_string "/r" // of_string "other/gone.m") = false
  ∧ outcome (main id world_unchecked_explicit example_args) = Ret tt
  ∧ exit_code (outcome (main id world_unchecked_explicit example_args)) = 0%Z
  ∧ filter (λ e, is_stderr e = true) (trace (main id world_unchecked_explicit example_args)) = []
  ∧ outcome (main id world_missing_explicit example_args) = Exit 2
  ∧ filter (λ e, is_stderr e = true) (trace (main id world_missing_explicit example_args))
    = [ Stderr "ERROR: explicitly selected paths missing at target:";
        Stderr "  package/gone.m" ].
Proof. vm_compute. repeat split. Qed.

Lemma trace_expanduser W p : trace (expanduser W p) = [].
Proof.
  unfold expanduser. destruct (root p), (parts p); try done.
  destruct (Str.startswith _ _); [|done].
  by destruct (Str.startswith _ _).
Qed.

Lemma normalize_relative W repo_dir pth :
  relative_selector W pth →
  normalize_explicit_path W repo_dir pth = mret (as_posix (of_string pth)).
Proof.
  intros (p & Hp & Hrel). unfold normalize_explicit_path.
  pose proof (trace_expanduser W (of_string pth)) as Ht.
  destruct (expanduser W (of_string pth)) as [t r]; simpl in *; subst.
  by rewrite Hrel.
Qed.

Lemma normalize_message W repo_dir pth msg :
  Stderr msg ∈ trace (normalize_explicit_path W repo_dir pth) →
  absolute_selector W pth
  ∧ (msg = "ERROR: invalid explicit path: " +:+ pth
     ∨ msg = "ERROR: explicit path not under repo_dir: " +:+ pth).
Proof.
  unfold normalize_explicit_path, absolute_selector.
  pose proof (trace_expanduser W (of_string pth)) as Ht.
  destruct (expanduser W (of_string pth)) as [t [p|c|e]]; simpl in *; subst;
    try by intros ?%elem_of_nil.
  destruct (is_absolute p) eqn:Habs; [|by intros ?%elem_of_nil].
  intros Hin. split; [by exists p|].
  destruct (fs_resolve W (as_posix p)) as [s|]; simpl in Hin.
  - destruct (relative_to (of_string s) repo_dir); simpl in Hin.
    + by apply elem_of_nil in Hin.
    + apply list_elem_of_singleton in Hin as [= ->]. by right.
  - apply list_elem_of_singleton in Hin as [= ->]. by left.
Qed.

Lemma fold_m_trace_elem {A S} (l : list A) (body : S → A → M S) s e :
  e ∈ trace (fold_m l body s) → ∃ s' x, x ∈ l ∧ e ∈ trace (body s' x).
Proof.
  revert s. induction l as [|x l IH]; intros s; simpl.
  - by intros ?%elem_of_nil.
  - destruct (outcome (body s x)) as [s'|c|exn] eqn:Hr.
    + rewrite (bind_Ret_eq _ _ _ Hr). simpl. intros [Hin|Hin]%elem_of_app.
      * exists s, x. split; [by left|done].
      * destruct (IH _ Hin) as (s'' & y & Hy & He).
        exists s'', y. split; [by right|done].
    + rewrite (bind_Exit _ _ _ Hr). simpl. intros Hin.
      exists s, x. split; [by left|done].
    + rewrite (bind_Raise _ _ _ Hr). simpl. intros Hin.
      exists s, x. split; [by left|done].
Qed.

Lemma normalize_all_relative W repo_dir prefixes explicit_paths acc :
  (∀ pth, pth ∈ explicit_paths → relative_selector W pth) →
  fold_m explicit_paths (apply_explicit_path W repo_dir prefixes) acc
  = mret (acc.1 ∪ list_to_set (map (λ pth, as_posix (of_string pth)) explicit_paths),
          acc.2 ∪ list_to_set
                    (filter (λ rel_s, is_under_prefixes rel_s prefixes = true)
                       (map (λ pth, as_posix (of_string pth)) explicit_paths))).
Proof.
  revert acc. induction explicit_paths as [|pth l IH]; intros [es rp] Hrel; simpl.
  - f_equal. f_equal; set_solver.
  - unfold apply_explicit_path at 1.
    rewrite (normalize_relative W repo_dir pth) by (apply Hrel; by left).
    rewrite !ret_bind. rewrite IH by (intros; apply Hrel; by right).
    simpl. f_equal. f_equal; [set_solver|].
    destruct (is_under_prefixes _ prefixes) eqn:E.
    + rewrite filter_cons_True by done. set_solver.
    + rewrite filter_cons_False by (by rewrite E). set_solver.
Qed.

(** C9: [normalize_and_apply_explicit_paths] checks containment in the
    repository for absolute selectors only.  Each of its two diagnostics is
    about a selector that is absolute; when every selector is relative the
    function returns, having accepted each one as written (normalised by
    [pathlib], which keeps [..]); and a relative selector with [..]
    segments is admitted, passes the prefix filter and resolves against the
    repository root [/r] to [/etc/x.m], outside of it. *)
Theorem relative_selector_not_contained W repo_dir prefixes explicit_paths :
  (∀ msg,
     Stderr msg ∈ trace (normalize_and_apply_explicit_paths W explicit_paths
                           repo_dir prefixes) →
     ∃ pth, pth ∈ explicit_paths ∧ absolute_selector W pth
            ∧ (msg = "ERROR: invalid explicit path: " +:+ pth
               ∨ msg = "ERROR: explicit path not under repo_dir: " +:+ pth))
  ∧ ((∀ pth, pth ∈ explicit_paths → relative_selector W pth) →
     normalize_and_apply_explicit_paths W explicit_paths repo_dir prefixes
     = mret (list_to_set (map (λ pth, as_posix (of_string pth)) explicit_paths),
             list_to_set (filter (λ rel_s, is_under_prefixes rel_s prefixes = true)
                            (map (λ pth, as_posix (of_string pth)) explicit_paths))))
  ∧ (relative_selector world_malformed_config "package/../../etc/x.m"
     ∧ normalize_and_apply_explicit_paths world_malformed_config
         ["package/../../etc/x.m"] (of_string "/r") ["package/"]
       = mret ({["package/../../etc/x.m"]}, {["package/../../etc/x.m"]})
     ∧ resolve world_malformed_config (of_string "/r" // of_string "package/../../etc/x.m")
       = mret (of_string "/etc/x.m")
     ∧ relative_to (of_string "/etc/x.m") (of_string "/r") = None).
Proof.
  split; [|split].
  - intros msg Hin. unfold normalize_and_apply_explicit_paths in Hin.
    apply fold_m_trace_elem in Hin as ([es rp] & pth & Hpth & Hin).
    exists pth. split; [done|].
    apply (normalize_message W repo_dir). unfold apply_explicit_path in Hin.
    destruct (outcome (normalize_explicit_path W repo_dir pth)) as [a|c|e] eqn:Hr.
    + rewrite (bind_Ret_eq _ _ _ Hr) in Hin. simpl in Hin.
      by rewrite app_nil_r in Hin.
    + by rewrite (bind_Exit _ _ _ Hr) in Hin.
    + by rewrite (bind_Raise _ _ _ Hr) in Hin.
  - intros Hrel. unfold normalize_and_apply_explicit_paths.
    rewrite normalize_all_relative by done. simpl.
    f_equal. f_equal; set_solver.
  - split; [by eexists; split; vm_compute|].
    split; [|split]; [|by vm_compute..].
    unfold normalize_and_apply_explicit_paths.
    rewrite normalize_all_relative.
    + by vm_compute.
    + intros pth ->%list_elem_of_singleton. by eexists; split; vm_compute.
Qed.

(** ** Sorting and the order of iteration *)

Lemma sorted_Sorted l : Sorted String.le (sorted l).
Proof. apply (Sorted_merge_sort String.le). Qed.

Lemma sorted_Permutation l : sorted l ≡ₚ l.
Proof. apply merge_sort_Permutation. Qed.

Lemma Sorted_le_unique (l1 l2 : list string) :
  Sorted String.le l1 → Sorted String.le l2 → l1 ≡ₚ l2 → l1 = l2.
Proof. apply (Sorted_unique String.le). Qed.

Lemma sorted_perm l1 l2 : l1 ≡ₚ l2 → sorted l1 = sorted l2.
Proof.
  intros H. apply Sorted_le_unique; try apply sorted_Sorted.
  by rewrite !sorted_Permutation.
Qed.

Lemma iter_perm order s : visits_once order → iter order s ≡ₚ elements s.
Proof. intros H. apply H. Qed.

Lemma sorted_iter order s : visits_once order → sorted (iter order s) = sorted (elements s).
Proof. intros H. by apply sorted_perm, iter_perm. Qed.

Global Instance le_snd_total {A} : Total (@le_snd A).
Proof. intros x y. unfold le_snd. apply (total String.le). Qed.

(** sorting by the rendered line and then dropping the tags gives the
    lines in sorted order *)
Lemma sorted_by_snd_lines {A} (l : list (A * string)) :
  map snd (sorted_by_snd l) = sorted (map snd l).
Proof.
  apply Sorted_le_unique.
  - apply (Sorted_fmap snd le_snd String.le).
    + by intros x y.
    + apply (Sorted_merge_sort le_snd).
  - apply sorted_Sorted.
  - rewrite sorted_Permutation. unfold sorted_by_snd.
    change (map snd ?l) with (snd <$> l).
    by rewrite merge_sort_Permutation.
Qed.

Lemma id_visits_once : visits_once id.
Proof. by intros l. Qed.

(** ** The flat layout *)

(** C5, amended: in flat mode the forced entries come first, each with a [+], in
    the order of the inclusion list.  With order mode [spec-first] they are
    followed by the manifest entries, [+]-prefixed, in the alphabetical
    order of their absolute paths, and then by the source entries in the
    alphabetical order of theirs.  With any other order mode they are
    followed by the rendered lines of both groups in one alphabetical
    order of the line text, the [+] of a manifest line included. *)
Theorem flat_layout order W abs_spec abs_m order_mode out_dir include_specs_abs :
  visits_once order →
  ∃ specs ms merged,
    specs ≡ₚ elements abs_spec ∧ Sorted String.le specs
    ∧ ms ≡ₚ elements abs_m ∧ Sorted String.le ms
    ∧ merged ≡ₚ map (λ p, "+" +:+ to_rel W out_dir p) (elements abs_spec)
                ++ map (to_rel W out_dir) (elements abs_m)
    ∧ Sorted String.le merged
    ∧ build_output_lines_flat order W abs_spec abs_m order_mode out_dir include_specs_abs
      = map (λ p, "+" +:+ to_rel W out_dir p) include_specs_abs
        ++ (if bool_decide (order_mode = "spec-first")
            then map (λ p, "+" +:+ to_rel W out_dir p) specs
                 ++ map (to_rel W out_dir) ms
            else merged).
Proof.
  intros Hord.
  exists (sorted (elements abs_spec)), (sorted (elements abs_m)),
    (sorted (map (λ p, "+" +:+ to_rel W out_dir p) (elements abs_spec)
             ++ map (to_rel W out_dir) (elements abs_m))).
  repeat split; try apply sorted_Sorted; try apply sorted_Permutation.
  unfold build_output_lines_flat.
  destruct (bool_decide (order_mode = "spec-first")).
  - by rewrite !sorted_iter.
  - f_equal. rewrite sorted_by_snd_lines, map_app, !map_map. simpl.
    apply sorted_perm. change (map ?f ?l) with (f <$> l).
    by rewrite !(iter_perm order _ Hord).
Qed.

Lemma flat_layout_witness :
  visits_once id
  ∧ ∃ specs ms merged,
      specs ≡ₚ elements ({["/r/package/y.spec"]} : gset string)
      ∧ Sorted String.le specs
      ∧ ms ≡ₚ elements ({["/r/package/a/x.m"]} : gset string)
      ∧ Sorted String.le ms
      ∧ merged ≡ₚ map (λ p, "+" +:+ to_rel world_malformed_config (of_string "/r") p)
                      (elements ({["/r/package/y.spec"]} : gset string))
                  ++ map (to_rel world_malformed_config (of_string "/r"))
                       (elements ({["/r/package/a/x.m"]} : gset string))
      ∧ Sorted String.le merged
      ∧ build_output_lines_flat id world_malformed_config
          {["/r/package/y.spec"]} {["/r/package/a/x.m"]} "spec-first" (of_string "/r") []
        = map (λ p, "+" +:+ to_rel world_malformed_config (of_string "/r") p) []
          ++ (if bool_decide ("spec-first" = "spec-first")
              then map (λ p, "+" +:+ to_rel world_malformed_config (of_string "/r") p) specs
                   ++ map (to_rel world_malformed_config (of_string "/r")) ms
              else merged).
Proof.
  split; [exact id_visits_once|].
  exact (flat_layout id world_malformed_config
           {["/r/package/y.spec"]} {["/r/package/a/x.m"]} "spec-first"
           (of_string "/r") [] id_visits_once).
Defined.

(** C5, counterexample: with the output in [package/b], the manifests
    [package/b/x.spec] and [package/c/y.spec] are listed as [+x.spec] and
    then [+../c/y.spec], in the order of their absolute paths; the entries
    themselves are not in alphabetical order. *)
Lemma spec_first_entries_not_alphabetical :
  build_output_lines_flat id world_malformed_config
    {["/r/package/b/x.spec"; "/r/package/c/y.spec"]} ∅ "spec-first"
    (of_string "/r/package/b") []
  = ["+x.spec"; "+../c/y.spec"]
  ∧ ¬ spec_first_alphabetical id world_malformed_config
        {["/r/package/b/x.spec"; "/r/package/c/y.spec"]} ∅
        (of_string "/r/package/b") [].
Proof.
  assert (build_output_lines_flat id world_malformed_config
            {["/r/package/b/x.spec"; "/r/package/c/y.spec"]} ∅ "spec-first"
            (of_string "/r/package/b") []
          = ["+x.spec"; "+../c/y.spec"]) as Hout by (by vm_compute).
  split; [exact Hout|].
  intros (specs & ms & Heq & _ & Hms & Hsorted & _).
  rewrite Hout in Heq. rewrite elements_empty in Hms.
  apply Permutation_nil_r in Hms as ->. rewrite app_nil_r in Heq.
  simpl in Heq. subst specs.
  apply Sorted_inv in Hsorted as [_ Hhd]. apply HdRel_inv in Hhd.
  by vm_compute in Hhd.
Qed.

(** the spec-first scenario: the manifest [package/y.spec] is listed before
    the source file [package/a/x.m] *)
Example flat_spec_first_scenario :
  build_output_lines_flat id world_malformed_config
    {["/r/package/y.spec"]} {["/r/package/a/x.m"]} "spec-first" (of_string "/r") []
  = ["+package/y.spec"; "package/a/x.m"].
Proof. by vm_compute. Qed.


(** ** Independence of the iteration order *)

Section Order.
Context (order : list string → list string) (W : World).
Hypothesis order_ok : visits_once order.

Lemma materialize_order repo_dir rel_paths explicit_set :
  materialize_and_classify order W repo_dir rel_paths explicit_set
  = materialize_and_classify id W repo_dir rel_paths explicit_set.
Proof using order_ok.
  unfold materialize_and_classify. by rewrite !sorted_iter by done.
Qed.

Lemma resolve_all_fold (l : list string) (acc : gset string) :
  fold_m l (λ acc p, q ← resolve W (of_string p); mret (acc ∪ {[as_posix q]})) acc
  = if decide (Forall (λ p, is_Some (resolved W p)) l)
    then mret (acc ∪ list_to_set (omap (resolved W) l))
    else raise "RuntimeError".
Proof using W.
  clear order order_ok.
  revert acc. induction l as [|p l IH]; intros acc.
  - destruct (decide _) as [_|H]; [|by destruct H].
    simpl. apply mret_eq. set_solver.
  - cbn [fold_m].
    destruct (fs_resolve W (as_posix (of_string p))) as [s|] eqn:E.
    + assert (resolve W (of_string p) = mret (of_string s)) as ->
        by (unfold resolve; by rewrite E).
      rewrite !ret_bind, IH.
      assert (resolved W p = Some (as_posix (of_string s))) as Hp.
      { unfold resolved. by rewrite E. }
      destruct (decide (Forall _ l)) as [Hl|Hl];
        destruct (decide (Forall _ (p :: l))) as [Hpl|Hpl].
      * cbn [omap list_omap]. rewrite Hp. apply mret_eq. set_solver.
      * destruct Hpl. constructor; [by rewrite Hp|done].
      * destruct Hl. by inversion Hpl.
      * done.
    + assert (resolve W (of_string p) = raise "RuntimeError") as ->
        by (unfold resolve; by rewrite E).
      destruct (decide (Forall _ (p :: l))) as [H|_]; [exfalso|reflexivity].
      inversion H as [|?? [x Hx] _]. unfold resolved in Hx. by rewrite E in Hx.
Qed.

Lemma resolve_all_order paths :
  resolve_all order W paths = resolve_all id W paths.
Proof using order_ok.
  unfold resolve_all. rewrite !resolve_all_fold.
  pose proof (iter_perm order paths order_ok) as Hp.
  change (iter id paths) with (elements paths).
  destruct (decide (Forall _ (iter order paths))) as [H1|H1];
    destruct (decide (Forall _ (elements paths))) as [H2|H2].
  - apply mret_eq. f_equal. by rewrite Hp.
  - destruct H2. by rewrite <- Hp.
  - destruct H1. by rewrite Hp.
  - done.
Qed.

Lemma flat_order abs_spec abs_m order_mode out_dir include_specs_abs :
  build_output_lines_flat order W abs_spec abs_m order_mode out_dir include_specs_abs
  = build_output_lines_flat id W abs_spec abs_m order_mode out_dir include_specs_abs.
Proof using order_ok.
  unfold build_output_lines_flat.
  destruct (bool_decide (order_mode = "spec-first")).
  - by rewrite !(sorted_iter order), !(sorted_iter id) by (done || exact id_visits_once).
  - f_equal. rewrite !sorted_by_snd_lines. apply sorted_perm.
    rewrite !map_app, !map_map. change (iter id ?s) with (elements s).
    change (map ?f ?l) with (f <$> l).
    by rewrite !(iter_perm order _ order_ok).
Qed.

(** *** Grouping by directory *)

Lemma names_in_perm out_dir dir l1 l2 :
  l1 ≡ₚ l2 → names_in W out_dir dir l1 ≡ₚ names_in W out_dir dir l2.
Proof. intros H. unfold names_in. by rewrite H. Qed.

Lemma names_in_cons out_dir dir p l :
  names_in W out_dir dir (p :: l) = names_in W out_dir dir [p] ++ names_in W out_dir dir l.
Proof.
  unfold names_in. cbn [fmap list_fmap mbind list_bind]. by rewrite app_nil_r.
Qed.

Lemma add_file_lookup out_dir d p dir :
  default [] (add_file W out_dir d p !! dir)
  = default [] (d !! dir) ++ names_in W out_dir dir [p].
Proof.
  unfold add_file, names_in. cbn [fmap list_fmap mbind list_bind].
  destruct (parent_and_name W out_dir p) as [parent name]. cbn [fst snd].
  destruct (decide (parent = dir)) as [->|Hne].
  - by rewrite lookup_insert_eq.
  - rewrite lookup_insert_ne by done. by rewrite app_nil_r.
Qed.

Lemma group_files_fold_lookup out_dir l d dir :
  default [] (fold_left (add_file W out_dir) l d !! dir)
  = default [] (d !! dir) ++ names_in W out_dir dir l.
Proof.
  revert d. induction l as [|p l IH]; intros d; simpl.
  - by rewrite app_nil_r.
  - by rewrite IH, add_file_lookup, <- app_assoc, <- names_in_cons.
Qed.

Lemma group_files_fold_dom out_dir l d :
  dom (fold_left (add_file W out_dir) l d)
  = dom d ∪ list_to_set ((λ p, (parent_and_name W out_dir p).1) <$> l).
Proof using W.
  clear order order_ok.
  revert d. induction l as [|p l IH]; intros d.
  - cbn. set_solver.
  - cbn [fold_left]. rewrite IH, fmap_cons, list_to_set_cons. unfold add_file.
    destruct (parent_and_name W out_dir p) as [parent name]. cbn [fst].
    rewrite dom_insert_L. set_solver.
Qed.

Lemma add_spec_lookup out_dir d p dir :
  default ∅ (add_spec W out_dir d p !! dir)
  = default ∅ (d !! dir) ∪ list_to_set (names_in W out_dir dir [p]).
Proof using W.
  clear order order_ok.
  unfold add_spec, names_in. cbn [fmap list_fmap mbind list_bind].
  destruct (parent_and_name W out_dir p) as [parent name]. cbn [fst snd].
  destruct (decide (parent = dir)) as [->|Hne].
  - rewrite lookup_insert_eq. simpl. set_solver.
  - rewrite lookup_insert_ne by done. set_solver.
Qed.

Lemma group_specs_fold_lookup out_dir l d dir :
  default ∅ (fold_left (add_spec W out_dir) l d !! dir)
  = default ∅ (d !! dir) ∪ list_to_set (names_in W out_dir dir l).
Proof using W.
  clear order order_ok.
  revert d. induction l as [|p l IH]; intros d; simpl.
  - set_solver.
  - rewrite IH, add_spec_lookup, (names_in_cons _ _ p l), list_to_set_app_L.
    by rewrite (assoc_L (∪)).
Qed.

Lemma group_specs_fold_dom out_dir l d :
  dom (fold_left (add_spec W out_dir) l d)
  = dom d ∪ list_to_set ((λ p, (parent_and_name W out_dir p).1) <$> l).
Proof using W.
  clear order order_ok.
  revert d. induction l as [|p l IH]; intros d.
  - cbn. set_solver.
  - cbn [fold_left]. rewrite IH, fmap_cons, list_to_set_cons. unfold add_spec.
    destruct (parent_and_name W out_dir p) as [parent name]. cbn [fst].
    rewrite dom_insert_L. set_solver.
Qed.

Lemma dir_entries_order indent out_dir abs_spec abs_m d :
  dir_entries order indent (group_files order W out_dir abs_m)
    (group_specs order W out_dir abs_spec) d
  = dir_entries id indent (group_files id W out_dir abs_m)
      (group_specs id W out_dir abs_spec) d.
Proof using order_ok.
  unfold dir_entries, group_files, group_specs.
  rewrite !group_files_fold_lookup, !group_specs_fold_lookup.
  rewrite !lookup_empty. simpl.
  rewrite (sorted_iter order) by done. rewrite (sorted_iter id) by exact id_visits_once.
  rewrite !union_empty_l_L. change (iter id ?s) with (elements s).
  f_equal; f_equal.
  - apply sorted_perm, names_in_perm, iter_perm, order_ok.
  - f_equal. f_equal. apply list_to_set_perm_L, names_in_perm, iter_perm, order_ok.
Qed.

Lemma all_dirs_order out_dir abs_spec abs_m :
  all_dirs_of order (group_files order W out_dir abs_m)
    (group_specs order W out_dir abs_spec)
  = all_dirs_of id (group_files id W out_dir abs_m) (group_specs id W out_dir abs_spec).
Proof using order_ok.
  unfold all_dirs_of, group_files, group_specs.
  rewrite !group_files_fold_dom, !group_specs_fold_dom.
  rewrite (sorted_iter order) by done. rewrite (sorted_iter id) by exact id_visits_once.
  change (iter id ?s) with (elements s).
  change (map ?f ?l) with (f <$> l).
  by rewrite !(iter_perm order _ order_ok).
Qed.

Lemma curly_order abs_spec abs_m out_dir include_specs_abs :
  build_output_lines_curly order W abs_spec abs_m out_dir include_specs_abs
  = build_output_lines_curly id W abs_spec abs_m out_dir include_specs_abs.
Proof using order_ok.
  unfold build_output_lines_curly. cbv zeta.
  rewrite all_dirs_order.
  assert (∀ l,
    flat_map (fallback_dir order (group_files order W out_dir abs_m)
                (group_specs order W out_dir abs_spec)) l
    = flat_map (fallback_dir id (group_files id W out_dir abs_m)
                  (group_specs id W out_dir abs_spec)) l) as ->.
  { intros l. apply flat_map_ext. intros d. unfold fallback_dir.
    by rewrite dir_entries_order. }
  destruct (find_common_dir _) as [common_dir|]; [|done].
  destruct (Str.nonempty common_dir); [|done].
  assert (∀ l,
    flat_map (nested_subdir order common_dir (group_files order W out_dir abs_m)
                (group_specs order W out_dir abs_spec)) l
    = flat_map (nested_subdir id common_dir (group_files id W out_dir abs_m)
                  (group_specs id W out_dir abs_spec)) l) as ->.
  { intros l. apply flat_map_ext. intros d. unfold nested_subdir.
    by rewrite dir_entries_order. }
  by rewrite dir_entries_order.
Qed.

End Order.

Lemma bind_ext {A B} (m : M A) (f g : A → M B) :
  (∀ a, f a = g a) → m ≫= f = m ≫= g.
Proof.
  intros H. destruct m as [t [a|c|e]]; try done.
  unfold mbind, M_bind. by rewrite H.
Qed.

Lemma main_order order W args :
  visits_once order → main order W args = main id W args.
Proof.
  intros Hord. unfold main.
  repeat first
    [ reflexivity
    | rewrite (materialize_order order W Hord)
    | rewrite (resolve_all_order order W Hord)
    | rewrite (flat_order order W Hord)
    | rewrite (curly_order order W Hord)
    | apply bind_ext; intros
    | lazymatch goal with
      | |- (let '(_, _) := ?x in _) = _ => destruct x
      end
    | progress cbv zeta ].
Qed.

(** C8: the whole run, everything it prints and the content it writes to
    the manifest included, is the same whatever the order in which its
    sets are iterated: it is a function of the configuration, the answers
    of git and the working tree. *)
Theorem run_independent_of_set_order order1 order2 W args :
  visits_once order1 → visits_once order2 →
  main order1 W args = main order2 W args.
Proof.
  intros H1 H2. by rewrite (main_order order1), (main_order order2).
Qed.

Lemma reverse_visits_once : visits_once reverse.
Proof. intros l. apply reverse_Permutation. Qed.

Lemma run_independent_of_set_order_witness :
  visits_once id ∧ visits_once reverse
  ∧ main id world_bad_range example_args = main reverse world_bad_range example_args.
Proof.
  split; [exact id_visits_once|]. split; [exact reverse_visits_once|].
  exact (run_independent_of_set_order id reverse world_bad_range example_args
           id_visits_once reverse_visits_once).
Defined.

(** ** Facts about strings *)

Lemma app_cons a s t : String a s +:+ t = String a (s +:+ t).
Proof. reflexivity. Qed.
Lemma app_empty_l t : "" +:+ t = t.
Proof. reflexivity. Qed.
Lemma app_empty_r s : s +:+ "" = s.
Proof. induction s as [|a s IH]; [done|]. by rewrite app_cons, IH. Qed.
Lemma str_app_assoc s t u : (s +:+ t) +:+ u = s +:+ (t +:+ u).
Proof. induction s as [|a s IH]; [done|]. by rewrite !app_cons, IH. Qed.
Lemma app_empty_inv s t : s +:+ t = "" → s = "" ∧ t = "".
Proof. destruct s; [done|]. by rewrite app_cons. Qed.

Lemma str_prefix_empty s : String.prefix "" s = true.
Proof. by destruct s. Qed.
Lemma str_prefix_cons a b s t :
  String.prefix (String a s) (String b t) = bool_decide (a = b) && String.prefix s t.
Proof.
  simpl. destruct (ascii_dec a b) as [->|Hne].
  - by rewrite bool_decide_true.
  - by rewrite bool_decide_false.
Qed.
Lemma str_prefix_app s t : String.prefix s (s +:+ t) = true.
Proof.
  induction s as [|a s IH]; [apply str_prefix_empty|].
  by rewrite app_cons, str_prefix_cons, bool_decide_true, IH.
Qed.
Lemma str_prefix_inv s u : String.prefix s u = true → ∃ t, u = s +:+ t.
Proof.
  revert u. induction s as [|a s IH]; intros u H; [by exists u|].
  destruct u as [|b u]; [done|].
  rewrite str_prefix_cons in H. apply andb_true_iff in H as [Hab Hs].
  apply bool_decide_eq_true in Hab as ->.
  destruct (IH u Hs) as [t ->]. by exists t.
Qed.
Lemma str_prefix_app_inv s t u :
  String.prefix (s +:+ t) u = true → String.prefix s u = true.
Proof.
  intros [v ->]%str_prefix_inv. rewrite str_app_assoc. apply str_prefix_app.
Qed.

Lemma drop_app s t : Str.drop (String.length s) (s +:+ t) = t.
Proof. induction s as [|a s IH]; [by destruct t|]. exact IH. Qed.

Lemma split_cons c s : ∃ x r, Str.split c s = x :: r.
Proof.
  destruct s as [|a s]; simpl; [eauto|].
  destruct (Ascii.eqb a c); [eauto|]. destruct (Str.split c s); eauto.
Qed.

Lemma split_app_sep c s1 s2 :
  Str.split c (s1 +:+ String c s2) = Str.split c s1 ++ Str.split c s2.
Proof.
  induction s1 as [|a s1 IH].
  - rewrite app_empty_l. simpl. by rewrite Ascii.eqb_refl.
  - rewrite app_cons. simpl. rewrite IH.
    destruct (Ascii.eqb a c); [done|].
    by destruct (split_cons c s1) as (x & r & ->).
Qed.

Lemma split_has_char c s : Forall (λ x, has_char c x = false) (Str.split c s).
Proof.
  induction s as [|a s IH]; simpl; [by repeat constructor|].
  destruct (Ascii.eqb a c) eqn:E; [by constructor|].
  destruct (Str.split c s) as [|x r]; [by repeat constructor; simpl; rewrite E|].
  inversion IH as [|?? Hx Hr]. constructor; [|done]. simpl. by rewrite E.
Qed.

Lemma split_no_char c s : has_char c s = false → Str.split c s = [s].
Proof.
  induction s as [|a s IH]; simpl; [done|].
  intros [Ha Hs]%orb_false_iff. by rewrite Ha, (IH Hs).
Qed.

Lemma join_cons sep p q r :
  Str.join sep (p :: q :: r) = p +:+ sep +:+ Str.join sep (q :: r).
Proof. reflexivity. Qed.

Lemma split_join c ps :
  ps ≠ [] → Forall (λ p, has_char c p = false) ps →
  Str.split c (Str.join (String c "") ps) = ps.
Proof.
  induction ps as [|p [|q r] IH]; intros Hne Hps; [done| |].
  - inversion Hps. by apply split_no_char.
  - inversion Hps as [|?? Hp Hqr]. rewrite join_cons.
    change (String c "" +:+ ?s) with (String c s).
    rewrite split_app_sep, (split_no_char c p Hp), IH by done. done.
Qed.

Lemma has_char_app c s t : has_char c (s +:+ t) = has_char c s || has_char c t.
Proof.
  induction s as [|a s IH]; [done|].
  rewrite app_cons. simpl. by rewrite IH, orb_assoc.
Qed.

Lemma rstrip_no_char c s :
  s ≠ "" → has_char c s = false → Str.rstrip c s = s.
Proof.
  unfold Str.rstrip. induction s as [|a s IH]; intros Hne H; [done|].
  simpl in H. apply orb_false_iff in H as [Ha Hs]. simpl.
  destruct s as [|b s'].
  - simpl. rewrite Ascii.eqb_sym. by rewrite Ha.
  - by rewrite IH.
Qed.

Lemma rstrip_app c s t :
  Str.rstrip c t ≠ "" → Str.rstrip c (s +:+ t) = s +:+ Str.rstrip c t.
Proof.
  unfold Str.rstrip. intros Ht. induction s as [|a s IH]; [done|].
  rewrite !app_cons. simpl. rewrite IH.
  destruct (s +:+ Str.rstrip_with (Ascii.eqb c) t) eqn:E; [|done].
  by apply app_empty_inv in E as [_ ?].
Qed.

(** ** Facts about paths *)

Lemma keep_component_true c :
  OsPath.keep_component c = true ↔ c ≠ "" ∧ c ≠ ".".
Proof.
  unfold OsPath.keep_component.
  rewrite andb_true_iff, !negb_true_iff, !bool_decide_eq_false. tauto.
Qed.

Lemma kept_parts_good s :
  Forall good_part (filter (λ c, OsPath.keep_component c = true) (Str.split "/" s)).
Proof.
  apply Forall_forall. intros x [Hk Hx]%list_elem_of_filter.
  apply keep_component_true in Hk as [Hne Hdot].
  pose proof (split_has_char "/" s) as Hall. rewrite Forall_forall in Hall.
  repeat split; auto.
Qed.

Lemma filter_keep_good ps :
  Forall good_part ps → filter (λ c, OsPath.keep_component c = true) ps = ps.
Proof.
  induction 1 as [|p ps (? & ? & ?) _ IH]; [done|].
  rewrite filter_cons_True by (by apply keep_component_true). by rewrite IH.
Qed.

Lemma initial_slashes_cases s :
  OsPath.initial_slashes s = 0%nat ∨ OsPath.initial_slashes s = 1%nat
  ∨ OsPath.initial_slashes s = 2%nat.
Proof.
  unfold OsPath.initial_slashes.
  destruct (Str.startswith s "/"); [|auto].
  destruct (_ && _); auto.
Qed.

Lemma of_string_wf s : wf_path (of_string s).
Proof.
  split; [|apply kept_parts_good].
  unfold of_string. simpl.
  destruct (initial_slashes_cases s) as [->|[->| ->]]; auto.
Qed.

Lemma parent_wf p : wf_path p → wf_path (parent p).
Proof.
  intros [Hr Hp]. split; [done|]. simpl.
  apply Forall_forall. intros x Hx. rewrite Forall_forall in Hp. apply Hp.
  destruct (parts p) as [|a l] using rev_ind; [done|].
  rewrite removelast_last in Hx. apply elem_of_app. by left.
Qed.

Lemma joinpath_wf p q : wf_path p → wf_path q → wf_path (p // q).
Proof.
  intros [Hr Hp] [Hr' Hq]. unfold joinpath.
  destruct (is_absolute q); [done|].
  split; [done|]. simpl. by apply Forall_app.
Qed.

(** a sequence of components, joined, starts with a character other than
    the separator *)
Lemma join_good_head ps :
  ps ≠ [] → Forall good_part ps →
  ∃ a s, Str.join "/" ps = String a s ∧ a ≠ "/"%char.
Proof.
  intros Hne Hps. destruct ps as [|p ps]; [done|].
  inversion Hps as [|?? (Hp & _ & Hc) _].
  destruct p as [|a p']; [done|]. simpl in Hc.
  apply orb_false_iff in Hc as [Ha _].
  exists a. destruct ps as [|q r].
  - exists p'. split; [done|]. intros ->. by rewrite Ascii.eqb_refl in Ha.
  - eexists. rewrite join_cons, app_cons. split; [done|].
    intros ->. by rewrite Ascii.eqb_refl in Ha.
Qed.

Lemma join_good_has_last ps :
  ps ≠ [] → Forall good_part ps → Str.rstrip "/" (Str.join "/" ps) = Str.join "/" ps.
Proof.
  induction ps as [|p [|q r] IH]; intros Hne Hps; [done| |].
  - inversion Hps as [|?? (Hp & _ & Hc) _]. by apply rstrip_no_char.
  - inversion Hps as [|?? _ Hqr]. rewrite join_cons.
    rewrite <- str_app_assoc. rewrite rstrip_app; rewrite IH by done; [done|].
    destruct (join_good_head (q :: r)) as (a & s & -> & _); done.
Qed.

Lemma startswith_slash s :
  Str.startswith s "/" = match s with String a _ => bool_decide (a = "/"%char) | "" => false end.
Proof.
  unfold Str.startswith. destruct s as [|a s]; [done|].
  rewrite str_prefix_cons, str_prefix_empty, andb_true_r.
  apply bool_decide_ext. split; by intros ->.
Qed.

Lemma of_string_join ps :
  ps ≠ [] → Forall good_part ps →
  of_string (Str.join "/" ps) = {| root := ""; parts := ps |}.
Proof.
  intros Hne Hps. unfold of_string.
  rewrite split_join; [|done|].
  2:{ eapply Forall_impl; [done|]. by intros ? (_ & _ & ?). }
  rewrite filter_keep_good by done.
  destruct (join_good_head ps Hne Hps) as (a & s & -> & Ha).
  unfold OsPath.initial_slashes. rewrite startswith_slash.
  by rewrite bool_decide_false.
Qed.

Lemma as_posix_relative p :
  root p = "" → parts p ≠ [] → as_posix p = Str.join "/" (parts p).
Proof.
  unfold as_posix. intros ->. by destruct (parts p).
Qed.

Lemma of_string_as_posix p : wf_path p → of_string (as_posix p) = p.
Proof.
  destruct p as [r ps]. intros [Hr Hps]. simpl in *.
  destruct (decide (ps = [])) as [->|Hne].
  - by destruct Hr as [->|[->| ->]].
  - destruct (join_good_head ps Hne Hps) as (a & s & Hj & Ha).
    assert (OsPath.initial_slashes (String a s) = 0%nat) as H0.
    { unfold OsPath.initial_slashes. rewrite startswith_slash.
      by rewrite bool_decide_false. }
    assert (filter (λ c, OsPath.keep_component c = true) (Str.split "/" (Str.join "/" ps))
            = ps) as Hparts.
    { rewrite split_join; [by apply filter_keep_good|done|].
      eapply Forall_impl; [done|]. by intros ? (_ & _ & ?). }
    destruct Hr as [->|[->| ->]]; unfold as_posix, of_string; cbn [root parts].
    + destruct ps as [|p ps']; [done|]. rewrite app_empty_l.
      rewrite Hparts. by rewrite Hj, H0.
    + f_equal.
      * rewrite Hj. unfold OsPath.initial_slashes, Str.startswith.
        rewrite !app_cons, !app_empty_l, !str_prefix_cons, !str_prefix_empty.
        by rewrite bool_decide_true, (bool_decide_false (_ = a)) by done.
      * change ("/" +:+ ?s) with (String "/" s). simpl Str.split.
        by rewrite filter_cons_False, Hparts by (by vm_compute).
    + f_equal.
      * rewrite Hj. unfold OsPath.initial_slashes, Str.startswith.
        rewrite !app_cons, !app_empty_l, !str_prefix_cons, !str_prefix_empty.
        by rewrite !bool_decide_true, (bool_decide_false (_ = a)) by done.
      * change ("//" +:+ ?s) with (String "/" (String "/" s)). simpl Str.split.
        by rewrite !filter_cons_False, Hparts by (by vm_compute).
Qed.

(** *** [normpath] and [relpath] *)

Lemma good_plain p : good_part p → plain_part p.
Proof. by intros (? & _ & ?). Qed.

Lemma join_plain_head ps :
  ps ≠ [] → Forall plain_part ps →
  ∃ a s, Str.join "/" ps = String a s ∧ a ≠ "/"%char.
Proof.
  intros Hne Hps. destruct ps as [|p ps]; [done|].
  inversion Hps as [|?? (Hp & Hc) _].
  destruct p as [|a p']; [done|]. simpl in Hc.
  apply orb_false_iff in Hc as [Ha _].
  exists a. destruct ps as [|q r].
  - exists p'. split; [done|]. intros ->. by rewrite Ascii.eqb_refl in Ha.
  - eexists. rewrite join_cons, app_cons. split; [done|].
    intros ->. by rewrite Ascii.eqb_refl in Ha.
Qed.

Lemma split_join_plain ps :
  ps ≠ [] → Forall plain_part ps → Str.split "/" (Str.join "/" ps) = ps.
Proof.
  intros Hne Hps. apply split_join; [done|].
  eapply Forall_impl; [done|]. by intros ? [_ ?].
Qed.

Lemma normpath_step_plain slashes acc comp :
  has_char "/" comp = false → Forall plain_part acc →
  Forall plain_part (OsPath.normpath_step slashes acc comp).
Proof.
  intros Hc Hacc. unfold OsPath.normpath_step.
  destruct (bool_decide (comp = "")) eqn:E; [done|].
  apply bool_decide_eq_false in E. simpl.
  destruct (bool_decide (comp = ".")); [done|]. simpl.
  destruct (_ || _ || _).
  - by constructor.
  - destruct Hacc; [done|]. done.
Qed.

Lemma normpath_comps_plain slashes l acc :
  Forall (λ c, has_char "/" c = false) l → Forall plain_part acc →
  Forall plain_part (fold_left (OsPath.normpath_step slashes) l acc).
Proof.
  intros Hl. revert acc. induction Hl as [|c l Hc _ IH]; intros acc Hacc; [done|].
  simpl. by apply IH, normpath_step_plain.
Qed.

Lemma lstrip_head a s : a ≠ "/"%char → Str.lstrip "/" (String a s) = String a s.
Proof.
  intros Ha. unfold Str.lstrip.
  change (Str.lstrip_with (Ascii.eqb "/") (String a s))
    with (if Ascii.eqb "/" a then Str.lstrip_with (Ascii.eqb "/") s else String a s).
  destruct (Ascii.eqb_spec "/" a) as [E|_]; [congruence|done].
Qed.

(** the components of a normalised path, its leading slashes removed *)
Lemma normpath_components path :
  Forall plain_part (OsPath.components (Str.lstrip "/" (OsPath.normpath path))).
Proof.
  unfold OsPath.normpath. destruct path as [|a0 path0] eqn:Epath.
  { by repeat constructor. }
  rewrite <- Epath. clear Epath a0 path0.
  set (comps := rev (fold_left _ _ _)).
  assert (Forall plain_part comps) as Hcomps.
  { subst comps. apply Forall_rev.
    apply normpath_comps_plain; [apply split_has_char|constructor]. }
  destruct (decide (comps = [])) as [->|Hne].
  - destruct (initial_slashes_cases path) as [->|[->| ->]]; by repeat constructor.
  - destruct (join_plain_head comps Hne Hcomps) as (a & s & Hj & Ha).
    assert (OsPath.components (String a s) = comps) as Hc.
    { unfold OsPath.components. by rewrite <- Hj, split_join_plain. }
    destruct (initial_slashes_cases path) as [->|[->| ->]]; rewrite Hj.
    + by rewrite lstrip_head, Hc.
    + change ("/" +:+ String a s) with (String "/" (String a s)). cbv beta iota.
      change (Str.lstrip "/" (String "/" (String a s)))
        with (Str.lstrip "/" (String a s)).
      by rewrite lstrip_head, Hc.
    + change ("//" +:+ String a s) with (String "/" (String "/" (String a s))).
      cbv beta iota.
      change (Str.lstrip "/" (String "/" (String "/" (String a s))))
        with (Str.lstrip "/" (String a s)).
      by rewrite lstrip_head, Hc.
Qed.

Lemma abspath_components cwd path :
  Forall plain_part (OsPath.components (Str.lstrip "/" (OsPath.abspath cwd path))).
Proof. unfold OsPath.abspath. destruct (OsPath.isabs path); apply normpath_components. Qed.

(** [relpath] never returns an absolute path *)
Lemma relpath_relative cwd path start :
  root (of_string (OsPath.relpath cwd path start)) = "".
Proof.
  unfold OsPath.relpath.
  set (start_list := OsPath.components _).
  set (path_list := OsPath.components _).
  set (rel_list := _ ++ _).
  assert (Forall plain_part rel_list) as Hrel.
  { subst rel_list. apply Forall_app. split.
    - apply Forall_replicate. by split.
    - apply Forall_drop, abspath_components. }
  destruct rel_list as [|x l] eqn:E; [done|].
  destruct (join_plain_head (x :: l)) as (a & s & -> & Ha); [done..|].
  unfold of_string, OsPath.initial_slashes. cbn [root].
  by rewrite startswith_slash, bool_decide_false.
Qed.

(** ** The grouped layout *)

Lemma normal_dir_not_dot d : normal_dir d → d ≠ ".".
Proof.
  intros (ps & Hne & Hps & ->) Hdot.
  assert (Str.split "/" (Str.join "/" ps) = ps) as Hs.
  { apply split_join_plain; [done|]. eapply Forall_impl; [done|apply good_plain]. }
  rewrite Hdot in Hs. simpl in Hs. subst ps.
  inversion Hps as [|?? (_ & Hd & _) _]. done.
Qed.

Lemma normal_dir_nonempty d : normal_dir d → Str.nonempty d = true.
Proof.
  intros (ps & Hne & Hps & ->).
  destruct (join_good_head ps Hne Hps) as (a & s & -> & _). done.
Qed.

Lemma normal_dir_relative d : normal_dir d → OsPath.isabs d = false.
Proof.
  intros (ps & Hne & Hps & ->).
  destruct (join_good_head ps Hne Hps) as (a & s & -> & Ha).
  unfold OsPath.isabs. by rewrite startswith_slash, bool_decide_false.
Qed.

Lemma normal_dir_parts ps :
  ps ≠ [] → Forall good_part ps →
  filter (λ c, OsPath.keep_component c = true) (Str.split "/" (Str.join "/" ps)) = ps.
Proof.
  intros Hne Hps. rewrite split_join_plain; [by apply filter_keep_good|done|].
  eapply Forall_impl; [done|apply good_plain].
Qed.

Lemma parent_dir_cases W out_dir p :
  (parent_and_name W out_dir p).1 = "."
  ∨ normal_dir (parent_and_name W out_dir p).1.
Proof.
  unfold parent_and_name, to_rel, relpath_posix. cbn [fst].
  rewrite of_string_as_posix by apply of_string_wf.
  set (R := of_string _).
  assert (root R = "") as Hroot by apply relpath_relative.
  assert (wf_path (parent R)) as [_ Hparts] by apply parent_wf, of_string_wf.
  unfold as_posix. cbn [root parent] in *. rewrite Hroot.
  destruct (parts (parent R)) as [|x l] eqn:E; [by left|].
  right. exists (x :: l). by rewrite app_empty_l.
Qed.

Section Directories.
Context (order : list string → list string) (W : World).
Hypothesis order_ok : visits_once order.
Context (abs_spec abs_m : gset string) (out_dir : Path).

Lemma elem_of_sorted x l : x ∈ sorted l ↔ x ∈ l.
Proof. by rewrite sorted_Permutation. Qed.

Lemma elem_of_iter x s : x ∈ iter order s ↔ x ∈ s.
Proof using order_ok. rewrite (iter_perm order s order_ok). apply elem_of_elements. Qed.

Lemma all_dirs_elem d :
  d ∈ all_dirs_of order (group_files order W out_dir abs_m)
        (group_specs order W out_dir abs_spec) →
  d = "" ∨ normal_dir d.
Proof using order_ok.
  unfold all_dirs_of. rewrite elem_of_sorted, elem_of_iter, elem_of_list_to_set.
  change (map ?f ?l) with (f <$> l).
  intros (d0 & -> & Hd0)%list_elem_of_fmap.
  apply elem_of_iter in Hd0. unfold group_files, group_specs in Hd0.
  rewrite group_files_fold_dom, group_specs_fold_dom, !dom_empty_L in Hd0.
  assert (∃ p, d0 = (parent_and_name W out_dir p).1) as [p ->].
  { apply elem_of_union in Hd0 as [Hd0|Hd0];
      apply elem_of_union in Hd0 as [Hd0|Hd0]; try by apply elem_of_empty in Hd0.
    all: apply elem_of_list_to_set, list_elem_of_fmap in Hd0 as (p & -> & _); eauto. }
  destruct (parent_dir_cases W out_dir p) as [->|Hn]; [by left|].
  right. by rewrite bool_decide_false by by apply normal_dir_not_dot.
Qed.

Lemma directories_normal d :
  d ∈ directories order W abs_spec abs_m out_dir → normal_dir d.
Proof using order_ok.
  unfold directories. intros [Hne Hd]%list_elem_of_filter.
  destruct (all_dirs_elem d Hd) as [->|?]; done.
Qed.

End Directories.

(** *** The common directory *)

Lemma common_prefix_l l1 l2 : OsPath.common_prefix l1 l2 `prefix_of` l1.
Proof.
  revert l2. induction l1 as [|x l1 IH]; intros [|y l2]; simpl;
    try apply prefix_nil.
  case_bool_decide; [|apply prefix_nil]. by apply prefix_cons.
Qed.

Lemma common_prefix_r l1 l2 : OsPath.common_prefix l1 l2 `prefix_of` l2.
Proof.
  revert l2. induction l1 as [|x l1 IH]; intros [|y l2]; simpl;
    try apply prefix_nil.
  case_bool_decide as E; [|apply prefix_nil]. subst. by apply prefix_cons.
Qed.

Lemma common_prefix_greatest q l1 l2 :
  q `prefix_of` l1 → q `prefix_of` l2 → q `prefix_of` OsPath.common_prefix l1 l2.
Proof.
  revert l1 l2. induction q as [|x q IH]; intros l1 l2 H1 H2; [apply prefix_nil|].
  destruct H1 as [k1 ->], H2 as [k2 ->]. simpl.
  rewrite bool_decide_true by done. apply prefix_cons, IH; by eexists.
Qed.

Lemma fold_common_prefix_prefix ss s x :
  x ∈ s :: ss → fold_left OsPath.common_prefix ss s `prefix_of` x.
Proof.
  revert s x. induction ss as [|y ss IH]; intros s x Hx; simpl.
  - by apply list_elem_of_singleton in Hx as ->.
  - apply elem_of_cons in Hx as [->|Hx].
    + etrans; [apply IH; by left|apply common_prefix_l].
    + apply elem_of_cons in Hx as [->|Hx].
      * etrans; [apply IH; by left|apply common_prefix_r].
      * apply IH. by right.
Qed.

Lemma fold_common_prefix_greatest q ss s :
  (∀ x, x ∈ s :: ss → q `prefix_of` x) →
  q `prefix_of` fold_left OsPath.common_prefix ss s.
Proof.
  revert s. induction ss as [|y ss IH]; intros s Hq; simpl.
  - apply Hq. by left.
  - apply IH. intros x [->|Hx]%elem_of_cons.
    + apply common_prefix_greatest; apply Hq; [by left|by right; left].
    + apply Hq. by do 2 right.
Qed.

Lemma join_app sep (l r : list string) :
  l ≠ [] → r ≠ [] →
  Str.join sep (l ++ r) = Str.join sep l +:+ sep +:+ Str.join sep r.
Proof.
  intros Hl Hr. induction l as [|p [|q l'] IH]; [done| |].
  - destruct r; [done|]. apply join_cons.
  - change ((p :: q :: l') ++ r) with (p :: q :: (l' ++ r)).
    rewrite !join_cons.
    change (q :: l' ++ r) with ((q :: l') ++ r). rewrite IH by done.
    by rewrite !str_app_assoc.
Qed.

Lemma commonpath_normal d dirs :
  Forall normal_dir (d :: dirs) →
  OsPath.commonpath (d :: dirs)
  = Some (Str.join "/" (fold_left OsPath.common_prefix (dir_parts <$> dirs) (dir_parts d))).
Proof.
  intros Hn. unfold OsPath.commonpath.
  inversion Hn as [|?? Hd Hdirs].
  rewrite (normal_dir_relative d Hd).
  assert (forallb (λ q, bool_decide (OsPath.isabs q = false)) dirs = true) as ->.
  { apply forallb_forall. intros q Hq%list_elem_of_In.
    rewrite Forall_forall in Hdirs.
    by rewrite (normal_dir_relative q (Hdirs q Hq)), bool_decide_true. }
  by rewrite app_empty_l.
Qed.

(** Directories that are all [c] or below [c] have a common path; each of
    them is that path or is below it, and [find_common_dir] finds it. *)
Lemma shared_ancestor_found all_dirs c :
  let dirs := filter (λ d, Str.nonempty d = true) all_dirs in
  Forall normal_dir dirs →
  (1 < length dirs)%nat →
  (∀ d, d ∈ dirs → d = c ∨ Str.startswith d (c +:+ "/") = true) →
  ∃ L, L ≠ [] ∧ Forall good_part L
       ∧ OsPath.commonpath dirs = Some (Str.join "/" L)
       ∧ find_common_dir all_dirs = Some (Str.join "/" L)
       ∧ ∀ d, d ∈ dirs →
           d = Str.join "/" L
           ∨ ∃ R, R ≠ [] ∧ Forall good_part R
                  ∧ d = Str.join "/" L +:+ "/" +:+ Str.join "/" R.
Proof.
  intros dirs Hn Hlen Hc.
  destruct dirs as [|d0 rest] eqn:Edirs; [simpl in Hlen; lia|].
  set (L := fold_left OsPath.common_prefix (dir_parts <$> rest) (dir_parts d0)).
  (* the components of [c] start the components of every directory *)
  assert (∀ d, d ∈ d0 :: rest → Str.split "/" c `prefix_of` dir_parts d) as Hq.
  { intros d Hd. rewrite Forall_forall in Hn.
    destruct (Hn d Hd) as (ps & Hne & Hps & ->).
    unfold dir_parts. rewrite normal_dir_parts by done.
    destruct (Hc _ Hd) as [Heq|Hpre].
    - rewrite <- Heq. rewrite split_join_plain; [done..|].
      eapply Forall_impl; [done|apply good_plain].
    - apply str_prefix_inv in Hpre as [t Ht].
      assert (Str.split "/" (Str.join "/" ps) = ps) as Hs.
      { apply split_join_plain; [done|]. eapply Forall_impl; [done|apply good_plain]. }
      rewrite Ht, str_app_assoc in Hs.
      change ("/" +:+ t) with (String "/" t) in Hs.
      rewrite split_app_sep in Hs. by eexists. }
  assert (∀ d, d ∈ d0 :: rest → L `prefix_of` dir_parts d) as HL.
  { intros d Hd. apply fold_common_prefix_prefix.
    apply elem_of_cons in Hd as [->|Hd]; [by left|].
    right. by apply list_elem_of_fmap_2. }
  assert (L ≠ []) as HLne.
  { assert (Str.split "/" c `prefix_of` L) as [k Hk].
    { apply fold_common_prefix_greatest.
      intros x [->|(d & -> & Hd)%list_elem_of_fmap]%elem_of_cons; apply Hq;
        [by left|by right]. }
    destruct (split_cons "/" c) as (x & r & Hx). rewrite Hx in Hk. by rewrite Hk. }
  assert (Forall good_part L) as HLgood.
  { rewrite Forall_forall in Hn.
    destruct (Hn d0) as (ps & Hne & Hps & Hd0); [by left|].
    destruct (HL d0) as [k Hk]; [by left|].
    unfold dir_parts in Hk. rewrite Hd0, normal_dir_parts in Hk by done.
    rewrite Hk in Hps. by apply Forall_app in Hps as [? _]. }
  assert (∀ d, d ∈ d0 :: rest →
            d = Str.join "/" L
            ∨ ∃ R, R ≠ [] ∧ Forall good_part R
                   ∧ d = Str.join "/" L +:+ "/" +:+ Str.join "/" R) as Hshape.
  { intros d Hd. rewrite Forall_forall in Hn.
    destruct (Hn d Hd) as (ps & Hne & Hps & ->).
    destruct (HL _ Hd) as [R HR].
    unfold dir_parts in HR. rewrite normal_dir_parts in HR by done. subst ps.
    apply Forall_app in Hps as [_ HRgood].
    destruct R as [|r R']; [left; by rewrite app_nil_r|].
    right. exists (r :: R'). split; [done|]. split; [done|].
    by apply join_app. }
  exists L. split; [done|]. split; [done|].
  assert (OsPath.commonpath (d0 :: rest) = Some (Str.join "/" L)) as Hcp
    by by apply commonpath_normal.
  split; [done|]. split; [|done].
  unfold find_common_dir. fold dirs. rewrite Edirs.
  rewrite bool_decide_true by done. rewrite Hcp.
  destruct (join_good_head L HLne HLgood) as (a & s & Hj & Ha).
  rewrite (join_good_has_last L HLne HLgood).
  assert (Str.nonempty (Str.join "/" L) = true) as -> by by rewrite Hj.
  rewrite bool_decide_false.
  2:{ apply normal_dir_not_dot. by exists L. }
  assert (forallb
            (λ d, bool_decide (d = Str.join "/" L)
                  || Str.startswith d (Str.join "/" L +:+ "/")) (d0 :: rest) = true)
    as ->; [|done].
  apply forallb_forall. intros d Hd%list_elem_of_In.
  destruct (Hshape d Hd) as [->|(R & _ & _ & ->)].
  - by rewrite bool_decide_true.
  - apply orb_true_iff. right. unfold Str.startswith.
    rewrite <- str_app_assoc. apply str_prefix_app.
Qed.

Lemma flat_map_filter {A B} (f g : A → list B) (P : A → Prop)
    `{∀ x, Decision (P x)} (l : list A) :
  (∀ x, x ∈ l → f x = if decide (P x) then g x else []) →
  flat_map f l = flat_map g (filter P l).
Proof.
  induction l as [|x l IH]; intros Hf; [done|].
  simpl. rewrite (Hf x) by by left. rewrite IH by (intros; apply Hf; by right).
  destruct (decide (P x)).
  - by rewrite filter_cons_True.
  - by rewrite filter_cons_False.
Qed.

Lemma dir_entries_canonical order W abs_spec abs_m out_dir indent d :
  visits_once order →
  dir_entries order indent (group_files order W out_dir abs_m)
    (group_specs order W out_dir abs_spec) d
  = block_entries W abs_spec abs_m out_dir indent d.
Proof.
  intros Hord. unfold dir_entries, block_entries, group_files, group_specs.
  rewrite group_files_fold_lookup, group_specs_fold_lookup, !lookup_empty.
  simpl. rewrite (sorted_iter order) by done. rewrite union_empty_l_L.
  f_equal; f_equal.
  - apply sorted_perm, names_in_perm, iter_perm, Hord.
  - f_equal. f_equal. apply list_to_set_perm_L, names_in_perm, iter_perm, Hord.
Qed.

Lemma directories_NoDup order W abs_spec abs_m out_dir :
  visits_once order → NoDup (directories order W abs_spec abs_m out_dir).
Proof.
  intros Hord. unfold directories, all_dirs_of.
  apply NoDup_filter.
  rewrite sorted_Permutation, (iter_perm order _ Hord). apply NoDup_elements.
Qed.

(** C4: in grouped mode, when there is more than one non-root directory
    and every one of them is some directory [c] or lies below it, the
    output after the forced entries is one block.  Its header is the
    common path of the directories, followed by a slash; then come the
    entries of that directory itself, indented by two spaces; then, for
    every other directory in sorted order, a sub-block whose header is the
    rest of its path indented by two spaces and whose entries are indented
    by four; then the closing brace.  The entries of a directory are the
    base names of its source files, sorted, and then of its manifests,
    sorted, each with a [+]. *)
Theorem curly_nested_block order W abs_spec abs_m out_dir include_specs_abs c :
  visits_once order →
  (1 < length (directories order W abs_spec abs_m out_dir))%nat →
  forallb (λ d, bool_decide (d = c) || Str.startswith d (c +:+ "/"))
          (directories order W abs_spec abs_m out_dir) = true →
  ∃ common_dir,
    OsPath.commonpath (directories order W abs_spec abs_m out_dir) = Some common_dir
    ∧ common_dir ≠ ""
    ∧ NoDup (directories order W abs_spec abs_m out_dir)
    ∧ (∀ d, d ∈ directories order W abs_spec abs_m out_dir →
            d = common_dir ∨ d = common_dir +:+ "/" +:+ subdir_name common_dir d)
    ∧ build_output_lines_curly order W abs_spec abs_m out_dir include_specs_abs
      = map (λ p, "+" +:+ to_rel W out_dir p) include_specs_abs
        ++ [common_dir +:+ "/"; "{"]
        ++ block_entries W abs_spec abs_m out_dir "  " common_dir
        ++ flat_map (λ d, ["  " +:+ subdir_name common_dir d +:+ "/"; "  {"]
                          ++ block_entries W abs_spec abs_m out_dir "    " d
                          ++ ["  }"])
             (filter (λ d, d ≠ common_dir) (directories order W abs_spec abs_m out_dir))
        ++ ["}"].
Proof.
  intros Hord Hlen Hc.
  assert (Forall normal_dir (directories order W abs_spec abs_m out_dir)) as Hn.
  { apply Forall_forall. intros d. by apply directories_normal. }
  assert (∀ d, d ∈ directories order W abs_spec abs_m out_dir →
               d = c ∨ Str.startswith d (c +:+ "/") = true) as Hc'.
  { intros d Hd%list_elem_of_In. rewrite forallb_forall in Hc.
    specialize (Hc d Hd). apply orb_true_iff in Hc as [Heq|?]; [|by right].
    left. by apply bool_decide_eq_true in Heq. }
  destruct (shared_ancestor_found _ c Hn Hlen Hc')
    as (L & HLne & HLgood & Hcp & Hfind & Hshape).
  destruct (join_good_head L HLne HLgood) as (a & s & Hj & Ha).
  assert (∀ R, R ≠ [] → Forall good_part R →
            subdir_name (Str.join "/" L) (Str.join "/" L +:+ "/" +:+ Str.join "/" R)
            = Str.join "/" R) as Hname.
  { intros R HR HRgood. unfold subdir_name.
    by rewrite <- str_app_assoc, drop_app, join_good_has_last. }
  exists (Str.join "/" L). split; [done|]. split; [by rewrite Hj|].
  split; [by apply directories_NoDup|]. split.
  { intros d Hd. destruct (Hshape d Hd) as [->|(R & HR & HRgood & ->)]; [by left|].
    right. by rewrite Hname. }
  unfold build_output_lines_curly. cbv zeta. rewrite Hfind, Hj.
  cbn [Str.nonempty]. rewrite <- Hj.
  rewrite dir_entries_canonical by done.
  do 3 f_equal. f_equal.
  rewrite (flat_map_filter _
             (nested_subdir order (Str.join "/" L) (group_files order W out_dir abs_m)
                (group_specs order W out_dir abs_spec))
             (λ d, Str.nonempty d = true)).
  2:{ intros d _. unfold nested_subdir.
      destruct (decide (Str.nonempty d = true)) as [->|Hd]; [done|].
      apply not_true_is_false in Hd. by rewrite Hd. }
  fold (directories order W abs_spec abs_m out_dir).
  apply flat_map_filter. intros d Hd. unfold nested_subdir.
  rewrite (normal_dir_nonempty d) by (rewrite Forall_forall in Hn; by apply Hn).
  cbn [negb orb].
  destruct (decide (d ≠ Str.join "/" L)) as [Hne|Heq].
  - rewrite bool_decide_false by done.
    destruct (Hshape d Hd) as [->|(R & HR & HRgood & ->)]; [done|].
    unfold Str.startswith. rewrite <- str_app_assoc, str_prefix_app. cbn [negb].
    rewrite str_app_assoc. fold (subdir_name (Str.join "/" L)
                                     (Str.join "/" L +:+ "/" +:+ Str.join "/" R)).
    by rewrite dir_entries_canonical.
  - apply dec_stable in Heq. by rewrite bool_decide_true.
Qed.

Lemma curly_nested_block_witness :
  visits_once id
  ∧ build_output_lines_curly id world_malformed_config scenario_spec scenario_m
      (of_string "/r") []
    = [ "package/"; "{";
        "  a/"; "  {"; "    x.m"; "    +y.spec"; "  }";
        "  b/"; "  {"; "    z.m"; "  }";
        "}" ].
Proof.
  split; [exact id_visits_once|].
  destruct (curly_nested_block id world_malformed_config scenario_spec scenario_m
              (of_string "/r") [] "package" id_visits_once)
    as (common_dir & Hcp & _ & _ & _ & ->).
  - vm_compute. lia.
  - vm_compute. reflexivity.
  - assert (common_dir = "package") as ->.
    { assert (OsPath.commonpath
                (directories id world_malformed_config scenario_spec scenario_m
                   (of_string "/r")) = Some "package") as E by by vm_compute.
      rewrite E in Hcp. by injection Hcp. }
    vm_compute. reflexivity.
Defined.

(** ** What a successful run has computed *)

Lemma yields_ret {A} (Q : A → Prop) a : Q a → yields Q (mret a).
Proof. by intros H ? [= <-]. Qed.
Lemma yields_no_ret {A} (Q : A → Prop) (m : M A) :
  (∀ a, outcome m ≠ Ret a) → yields Q m.
Proof. intros H a Ha. by destruct (H a). Qed.
Lemma yields_bind {A B} (Q1 : A → Prop) (Q : B → Prop) (m : M A) (f : A → M B) :
  yields Q1 m → (∀ a, Q1 a → yields Q (f a)) → yields Q (m ≫= f).
Proof.
  intros Hm Hf b Hb. apply bind_Ret_inv in Hb as (a & Ha & Hb & _).
  by apply (Hf a (Hm a Ha)).
Qed.
Lemma yields_True {A} (m : M A) : yields (λ _, True) m.
Proof. by intros a _. Qed.
Lemma yields_fold_m {A S} (I : S → Prop) (l : list A) (body : S → A → M S) s :
  I s → (∀ s x, x ∈ l → I s → yields I (body s x)) → yields I (fold_m l body s).
Proof.
  revert s. induction l as [|x l IH]; intros s Hs Hbody; simpl.
  - by apply yields_ret.
  - apply (yields_bind I); [apply Hbody; [by left|done]|].
    intros s' Hs'. apply IH; [done|]. intros ????. apply Hbody; [by right|done].
Qed.
Lemma ends_bind {A B} (Q1 : A → Prop) (R : list event → B → Prop)
    (m : M A) (f : A → M B) :
  yields Q1 m → (∀ a, Q1 a → ends R (f a)) → ends R (m ≫= f).
Proof.
  intros Hm Hf b Hb. apply bind_Ret_inv in Hb as (a & Ha & Hb & ->).
  destruct (Hf a (Hm a Ha) b Hb) as (t & s & -> & HR).
  exists (trace m ++ t), s. by rewrite app_assoc.
Qed.

Lemma add_under_prefixes_under prefixes rels acc :
  all_under prefixes acc → all_under prefixes (add_under_prefixes prefixes rels acc).
Proof.
  unfold add_under_prefixes. revert acc.
  induction rels as [|r rels IH]; intros acc Hacc; simpl; [done|].
  apply IH. destruct (is_under_prefixes r prefixes) eqn:E; [|done].
  intros rel [?| ->%elem_of_singleton]%elem_of_union; auto.
Qed.

Lemma all_under_empty prefixes : all_under prefixes ∅.
Proof. by intros ? ?%elem_of_empty. Qed.

Lemma all_under_union prefixes s1 s2 :
  all_under prefixes s1 → all_under prefixes s2 → all_under prefixes (s1 ∪ s2).
Proof. intros H1 H2 rel [?|?]%elem_of_union; auto. Qed.

Ltac yields_step :=
  lazymatch goal with
  | |- yields _ (mret _) => apply yields_ret
  | |- yields _ (sys_exit _) => by apply yields_no_ret
  | |- yields _ (raise _) => by apply yields_no_ret
  | |- yields _ (eprint _ ≫= λ _, sys_exit _) => by apply yields_no_ret
  | |- yields _ (run _ _ ≫= _) => apply (yields_bind (λ _, True)); [apply yields_True|intros ? _]
  | |- yields _ (match ?x with _ => _ end) => destruct x
  end.

Section Collected.
Context (W : World) (repo_dir : Path) (prefixes : list string).

Lemma collect_diff_under baseline target :
  yields (all_under prefixes) (collect_paths_from_diff W repo_dir baseline target prefixes).
Proof.
  unfold collect_paths_from_diff. repeat yields_step.
  apply add_under_prefixes_under, all_under_empty.
Qed.

Lemma collect_commits_under commits :
  yields (all_under prefixes) (collect_paths_from_commits W repo_dir commits prefixes).
Proof.
  unfold collect_paths_from_commits.
  apply yields_fold_m; [apply all_under_empty|]. intros s c _ Hs.
  repeat yields_step. by apply add_under_prefixes_under.
Qed.

Lemma collect_ranges_under ranges :
  yields (all_under prefixes) (collect_paths_from_ranges W repo_dir ranges prefixes).
Proof.
  unfold collect_paths_from_ranges.
  apply yields_fold_m; [apply all_under_empty|]. intros s c _ Hs.
  repeat yields_step. by apply add_under_prefixes_under.
Qed.

Lemma collect_uncommitted_under :
  yields (all_under prefixes) (collect_paths_from_uncommitted W repo_dir prefixes).
Proof.
  unfold collect_paths_from_uncommitted.
  apply (yields_bind (λ _, True)); [apply yields_True|intros r1 _].
  apply (yields_bind (all_under prefixes)).
  { repeat yields_step. apply add_under_prefixes_under, all_under_empty. }
  intros s1 Hs1.
  apply (yields_bind (λ _, True)); [apply yields_True|intros r2 _].
  apply (yields_bind (all_under prefixes)).
  { repeat yields_step. by apply add_under_prefixes_under. }
  intros s2 Hs2. repeat yields_step. by apply add_under_prefixes_under.
Qed.

Lemma explicit_under explicit_paths :
  yields (λ r, all_under prefixes r.2)
         (normalize_and_apply_explicit_paths W explicit_paths repo_dir prefixes).
Proof.
  unfold normalize_and_apply_explicit_paths.
  apply yields_fold_m; [apply all_under_empty|]. intros [es rp] pth _ Hs.
  unfold apply_explicit_path.
  apply (yields_bind (λ _, True)); [apply yields_True|intros rel_s _].
  apply yields_ret. simpl in *.
  destruct (is_under_prefixes rel_s prefixes) eqn:E; [|done].
  intros rel [?| ->%elem_of_singleton]%elem_of_union; auto.
Qed.

End Collected.

Lemma resolve_yields W p :
  yields (λ q, ∃ s, fs_resolve W (as_posix p) = Some s ∧ q = of_string s) (resolve W p).
Proof.
  unfold resolve. destruct (fs_resolve W (as_posix p)) as [s|].
  - apply yields_ret. by exists s.
  - by apply yields_no_ret.
Qed.

Lemma resolve_wf W p : yields wf_path (resolve W p).
Proof.
  intros q Hq. destruct (resolve_yields W p q Hq) as (s & _ & ->). apply of_string_wf.
Qed.

Lemma expanduser_wf W p : wf_path p → yields wf_path (expanduser W p).
Proof.
  intros Hp. unfold expanduser.
  destruct (root p) eqn:Hr, (parts p) as [|first rest] eqn:Hparts;
    try by apply yields_ret.
  destruct (Str.startswith first "~"); [|by apply yields_ret].
  destruct (Str.startswith _ "~"); [by apply yields_no_ret|].
  apply yields_ret. destruct Hp as [_ Hp]. rewrite Hparts in Hp.
  destruct (of_string_wf (os_expanduser W first)) as [Hroot Hps].
  split; [done|]. simpl. apply Forall_app. split; [done|]. by inversion Hp.
Qed.

Lemma resolve_repo_dir_wf W cfg cfg_path :
  yields wf_path (resolve_repo_dir_from_config W cfg cfg_path).
Proof.
  unfold resolve_repo_dir_from_config. destruct (cfg_repo_dir cfg); [|by apply yields_no_ret].
  apply (yields_bind (λ _, True)); [apply yields_True|intros rd _].
  destruct (is_absolute rd); apply resolve_wf.
Qed.

Lemma load_config_yields W cfg_path :
  yields (λ cfg, toml W (as_posix cfg_path) = Some cfg) (load_config W cfg_path).
Proof.
  unfold load_config. destruct (toml W _) as [cfg|].
  - by apply yields_ret.
  - by apply yields_no_ret.
Qed.

Lemma materialize_classified order W repo_dir rel_paths explicit_set :
  visits_once order →
  yields (λ cl, (∀ p, p ∈ abs_spec cl → classified_from W repo_dir rel_paths ".spec" p)
                ∧ (∀ p, p ∈ abs_m cl → classified_from W repo_dir rel_paths ".m" p))
         (materialize_and_classify order W repo_dir rel_paths explicit_set).
Proof.
  intros Hord. unfold materialize_and_classify.
  apply yields_fold_m.
  { split; by intros ? ?%elem_of_empty. }
  intros acc rel Hrel [Hspec Hm].
  assert (rel ∈ rel_paths) as Hin.
  { rewrite sorted_Permutation, (iter_perm order _ Hord) in Hrel.
    by apply elem_of_elements in Hrel. }
  unfold classify_one.
  eapply yields_bind; [apply resolve_yields|].
  intros abs_p (s & Hs & ->). unfold exists_.
  destruct (fs_exists W (as_posix (of_string s))) eqn:Hex; simpl.
  - destruct (Str.endswith rel ".spec") eqn:E1; [|destruct (Str.endswith rel ".m") eqn:E2].
    + apply yields_ret. split; [|done]. simpl.
      intros p [?| ->%elem_of_singleton]%elem_of_union; [auto|].
      by exists rel, s.
    + apply yields_ret. split; [done|]. simpl.
      intros p [?| ->%elem_of_singleton]%elem_of_union; [auto|].
      by exists rel, s.
    + by apply yields_ret.
  - destruct (bool_decide (rel ∈ explicit_set)); by apply yields_ret.
Qed.

Lemma resolve_all_yields order W paths :
  visits_once order →
  yields (λ r, ∀ q, q ∈ r → ∃ p, p ∈ paths ∧ resolved W p = Some q)
         (resolve_all order W paths).
Proof.
  intros Hord. unfold resolve_all. rewrite resolve_all_fold.
  destruct (decide _); [|by apply yields_no_ret].
  apply yields_ret. intros q [?%elem_of_empty|Hq]%elem_of_union; [done|].
  apply elem_of_list_to_set, list_elem_of_omap in Hq as (p & Hp & Hq).
  exists p. split; [|done].
  rewrite (iter_perm order _ Hord) in Hp. by apply elem_of_elements in Hp.
Qed.

(** the lines of the flat layout after the forced ones *)
Lemma flat_lines order W abs_spec abs_m order_mode out_dir include_specs_abs :
  visits_once order →
  ∃ body,
    build_output_lines_flat order W abs_spec abs_m order_mode out_dir include_specs_abs
    = map (λ p, "+" +:+ to_rel W out_dir p) include_specs_abs ++ body
    ∧ Forall (λ line, (∃ p, p ∈ abs_spec ∧ line = "+" +:+ to_rel W out_dir p)
                      ∨ (∃ p, p ∈ abs_m ∧ line = to_rel W out_dir p)) body.
Proof.
  intros Hord. unfold build_output_lines_flat.
  assert (∀ l, l ≡ₚ elements abs_spec →
            Forall (λ line, (∃ p, p ∈ abs_spec ∧ line = "+" +:+ to_rel W out_dir p)
                            ∨ (∃ p, p ∈ abs_m ∧ line = to_rel W out_dir p))
              (map (λ p, "+" +:+ to_rel W out_dir p) l)) as Hspec.
  { intros l Hl. apply Forall_forall. intros line Hline.
    change (map ?f ?l) with (f <$> l) in Hline.
    apply list_elem_of_fmap in Hline as (p & -> & Hp).
    rewrite Hl in Hp. apply elem_of_elements in Hp. eauto. }
  assert (∀ l, l ≡ₚ elements abs_m →
            Forall (λ line, (∃ p, p ∈ abs_spec ∧ line = "+" +:+ to_rel W out_dir p)
                            ∨ (∃ p, p ∈ abs_m ∧ line = to_rel W out_dir p))
              (map (to_rel W out_dir) l)) as Hm.
  { intros l Hl. apply Forall_forall. intros line Hline.
    change (map ?f ?l) with (f <$> l) in Hline.
    apply list_elem_of_fmap in Hline as (p & -> & Hp).
    rewrite Hl in Hp. apply elem_of_elements in Hp. eauto. }
  destruct (bool_decide (order_mode = "spec-first")).
  - eexists. split; [reflexivity|]. apply Forall_app. split.
    + apply Hspec. by rewrite sorted_Permutation, (iter_perm order _ Hord).
    + apply Hm. by rewrite sorted_Permutation, (iter_perm order _ Hord).
  - eexists. split; [reflexivity|].
    rewrite sorted_by_snd_lines, sorted_Permutation, map_app, !map_map. simpl.
    apply Forall_app. split; [apply Hspec|apply Hm]; apply iter_perm, Hord.
Qed.

(** ** The entries of a flat manifest *)

Lemma yields_self {A} (m : M A) : yields (λ a, outcome m = Ret a) m.
Proof. by intros a. Qed.

Lemma yields_and {A} (Q1 Q2 : A → Prop) (m : M A) :
  yields Q1 m → yields Q2 m → yields (λ a, Q1 a ∧ Q2 a) m.
Proof. intros H1 H2 a Ha. split; auto. Qed.

Lemma resolve_include_specs_length W repo_dir l :
  yields (λ r, length r = length l) (resolve_include_specs W repo_dir l).
Proof.
  unfold resolve_include_specs.
  assert (∀ acc, yields (λ r, length r = (length acc + length l)%nat)
            (fold_m l (λ include_specs_abs sp,
               p ← expanduser W (of_string sp);
               q ← (if negb (is_absolute p) then resolve W (repo_dir // p)
                    else resolve W p);
               mret (include_specs_abs ++ [as_posix q])) acc)) as H.
  { induction l as [|sp l IH]; intros acc; simpl.
    - apply yields_ret. lia.
    - eapply yields_bind.
      + apply (yields_bind (λ _, True)); [apply yields_True|intros p _].
        apply (yields_bind (λ _, True)); [apply yields_True|intros q _].
        apply (yields_ret (λ r, length r = S (length acc))).
        rewrite length_app. simpl. lia.
      + intros acc' Hacc'. intros r Hr. rewrite (IH acc' r Hr).
        cbv beta in Hacc'. simpl. lia. }
  apply H.
Qed.

Lemma classified_entry W repo_dir prefixes rel_paths suffix (cl_paths : gset string) q :
  wf_path repo_dir →
  all_under prefixes rel_paths →
  (∀ p, p ∈ cl_paths → classified_from W repo_dir rel_paths suffix p) →
  (∃ p, p ∈ cl_paths ∧ resolved W p = Some q) →
  selected_file W repo_dir prefixes suffix q.
Proof.
  intros Hwf Hunder Hcl (p & Hp & Hq).
  destruct (Hcl p Hp) as (rel & s & Hrel & Hsuf & Hs & Hex & ->).
  exists rel, s. repeat split; auto.
  unfold resolved in Hq.
  rewrite of_string_as_posix in Hq by (apply joinpath_wf; [done|apply of_string_wf]).
  rewrite Hs in Hq. simpl in Hq. by injection Hq.
Qed.

Lemma main_ends order W args :
  visits_once order → ends (λ s _, manifest_written order W s) (main order W args).
Proof.
  intros Hord. unfold main.
  apply (ends_bind (λ _, True)); [apply yields_True|intros cfg_path _].
  apply (ends_bind (λ _, True)); [apply yields_True|intros _ _].
  eapply ends_bind; [apply load_config_yields|intros cfg Hcfg].
  eapply ends_bind;
    [apply yields_and; [apply resolve_repo_dir_wf|apply yields_self]|].
  intros repo_dir [Hwf Hrepo]. cbv zeta.
  do 5 (apply (ends_bind (λ _, True)); [apply yields_True|intros ? _]).
  eapply ends_bind; [apply collect_diff_under|intros from_diff Hdiff].
  eapply ends_bind; [apply collect_commits_under|intros from_commits Hcommits].
  eapply ends_bind; [apply collect_ranges_under|intros from_ranges Hranges].
  apply (ends_bind (all_under (prefixes_of cfg))).
  { destruct (default true (opt_include_uncommitted cfg));
      [apply collect_uncommitted_under|apply yields_ret, all_under_empty]. }
  intros from_uncommitted Hunc.
  eapply ends_bind; [apply explicit_under|].
  intros [explicit_set rel_from_explicit] Hexp. simpl in Hexp.
  set (rel_paths := _ ∪ rel_from_explicit).
  assert (all_under (prefixes_of cfg) rel_paths) as Hunder.
  { subst rel_paths. repeat apply all_under_union; done. }
  eapply ends_bind; [by apply materialize_classified|intros cl [Hspec Hm]].
  eapply ends_bind; [by apply resolve_all_yields|intros abs_spec' Hspec'].
  eapply ends_bind; [by apply resolve_all_yields|intros abs_m' Hm'].
  do 2 (apply (ends_bind (λ _, True)); [apply yields_True|intros ? _]).
  eapply ends_bind; [apply resolve_include_specs_length|].
  intros include_specs_abs Hlen.
  apply (ends_bind (λ _, True)); [apply yields_True|intros out_path _].
  fold (format_of cfg).
  apply (ends_bind (λ lines,
           (format_of cfg = "curly" →
            lines = build_output_lines_curly order W abs_spec' abs_m'
                      (parent out_path) include_specs_abs)
           ∧ (format_of cfg = "flat" →
              lines = build_output_lines_flat order W abs_spec' abs_m'
                        (default "spec-first" (opt_order cfg)) (parent out_path)
                        include_specs_abs))).
  { case_bool_decide as Hfmt.
    - apply yields_ret. split; [by rewrite Hfmt|done].
    - case_bool_decide as Hfmt'; [|by apply yields_no_ret].
      apply yields_ret. split; [done|by rewrite Hfmt']. }
  intros lines [Hcurly Hlines] [] Hret.
  unfold write_atomic_lines in *.
  destruct (fs_can_write W _); [|done].
  destruct (fs_can_replace W _ _); [|done].
  eexists [], _. split; [reflexivity|].
  exists cfg_path, cfg, repo_dir, out_path, abs_spec', abs_m', include_specs_abs, lines.
  eexists _, _.
  split; [done|]. split; [done|]. split; [reflexivity|]. split; [done|].
  assert (∀ q, q ∈ abs_spec' → selected_file W repo_dir (prefixes_of cfg) ".spec" q)
    as Hsel_spec.
  { intros q Hq. by eapply classified_entry; [..|apply Hspec'; done]. }
  assert (∀ q, q ∈ abs_m' → selected_file W repo_dir (prefixes_of cfg) ".m" q)
    as Hsel_m.
  { intros q Hq. by eapply classified_entry; [..|apply Hm'; done]. }
  split; [done|]. split; [done|]. split; [done|].
  intros Hflat. split; [by apply Hlines|]. rewrite (Hlines Hflat).
  destruct (flat_lines order W abs_spec' abs_m' (default "spec-first" (opt_order cfg))
              (parent out_path) include_specs_abs Hord) as (body & -> & Hbody).
  eexists _, body. split; [reflexivity|]. split.
  { rewrite length_map. exact Hlen. }
  eapply Forall_impl; [exact Hbody|]. intros line [(q & Hq & ->)|(q & Hq & ->)].
  - destruct (Hsel_spec q Hq) as (rel & s & ? & ? & ? & ? & ->).
    exists rel, s. repeat split; auto.
  - destruct (Hsel_m q Hq) as (rel & s & ? & ? & ? & ? & ->).
    exists rel, s. repeat split; auto.
Qed.




(** * Further properties *)

(** ** Name-status listings *)

Lemma forall_chars_app p s t :
  forall_chars p (s +:+ t) = forall_chars p s && forall_chars p t.
Proof.
  induction s as [|a s IH]; [done|].
  rewrite app_cons. simpl. by rewrite IH, andb_assoc.
Qed.

Lemma forall_chars_impl (p q : ascii → bool) s :
  (∀ a, p a = true → q a = true) → forall_chars p s = true → forall_chars q s = true.
Proof.
  intros Hpq. induction s as [|a s IH]; [done|]. simpl.
  intros [Ha Hs]%andb_true_iff. by rewrite (Hpq a Ha), IH.
Qed.

Lemma forall_chars_has_char p c s :
  p c = false → forall_chars p s = true → has_char c s = false.
Proof.
  intros Hc. induction s as [|a s IH]; [done|]. simpl.
  intros [Ha Hs]%andb_true_iff. rewrite (IH Hs), orb_false_r.
  destruct (Ascii.eqb_spec a c) as [->|]; [congruence|done].
Qed.

Lemma field_no_tab s : is_field s = true → has_char tab s = false.
Proof. by apply forall_chars_has_char. Qed.

Lemma field_no_newline s : is_field s = true → has_char "010" s = false.
Proof. by apply forall_chars_has_char. Qed.

Lemma field_one_line s :
  is_field s = true → forall_chars (λ a, negb (Str.is_linebreak a)) s = true.
Proof. apply forall_chars_impl. by intros a [? _]%andb_true_iff. Qed.

Lemma rev_app_app s t : String.rev_app s t = String.rev s +:+ t.
Proof.
  unfold String.rev. revert t. induction s as [|a s IH]; intros t; [done|].
  simpl. by rewrite (IH (String a t)), (IH (String a "")), str_app_assoc.
Qed.

Lemma rev_cons a s : String.rev (String a s) = String.rev s +:+ String a "".
Proof. unfold String.rev at 1. simpl. apply rev_app_app. Qed.

(** [splitlines] on a line and its terminator *)
Lemma splitlines_go_line l cur rest :
  forall_chars (λ a, negb (Str.is_linebreak a)) l = true →
  Str.splitlines_go cur (l +:+ String "010" rest)
  = (String.rev cur +:+ l) :: Str.splitlines_go "" rest.
Proof.
  revert cur. induction l as [|a l IH]; intros cur Hl.
  - by rewrite app_empty_l, app_empty_r.
  - simpl in Hl. apply andb_true_iff in Hl as [Ha Hl].
    rewrite app_cons.
    change (Str.splitlines_go cur (String a (l +:+ String "010" rest)))
      with (if Ascii.eqb a "013" then
              match l +:+ String "010" rest with
              | String "010" s'' => String.rev cur :: Str.splitlines_go "" s''
              | _ => String.rev cur :: Str.splitlines_go "" (l +:+ String "010" rest)
              end
            else if Str.is_linebreak a
                 then String.rev cur :: Str.splitlines_go "" (l +:+ String "010" rest)
                 else Str.splitlines_go (String a cur) (l +:+ String "010" rest)).
    destruct (Ascii.eqb_spec a "013") as [->|_]; [done|].
    apply negb_true_iff in Ha. rewrite Ha, IH by done.
    by rewrite rev_cons, str_app_assoc.
Qed.

Lemma splitlines_lines ls :
  Forall (λ l, forall_chars (λ a, negb (Str.is_linebreak a)) l = true) ls →
  Str.splitlines (String.concat "" (map (λ l, l +:+ newline) ls)) = ls.
Proof.
  unfold Str.splitlines.
  induction 1 as [|l ls Hl _ IH]; [done|].
  assert (String.concat "" (map (λ l, l +:+ newline) (l :: ls))
          = l +:+ String "010" (String.concat "" (map (λ l, l +:+ newline) ls))) as ->.
  { simpl. destruct (map _ ls) eqn:E.
    - simpl. done.
    - by rewrite !str_app_assoc. }
  by rewrite splitlines_go_line, IH.
Qed.

Lemma lstrip_nonblank s :
  is_blank s = false →
  ∃ a t, Str.lstrip_with Str.isspace s = String a t ∧ Str.isspace a = false.
Proof.
  unfold is_blank. induction s as [|a s IH]; [done|]. simpl.
  destruct (Str.isspace a) eqn:Ha; simpl; [exact IH|]. intros _. by exists a, s.
Qed.

Lemma rstrip_with_head p a s :
  p a = false → ∃ t, Str.rstrip_with p (String a s) = String a t.
Proof.
  intros Ha. simpl. rewrite Ha. destruct (Str.rstrip_with p s); eauto.
Qed.

Lemma strip_nonblank s : is_blank s = false → Str.nonempty (Str.strip s) = true.
Proof.
  intros (a & t & Hl & Ha)%lstrip_nonblank. unfold Str.strip. rewrite Hl.
  by destruct (rstrip_with_head Str.isspace a t Ha) as [u ->].
Qed.

Lemma rstrip_newline s : has_char "010" s = false → Str.rstrip "010" s = s.
Proof.
  intros H. destruct s as [|a s]; [done|]. by apply rstrip_no_char.
Qed.

Lemma startswith_R_nonblank s : Str.startswith s "R" = true → is_blank s = false.
Proof.
  unfold Str.startswith. intros [t ->]%str_prefix_inv. done.
Qed.

Lemma split_two c s t :
  has_char c s = false → has_char c t = false →
  Str.split c (s +:+ String c t) = [s; t].
Proof. intros Hs Ht. by rewrite split_app_sep, !split_no_char. Qed.

Lemma split_three c s t u :
  has_char c s = false → has_char c t = false → has_char c u = false →
  Str.split c (s +:+ String c t +:+ String c u) = [s; t; u].
Proof.
  intros Hs Ht Hu.
  change (String c t +:+ String c u) with (String c (t +:+ String c u)).
  rewrite split_app_sep, (split_no_char c s Hs).
  by rewrite (split_two c t u).
Qed.

Lemma record_line_field r :
  record_ok r →
  forall_chars (λ a, negb (Str.is_linebreak a)) (record_line r) = true.
Proof.
  destruct r; simpl.
  - intros (H1 & H2 & _). rewrite forall_chars_app. simpl.
    by rewrite !field_one_line.
  - intros (H1 & H2 & H3 & _). rewrite !forall_chars_app. simpl.
    by rewrite !field_one_line.
  - apply field_one_line.
  - intros (H1 & H2 & _). rewrite forall_chars_app. simpl.
    by rewrite !field_one_line.
Qed.

Lemma parse_record_line r :
  record_ok r →
  parse_name_status_line (record_line r) = option_list (record_path r).
Proof.
  unfold parse_name_status_line. destruct r as [st p|st old new|text|st old]; simpl.
  - intros (Hst & Hp & Hb & HR).
    rewrite strip_nonblank.
    2:{ unfold is_blank in *. by rewrite forall_chars_app, Hb. }
    rewrite rstrip_newline.
    2:{ rewrite has_char_app. simpl. by rewrite !field_no_newline. }
    rewrite split_two by by apply field_no_tab. simpl. by rewrite HR.
  - intros (Hst & Hold & Hnew & HR).
    rewrite strip_nonblank.
    2:{ unfold is_blank. rewrite forall_chars_app.
        apply startswith_R_nonblank in HR. unfold is_blank in HR. by rewrite HR. }
    rewrite rstrip_newline.
    2:{ rewrite !has_char_app. simpl. by rewrite !field_no_newline. }
    rewrite split_three by by apply field_no_tab. simpl. by rewrite HR.
  - intros Ht. destruct (Str.nonempty (Str.strip text)); [|done]. simpl.
    rewrite rstrip_newline by by apply field_no_newline.
    rewrite split_no_char by by apply field_no_tab. simpl.
    by destruct (Str.startswith text "R").
  - intros (Hst & Hold & HR).
    rewrite strip_nonblank.
    2:{ unfold is_blank. rewrite forall_chars_app.
        apply startswith_R_nonblank in HR. unfold is_blank in HR. by rewrite HR. }
    rewrite rstrip_newline.
    2:{ rewrite !has_char_app. simpl. by rewrite !field_no_newline. }
    rewrite split_two by by apply field_no_tab. simpl. by rewrite HR.
Qed.

(** X1: [parse_name_status] decodes a name-status listing.  From a text
    with one record per line it returns, in the order of the lines, the
    path of every record with a status and a path and the new path of
    every rename; a line without a tab and a rename with one path only
    contribute nothing. *)
Theorem parse_name_status_listing rs :
  Forall record_ok rs →
  parse_name_status (listing rs) = omap record_path rs.
Proof.
  intros Hrs. unfold parse_name_status, listing.
  rewrite <- (map_map record_line (λ l, l +:+ newline)).
  rewrite splitlines_lines.
  2:{ apply Forall_forall. intros l Hl.
      change (map ?f ?l) with (f <$> l) in Hl.
      apply list_elem_of_fmap in Hl as (r & -> & Hr).
      rewrite Forall_forall in Hrs. by apply record_line_field, Hrs. }
  induction Hrs as [|r rs Hr _ IH]; [done|].
  simpl. rewrite IH, parse_record_line by done.
  by destruct (record_path r).
Qed.

Lemma parse_name_status_listing_witness :
  Forall record_ok
    [ Changed "A" "package/a/x.m"; Bare ""; Renamed "R100" "package/old.m" "package/b/z.m";
      HalfRenamed "R090" "package/lost.m"; Changed "M" "package/a/y.spec" ]
  ∧ parse_name_status
      (listing [ Changed "A" "package/a/x.m"; Bare "";
                 Renamed "R100" "package/old.m" "package/b/z.m";
                 HalfRenamed "R090" "package/lost.m"; Changed "M" "package/a/y.spec" ])
    = [ "package/a/x.m"; "package/b/z.m"; "package/a/y.spec" ].
Proof.
  assert (Forall record_ok
            [ Changed "A" "package/a/x.m"; Bare "";
              Renamed "R100" "package/old.m" "package/b/z.m";
              HalfRenamed "R090" "package/lost.m"; Changed "M" "package/a/y.spec" ]) as H.
  { repeat constructor. }
  split; [exact H|]. exact (parse_name_status_listing _ H).
Defined.

(** ** The collectors *)

Lemma is_under_prefixes_spec rel prefixes :
  is_under_prefixes rel prefixes = true
  ↔ ∃ pref rest, pref ∈ prefixes ∧ rel = pref +:+ rest.
Proof.
  unfold is_under_prefixes. rewrite existsb_exists. split.
  - intros (pref & Hin%list_elem_of_In & [rest ->]%str_prefix_inv). eauto.
  - intros (pref & rest & Hin%list_elem_of_In & ->).
    exists pref. split; [done|]. apply str_prefix_app.
Qed.

Lemma elem_of_add_under_prefixes prefixes rels acc rel :
  rel ∈ add_under_prefixes prefixes rels acc
  ↔ rel ∈ acc ∨ (rel ∈ rels ∧ is_under_prefixes rel prefixes = true).
Proof.
  unfold add_under_prefixes. revert acc.
  induction rels as [|r rels IH]; intros acc; simpl.
  - split; [by left|]. intros [?|[?%elem_of_nil _]]; done.
  - rewrite IH. destruct (is_under_prefixes r prefixes) eqn:E.
    + rewrite elem_of_union, elem_of_singleton, elem_of_cons. split.
      * intros [[?| ->]|[? ?]]; auto.
      * intros [?|[[->|?] ?]]; auto.
    + rewrite elem_of_cons. split.
      * intros [?|[? ?]]; auto.
      * intros [?|[[->|?] ?]]; auto. congruence.
Qed.

Lemma run_ok W cmd :
  succeeds W cmd → run W cmd = ([Git cmd], Ret (inr (git W cmd))).
Proof. unfold run, succeeds. intros H. simpl. by rewrite bool_decide_true. Qed.

Lemma run_failed W cmd :
  ¬ succeeds W cmd → run W cmd = ([Git cmd], Ret (inl (git W cmd))).
Proof. unfold run, succeeds. intros H. simpl. by rewrite bool_decide_false. Qed.

Lemma bind_run_ok {B} W cmd (k : CompletedProcess + CompletedProcess → M B) :
  succeeds W cmd →
  run W cmd ≫= k = (Git cmd :: trace (k (inr (git W cmd))), outcome (k (inr (git W cmd)))).
Proof.
  intros H. rewrite (run_ok W cmd H). unfold mbind, M_bind.
  by destruct (k _).
Qed.

Lemma bind_run_failed {B} W cmd (k : CompletedProcess + CompletedProcess → M B) :
  ¬ succeeds W cmd →
  run W cmd ≫= k = (Git cmd :: trace (k (inl (git W cmd))), outcome (k (inl (git W cmd)))).
Proof.
  intros H. rewrite (run_failed W cmd H). unfold mbind, M_bind.
  by destruct (k _).
Qed.

Lemma bind_pair_Ret {A B} t (a : A) (f : A → M B) :
  ((t, Ret a) : M A) ≫= f = (t ++ trace (f a), outcome (f a)).
Proof. unfold mbind, M_bind. by destruct (f a). Qed.

Lemma run_then_ok {B} W cmd (g : CompletedProcess → B) (h : CompletedProcess → M B) :
  succeeds W cmd →
  (run W cmd ≫= λ r, match r with inl e => h e | inr p => mret (g p) end)
  = ([Git cmd], Ret (g (git W cmd))).
Proof. intros H. by rewrite bind_run_ok. Qed.

Lemma run_then_failed {B} W cmd (g : CompletedProcess → M B) (msg : CompletedProcess → string) :
  ¬ succeeds W cmd →
  (run W cmd ≫= λ r, match r with
                     | inl e => eprint (msg e) ;; sys_exit 2
                     | inr p => g p
                     end)
  = ([Git cmd; Stderr (msg (git W cmd))], Exit 2).
Proof. intros H. by rewrite bind_run_failed. Qed.

(** X2: [collect_paths_from_diff] asks git for one listing.  When the
    command succeeds the result is the set of the listed paths that start
    with one of the prefixes, as text; when it fails the run ends with
    [sys.exit(2)] after the error text of git is printed. *)
Theorem collect_diff_result W repo_dir baseline target prefixes :
  let p := git W (diff_cmd repo_dir baseline target) in
  (succeeds W (diff_cmd repo_dir baseline target) →
   ∃ s, collect_paths_from_diff W repo_dir baseline target prefixes
        = ([Git (diff_cmd repo_dir baseline target)], Ret s)
        ∧ ∀ rel, rel ∈ s ↔
            rel ∈ parse_name_status (stdout p)
            ∧ ∃ pref rest, pref ∈ prefixes ∧ rel = pref +:+ rest)
  ∧ (¬ succeeds W (diff_cmd repo_dir baseline target) →
     collect_paths_from_diff W repo_dir baseline target prefixes
     = ([Git (diff_cmd repo_dir baseline target);
         Stderr ("ERROR: diff baseline..target failed:" +:+ newline +:+ stderr p)],
        Exit 2)).
Proof.
  intros p. unfold collect_paths_from_diff. fold (diff_cmd repo_dir baseline target).
  split; intros H.
  - rewrite bind_run_ok by done. eexists. split; [reflexivity|].
    intros rel. rewrite elem_of_add_under_prefixes, is_under_prefixes_spec.
    split; [intros [?%elem_of_empty|?]; done|by right].
  - by rewrite bind_run_failed.
Qed.

Lemma collect_commits_loop W repo_dir prefixes commits acc :
  (∀ c, c ∈ commits → succeeds W (diff_tree_cmd repo_dir c)) →
  ∃ s, fold_m commits (λ rel_paths c,
         r ← run W (diff_tree_cmd repo_dir c);
         match r with
         | inr p => mret (add_under_prefixes prefixes (parse_name_status (stdout p)) rel_paths)
         | inl e =>
             eprint ("ERROR: diff-tree for " +:+ c +:+ " failed:" +:+ newline +:+ stderr e) ;;
             sys_exit 2
         end) acc
       = (map (λ c, Git (diff_tree_cmd repo_dir c)) commits, Ret s)
       ∧ ∀ rel, rel ∈ s ↔
           rel ∈ acc
           ∨ (is_under_prefixes rel prefixes = true
              ∧ ∃ c, c ∈ commits
                     ∧ rel ∈ parse_name_status (stdout (git W (diff_tree_cmd repo_dir c)))).
Proof.
  revert acc. induction commits as [|c commits IH]; intros acc Hok.
  - exists acc. split; [done|]. intros rel. split; [by left|].
    intros [?|(_ & c & ?%elem_of_nil & _)]; done.
  - destruct (IH (add_under_prefixes prefixes
                    (parse_name_status (stdout (git W (diff_tree_cmd repo_dir c)))) acc))
      as (s & Hs & Hmem).
    { intros c' Hc'. apply Hok. by right. }
    exists s. split.
    + cbn [fold_m]. rewrite run_then_ok by (apply Hok; by left).
      rewrite bind_pair_Ret, Hs. done.
    + intros rel. rewrite Hmem, elem_of_add_under_prefixes. split.
      * intros [[?|[? ?]]|(? & c' & ? & ?)]; [by left|right..].
        -- split; [done|]. exists c. split; [by left|done].
        -- split; [done|]. exists c'. split; [by right|done].
      * intros [?|(? & c' & [->|?]%elem_of_cons & ?)]; [by left; left|by left; right|].
        right. split; [done|]. by exists c'.
Qed.

(** X3: [collect_paths_from_commits] asks git for the listing of each
    commit, in the order of the selectors.  When every command succeeds the
    result is the set of the paths, of any of the listings, that start with
    one of the prefixes. *)
Theorem collect_commits_result W repo_dir commits prefixes :
  (∀ c, c ∈ commits → succeeds W (diff_tree_cmd repo_dir c)) →
  ∃ s, collect_paths_from_commits W repo_dir commits prefixes
       = (map (λ c, Git (diff_tree_cmd repo_dir c)) commits, Ret s)
       ∧ ∀ rel, rel ∈ s ↔
           is_under_prefixes rel prefixes = true
           ∧ ∃ c, c ∈ commits
                  ∧ rel ∈ parse_name_status (stdout (git W (diff_tree_cmd repo_dir c))).
Proof.
  intros Hok. unfold collect_paths_from_commits.
  destruct (collect_commits_loop W repo_dir prefixes commits ∅ Hok) as (s & Hs & Hmem).
  exists s. split; [exact Hs|]. intros rel. rewrite Hmem.
  split; [intros [?%elem_of_empty|?]; done|by right].
Qed.

Lemma collect_commits_result_witness :
  (∀ c, c ∈ ["c0ffee"; "beef"] →
        succeeds (example_world None [] []) (diff_tree_cmd (of_string "/r") c))
  ∧ ∃ s, collect_paths_from_commits (example_world None [] []) (of_string "/r")
           ["c0ffee"; "beef"] ["package/"]
         = (map (λ c, Git (diff_tree_cmd (of_string "/r") c)) ["c0ffee"; "beef"], Ret s)
         ∧ ∀ rel, rel ∈ s ↔
             is_under_prefixes rel ["package/"] = true
             ∧ ∃ c, c ∈ ["c0ffee"; "beef"]
                    ∧ rel ∈ parse_name_status
                              (stdout (git (example_world None [] [])
                                         (diff_tree_cmd (of_string "/r") c))).
Proof.
  assert (∀ c, c ∈ ["c0ffee"; "beef"] →
            succeeds (example_world None [] []) (diff_tree_cmd (of_string "/r") c)) as H.
  { intros c Hc. reflexivity. }
  split; [exact H|].
  exact (collect_commits_result (example_world None [] []) (of_string "/r")
           ["c0ffee"; "beef"] ["package/"] H).
Defined.

(** X4: [collect_paths_from_commits] stops at the first commit whose
    listing fails: the run ends with [sys.exit(2)] after the error text of
    git, and the commits after it are not looked at. *)
Theorem collect_commits_stops W repo_dir before c after prefixes :
  (∀ b, b ∈ before → succeeds W (diff_tree_cmd repo_dir b)) →
  ¬ succeeds W (diff_tree_cmd repo_dir c) →
  collect_paths_from_commits W repo_dir (before ++ c :: after) prefixes
  = (map (λ b, Git (diff_tree_cmd repo_dir b)) before
     ++ [ Git (diff_tree_cmd repo_dir c);
          Stderr ("ERROR: diff-tree for " +:+ c +:+ " failed:" +:+ newline
                  +:+ stderr (git W (diff_tree_cmd repo_dir c))) ],
     Exit 2).
Proof.
  intros Hok Hfail. unfold collect_paths_from_commits.
  generalize (∅ : gset string) as acc.
  induction before as [|b before IH]; intros acc; cbn [fold_m app map].
  - rewrite (run_then_failed W _ _
               (λ e, "ERROR: diff-tree for " +:+ c +:+ " failed:" +:+ newline +:+ stderr e))
      by done.
    done.
  - rewrite run_then_ok by (apply Hok; by left).
    rewrite bind_pair_Ret, IH by (intros; apply Hok; by right). done.
Qed.

Lemma collect_commits_stops_witness :
  collect_paths_from_commits
    (world_with_git (scripted_git [(diff_tree_cmd (of_string "/r") "bad", MkProc 128 "" "fatal: bad object")]))
    (of_string "/r") (["c0ffee"] ++ "bad" :: ["beef"]) ["package/"]
  = ([ Git (diff_tree_cmd (of_string "/r") "c0ffee");
       Git (diff_tree_cmd (of_string "/r") "bad");
       Stderr ("ERROR: diff-tree for bad failed:" +:+ newline +:+ "fatal: bad object") ],
     Exit 2).
Proof.
  apply (collect_commits_stops
           (world_with_git (scripted_git [(diff_tree_cmd (of_string "/r") "bad", MkProc 128 "" "fatal: bad object")]))
           (of_string "/r") ["c0ffee"] "bad" ["beef"] ["package/"]).
  - intros b ->%list_elem_of_singleton. reflexivity.
  - intros H. vm_compute in H. discriminate H.
Defined.

(** *** Ranges *)

Lemma partition_join sep s a b :
  Str.partition sep s = Some (a, b) → s = a +:+ sep +:+ b.
Proof.
  revert a b. induction s as [|c s IH]; intros a b.
  - change (Str.partition sep "")
      with (if String.prefix sep "" then Some ("", Str.drop (String.length sep) "")
            else None).
    destruct (String.prefix sep "") eqn:E; [|done].
    intros [= <- <-]. apply str_prefix_inv in E as [t Ht].
    symmetry in Ht. by apply app_empty_inv in Ht as [-> _].
  - change (Str.partition sep (String c s))
      with (if String.prefix sep (String c s)
            then Some ("", Str.drop (String.length sep) (String c s))
            else match Str.partition sep s with
                 | Some (a, b) => Some (String c a, b)
                 | None => None
                 end).
    destruct (String.prefix sep (String c s)) eqn:E.
    + intros [= <- <-]. apply str_prefix_inv in E as [t Ht].
      rewrite Ht. by rewrite drop_app.
    + destruct (Str.partition sep s) as [[a' b']|]; [|done].
      intros [= <- <-]. by rewrite (IH a' b' eq_refl) at 1.
Qed.

Lemma collect_ranges_loop W repo_dir prefixes ranges acc :
  (∀ rng, rng ∈ ranges → Str.contains ".." rng = true) →
  (∀ rng, rng ∈ ranges → succeeds W (range_cmd repo_dir rng)) →
  ∃ s, fold_m ranges (λ rel_paths rng,
         match Str.partition ".." rng with
         | None => raise "ValueError"
         | Some (A, B) =>
             r ← run W ["git"; "-C"; as_posix repo_dir; "diff"; "--name-status";
                        "--diff-filter=AMR"; A +:+ ".." +:+ B];
             match r with
             | inr p => mret (add_under_prefixes prefixes (parse_name_status (stdout p)) rel_paths)
             | inl e =>
                 eprint ("ERROR: diff for range " +:+ rng +:+ " failed:" +:+ newline +:+ stderr e) ;;
                 sys_exit 2
             end
         end) acc
       = (map (λ rng, Git (range_cmd repo_dir rng)) ranges, Ret s)
       ∧ ∀ rel, rel ∈ s ↔
           rel ∈ acc
           ∨ (is_under_prefixes rel prefixes = true
              ∧ ∃ rng, rng ∈ ranges
                     ∧ rel ∈ parse_name_status (stdout (git W (range_cmd repo_dir rng)))).
Proof.
  revert acc. induction ranges as [|rng ranges IH]; intros acc Hdots Hok.
  - exists acc. split; [done|]. intros rel. split; [by left|].
    intros [?|(_ & c & ?%elem_of_nil & _)]; done.
  - destruct (IH (add_under_prefixes prefixes
                    (parse_name_status (stdout (git W (range_cmd repo_dir rng)))) acc))
      as (s & Hs & Hmem).
    { intros r' Hr'. apply Hdots. by right. }
    { intros r' Hr'. apply Hok. by right. }
    exists s. split.
    + cbn [fold_m].
      destruct (partition_of_contains ".." rng) as (A & B & HAB); [apply Hdots; by left|].
      rewrite HAB. rewrite <- (partition_join _ _ _ _ HAB).
      fold (range_cmd repo_dir rng).
      rewrite run_then_ok by (apply Hok; by left).
      rewrite bind_pair_Ret, Hs. done.
    + intros rel. rewrite Hmem, elem_of_add_under_prefixes. split.
      * intros [[?|[? ?]]|(? & c' & ? & ?)]; [by left|right..].
        -- split; [done|]. exists rng. split; [by left|done].
        -- split; [done|]. exists c'. split; [by right|done].
      * intros [?|(? & c' & [->|?]%elem_of_cons & ?)]; [by left; left|by left; right|].
        right. split; [done|]. by exists c'.
Qed.

(** X5: [collect_paths_from_ranges] passes each range to [git diff] as it
    is written: splitting [A..B] at the first [..] and joining the two
    halves again gives the selector back.  When every range has a [..] and
    every command succeeds, the result is the set of the paths, of any of
    the listings, that start with one of the prefixes. *)
Theorem collect_ranges_result W repo_dir ranges prefixes :
  (∀ rng, rng ∈ ranges → Str.contains ".." rng = true) →
  (∀ rng, rng ∈ ranges → succeeds W (range_cmd repo_dir rng)) →
  ∃ s, collect_paths_from_ranges W repo_dir ranges prefixes
       = (map (λ rng, Git (range_cmd repo_dir rng)) ranges, Ret s)
       ∧ ∀ rel, rel ∈ s ↔
           is_under_prefixes rel prefixes = true
           ∧ ∃ rng, rng ∈ ranges
                    ∧ rel ∈ parse_name_status (stdout (git W (range_cmd repo_dir rng))).
Proof.
  intros Hdots Hok. unfold collect_paths_from_ranges.
  destruct (collect_ranges_loop W repo_dir prefixes ranges ∅ Hdots Hok) as (s & Hs & Hmem).
  exists s. split; [exact Hs|]. intros rel. rewrite Hmem.
  split; [intros [?%elem_of_empty|?]; done|by right].
Qed.

Lemma ranges_no_raise W repo_dir prefixes ranges acc e :
  (∀ rng, rng ∈ ranges → Str.contains ".." rng = true) →
  outcome (fold_m ranges (λ rel_paths rng,
         match Str.partition ".." rng with
         | None => raise "ValueError"
         | Some (A, B) =>
             r ← run W ["git"; "-C"; as_posix repo_dir; "diff"; "--name-status";
                        "--diff-filter=AMR"; A +:+ ".." +:+ B];
             match r with
             | inr p => mret (add_under_prefixes prefixes (parse_name_status (stdout p)) rel_paths)
             | inl e =>
                 eprint ("ERROR: diff for range " +:+ rng +:+ " failed:" +:+ newline +:+ stderr e) ;;
                 sys_exit 2
             end
         end) acc) ≠ Raise e.
Proof.
  revert acc. induction ranges as [|rng ranges IH]; intros acc Hdots; [done|].
  cbn [fold_m].
  destruct (partition_of_contains ".." rng) as (A & B & HAB); [apply Hdots; by left|].
  rewrite HAB.
  set (cmd := ["git"; "-C"; as_posix repo_dir; "diff"; "--name-status";
               "--diff-filter=AMR"; A +:+ ".." +:+ B]).
  destruct (decide (succeeds W cmd)) as [Hs|Hf].
  - rewrite run_then_ok by done. rewrite bind_pair_Ret. simpl.
    apply IH. intros; apply Hdots; by right.
  - rewrite (run_then_failed W cmd _
               (λ e, "ERROR: diff for range " +:+ rng +:+ " failed:" +:+ newline +:+ stderr e))
      by done.
    done.
Qed.

(** X6: the unpacking [A, B = rng.split("..", 1)] of
    [collect_paths_from_ranges] cannot fail on ranges that have passed
    [ensure_selectors_are_ancestors]: the collector returns or ends the run
    with [sys.exit], it does not raise. *)
Theorem validated_ranges_unpack W repo_dir commits ranges target prefixes :
  outcome (ensure_selectors_are_ancestors W repo_dir commits ranges target) = Ret tt →
  ∀ e, outcome (collect_paths_from_ranges W repo_dir ranges prefixes) ≠ Raise e.
Proof.
  rewrite ensure_selectors_outcome.
  destruct (forallb _ commits); [|done]. simpl.
  destruct (forallb _ ranges) eqn:Hr; [|done]. intros _ e.
  apply ranges_no_raise. intros rng Hrng%list_elem_of_In.
  rewrite forallb_forall in Hr. specialize (Hr rng Hrng).
  unfold range_ok in Hr. by apply andb_true_iff in Hr as [? _].
Qed.

Lemma collect_ranges_result_witness :
  let W := world_with_git
             (scripted_git [(range_cmd (of_string "/r") "v1..v2", MkProc 0 diff_text "")]) in
  (∀ rng, rng ∈ ["v1..v2"; "a..b..c"] → Str.contains ".." rng = true)
  ∧ (∀ rng, rng ∈ ["v1..v2"; "a..b..c"] → succeeds W (range_cmd (of_string "/r") rng))
  ∧ ∃ s, collect_paths_from_ranges W (of_string "/r") ["v1..v2"; "a..b..c"] ["package/"]
         = (map (λ rng, Git (range_cmd (of_string "/r") rng)) ["v1..v2"; "a..b..c"], Ret s)
         ∧ ∀ rel, rel ∈ s ↔
             is_under_prefixes rel ["package/"] = true
             ∧ ∃ rng, rng ∈ ["v1..v2"; "a..b..c"]
                      ∧ rel ∈ parse_name_status
                                (stdout (git W (range_cmd (of_string "/r") rng))).
Proof.
  intros W.
  assert (∀ rng, rng ∈ ["v1..v2"; "a..b..c"] → Str.contains ".." rng = true) as H1.
  { intros rng Hrng. repeat (apply elem_of_cons in Hrng as [->|Hrng]); try reflexivity.
    by apply elem_of_nil in Hrng. }
  assert (∀ rng, rng ∈ ["v1..v2"; "a..b..c"] → succeeds W (range_cmd (of_string "/r") rng))
    as H2.
  { intros rng Hrng. repeat (apply elem_of_cons in Hrng as [->|Hrng]); try reflexivity.
    by apply elem_of_nil in Hrng. }
  split; [exact H1|]. split; [exact H2|].
  exact (collect_ranges_result W (of_string "/r") ["v1..v2"; "a..b..c"] ["package/"] H1 H2).
Defined.

Lemma validated_ranges_unpack_witness :
  outcome (ensure_selectors_are_ancestors (example_world None [] []) (of_string "/r")
             ["c0ffee"] ["v1..v2"] "HEAD") = Ret tt
  ∧ ∀ e, outcome (collect_paths_from_ranges (example_world None [] []) (of_string "/r")
                    ["v1..v2"] ["package/"]) ≠ Raise e.
Proof.
  assert (outcome (ensure_selectors_are_ancestors (example_world None [] [])
                     (of_string "/r") ["c0ffee"] ["v1..v2"] "HEAD") = Ret tt) as H
    by reflexivity.
  split; [exact H|].
  exact (validated_ranges_unpack (example_world None [] []) (of_string "/r")
           ["c0ffee"] ["v1..v2"] "HEAD" ["package/"] H).
Defined.

(** *** Uncommitted changes *)

Lemma elem_of_untracked_lines rel text :
  rel ∈ untracked_lines text
  ↔ rel ≠ "" ∧ ∃ line, line ∈ Str.splitlines text ∧ rel = Str.strip line.
Proof.
  unfold untracked_lines. rewrite list_elem_of_filter.
  change (map ?f ?l) with (f <$> l). rewrite list_elem_of_fmap.
  assert (Str.nonempty rel = true ↔ rel ≠ "") as ->; [by destruct rel|].
  split.
  - intros (? & line & -> & ?). eauto.
  - intros (? & line & ? & ->). eauto.
Qed.

(** X7: [collect_paths_from_uncommitted] asks git for three listings: the
    staged changes, the changes of the working tree and the untracked
    files.  When the three commands succeed the result is the set of the
    paths under a prefix that are in one of the first two listings or are a
    line of the third, taken without the white space around it and not
    empty. *)
Theorem collect_uncommitted_result W repo_dir prefixes :
  succeeds W (staged_cmd repo_dir) →
  succeeds W (unstaged_cmd repo_dir) →
  succeeds W (untracked_cmd repo_dir) →
  ∃ s, collect_paths_from_uncommitted W repo_dir prefixes
       = ([Git (staged_cmd repo_dir); Git (unstaged_cmd repo_dir);
           Git (untracked_cmd repo_dir)], Ret s)
       ∧ ∀ rel, rel ∈ s ↔
           is_under_prefixes rel prefixes = true
           ∧ (rel ∈ parse_name_status (stdout (git W (staged_cmd repo_dir)))
              ∨ rel ∈ parse_name_status (stdout (git W (unstaged_cmd repo_dir)))
              ∨ (rel ≠ ""
                 ∧ ∃ line, line ∈ Str.splitlines (stdout (git W (untracked_cmd repo_dir)))
                           ∧ rel = Str.strip line)).
Proof.
  intros H1 H2 H3. unfold collect_paths_from_uncommitted.
  fold (staged_cmd repo_dir) (unstaged_cmd repo_dir) (untracked_cmd repo_dir).
  eexists. split.
  - rewrite (bind_run_ok W (staged_cmd repo_dir)) by done.
    cbn [trace outcome fst snd]. rewrite ret_bind.
    rewrite (bind_run_ok W (unstaged_cmd repo_dir)) by done.
    cbn [trace outcome fst snd]. rewrite ret_bind.
    rewrite (bind_run_ok W (untracked_cmd repo_dir)) by done.
    reflexivity.
  - intros rel. rewrite !elem_of_add_under_prefixes, elem_of_untracked_lines.
    split.
    + intros [[[?%elem_of_empty|[? ?]]|[? ?]]|[? ?]]; [done|auto..].
    + intros [? [?|[?|?]]]; auto.
Qed.

Lemma collect_uncommitted_result_witness :
  let W := world_with_git
             (scripted_git
                [(untracked_cmd (of_string "/r"),
                  MkProc 0 ("package/new.m" +:+ newline +:+ newline +:+ "notes.txt" +:+ newline) "")])
  in
  ∃ s, collect_paths_from_uncommitted W (of_string "/r") ["package/"]
       = ([Git (staged_cmd (of_string "/r")); Git (unstaged_cmd (of_string "/r"));
           Git (untracked_cmd (of_string "/r"))], Ret s)
       ∧ ∀ rel, rel ∈ s ↔
           is_under_prefixes rel ["package/"] = true
           ∧ (rel ∈ parse_name_status (stdout (git W (staged_cmd (of_string "/r"))))
              ∨ rel ∈ parse_name_status (stdout (git W (unstaged_cmd (of_string "/r"))))
              ∨ (rel ≠ ""
                 ∧ ∃ line, line ∈ Str.splitlines
                                    (stdout (git W (untracked_cmd (of_string "/r"))))
                           ∧ rel = Str.strip line)).
Proof.
  intros W.
  apply (collect_uncommitted_result W (of_string "/r") ["package/"]); reflexivity.
Defined.

(** *** The questions of selector validation *)

Lemma for_each_events {A} (l : list A) (body : A → M unit) (e : A → event) :
  (∀ x, x ∈ l → body x = ([e x], Ret tt)) →
  for_each l body = (map e l, Ret tt).
Proof.
  induction l as [|x l IH]; intros H; [done|].
  cbn [for_each]. rewrite (H x) by by left.
  rewrite bind_pair_Ret, IH by (intros; apply H; by right). done.
Qed.

(** X8: when [ensure_selectors_are_ancestors] returns it has asked git one
    ancestry question per selector and nothing else: first for each commit,
    then for the tip of each range, in the order of the configuration. *)
Theorem validation_commands W repo_dir commits ranges target :
  outcome (ensure_selectors_are_ancestors W repo_dir commits ranges target) = Ret tt →
  ensure_selectors_are_ancestors W repo_dir commits ranges target
  = (map (λ c, Git (ancestor_cmd repo_dir c target)) (commits ++ map range_tip ranges),
     Ret tt).
Proof.
  rewrite ensure_selectors_outcome.
  destruct (forallb _ commits) eqn:Hc; [|done]. simpl.
  destruct (forallb _ ranges) eqn:Hr; [|done]. intros _.
  unfold ensure_selectors_are_ancestors.
  rewrite (for_each_events commits _ (λ c, Git (ancestor_cmd repo_dir c target))).
  2:{ intros c Hin%list_elem_of_In. rewrite forallb_forall in Hc.
      specialize (Hc c Hin). unfold is_ancestor in Hc.
      apply bool_decide_eq_true in Hc. unfold check_commit.
      fold (ancestor_cmd repo_dir c target). by rewrite bind_run_ok. }
  rewrite (for_each_events ranges _ (λ rng, Git (ancestor_cmd repo_dir (range_tip rng) target))).
  2:{ intros rng Hin%list_elem_of_In. rewrite forallb_forall in Hr.
      specialize (Hr rng Hin). unfold range_ok in Hr.
      apply andb_true_iff in Hr as [Hdots Hr]. unfold check_range, range_tip.
      rewrite Hdots. simpl negb. cbv iota.
      destruct (Str.partition ".." rng) as [[A B]|]; [|done].
      unfold is_ancestor in Hr. apply bool_decide_eq_true in Hr.
      fold (ancestor_cmd repo_dir B target). by rewrite bind_run_ok. }
  rewrite bind_pair_Ret. simpl. by rewrite map_app, map_map.
Qed.

Lemma validation_commands_witness :
  ensure_selectors_are_ancestors (example_world None [] []) (of_string "/r")
    ["c0ffee"] ["v1..v2"; "a..b..c"] "HEAD"
  = ([ Git (ancestor_cmd (of_string "/r") "c0ffee" "HEAD");
       Git (ancestor_cmd (of_string "/r") "v2" "HEAD");
       Git (ancestor_cmd (of_string "/r") "b..c" "HEAD") ], Ret tt).
Proof.
  apply (validation_commands (example_world None [] []) (of_string "/r")
           ["c0ffee"] ["v1..v2"; "a..b..c"] "HEAD").
  reflexivity.
Defined.

(** ** The effective baseline *)

Lemma lower_char_idemp a : Str.lower_char (Str.lower_char a) = Str.lower_char a.
Proof. by destruct a as [[] [] [] [] [] [] [] []]. Qed.

Lemma lower_idemp s : Str.lower (Str.lower s) = Str.lower s.
Proof. induction s as [|a s IH]; [done|]. simpl. by rewrite lower_char_idemp, IH. Qed.

Lemma lower_nonempty s : Str.nonempty (Str.lower s) = Str.nonempty s.
Proof. by destruct s. Qed.

(** X9: the name of the baseline mode is matched without regard to case:
    a name that is one of the three modes once it is in lower case selects
    that mode. *)
Theorem baseline_mode_ignores_case W repo_dir baseline_ref target_ref mode :
  Str.lower mode ∈ ["raw"; "merge-base"; "fork-point"] →
  resolve_effective_baseline W repo_dir baseline_ref target_ref mode
  = resolve_effective_baseline W repo_dir baseline_ref target_ref (Str.lower mode).
Proof.
  intros Hknown. unfold resolve_effective_baseline. cbv zeta.
  rewrite lower_nonempty.
  destruct (Str.nonempty mode) eqn:Hne.
  - rewrite lower_idemp.
    repeat (case_bool_decide; [done|]).
    exfalso. repeat (apply elem_of_cons in Hknown as [?|Hknown]; [done|]).
    by apply elem_of_nil in Hknown.
  - destruct mode; done.
Qed.

Lemma baseline_mode_ignores_case_witness :
  Str.lower "Merge-Base" ∈ ["raw"; "merge-base"; "fork-point"]
  ∧ resolve_effective_baseline (example_world None [] []) (of_string "/r")
      "origin/main" "HEAD" "Merge-Base"
    = resolve_effective_baseline (example_world None [] []) (of_string "/r")
        "origin/main" "HEAD" (Str.lower "Merge-Base").
Proof.
  assert (Str.lower "Merge-Base" ∈ ["raw"; "merge-base"; "fork-point"]) as H.
  { apply list_elem_of_In. vm_compute. right. by left. }
  split; [exact H|].
  exact (baseline_mode_ignores_case (example_world None [] []) (of_string "/r")
           "origin/main" "HEAD" "Merge-Base" H).
Defined.

(** X10: in mode [fork-point] the result is what the fork-point probe
    prints, without the white space around it, when the probe succeeds and
    prints something.  When it fails or prints nothing, nothing is reported
    for it: the next thing the run does is the plain merge-base command,
    whose output is the result, as in mode [merge-base]; and when that
    command fails too, the run prints
    [ERROR: git merge-base fallback failed for ...] with the error text of
    git and ends with [sys.exit(2)]. *)
Theorem fork_point_fallback W repo_dir baseline_ref target_ref :
  (succeeds W (fork_point_cmd repo_dir baseline_ref target_ref) →
   Str.strip (stdout (git W (fork_point_cmd repo_dir baseline_ref target_ref))) ≠ "" →
   resolve_effective_baseline W repo_dir baseline_ref target_ref "fork-point"
   = ([Git (fork_point_cmd repo_dir baseline_ref target_ref)],
      Ret (Str.strip (stdout (git W (fork_point_cmd repo_dir baseline_ref target_ref))))))
  ∧ (no_fork_point W repo_dir baseline_ref target_ref →
     outcome (resolve_effective_baseline W repo_dir baseline_ref target_ref "fork-point")
     = outcome (resolve_effective_baseline W repo_dir baseline_ref target_ref "merge-base")
     ∧ (succeeds W (merge_base_cmd repo_dir baseline_ref target_ref) →
        resolve_effective_baseline W repo_dir baseline_ref target_ref "fork-point"
        = ([ Git (fork_point_cmd repo_dir baseline_ref target_ref);
             Git (merge_base_cmd repo_dir baseline_ref target_ref) ],
           Ret (Str.strip
                  (stdout (git W (merge_base_cmd repo_dir baseline_ref target_ref))))))
     ∧ (¬ succeeds W (merge_base_cmd repo_dir baseline_ref target_ref) →
        resolve_effective_baseline W repo_dir baseline_ref target_ref "fork-point"
        = ([ Git (fork_point_cmd repo_dir baseline_ref target_ref);
             Git (merge_base_cmd repo_dir baseline_ref target_ref);
             Stderr ("ERROR: git merge-base fallback failed for " +:+ baseline_ref
                     +:+ " and " +:+ target_ref +:+ ":" +:+ newline
                     +:+ stderr (git W (merge_base_cmd repo_dir baseline_ref target_ref))) ],
           Exit 2))).
Proof.
  unfold resolve_effective_baseline. cbv zeta.
  change (Str.lower (if Str.nonempty "fork-point" then "fork-point" else "raw"))
    with "fork-point".
  change (Str.lower (if Str.nonempty "merge-base" then "merge-base" else "raw"))
    with "merge-base".
  rewrite !(bool_decide_false ("fork-point" = _)) by done.
  rewrite !(bool_decide_false ("merge-base" = "raw")) by done.
  rewrite !bool_decide_true by done.
  fold (fork_point_cmd repo_dir baseline_ref target_ref).
  fold (merge_base_cmd repo_dir baseline_ref target_ref).
  split.
  - intros Hok Hout. rewrite bind_run_ok by done.
    destruct (Str.strip _) eqn:E; [done|]. done.
  - intros Hno.
    assert (∀ msg,
      (run W (merge_base_cmd repo_dir baseline_ref target_ref) ≫= λ r,
         match r with
         | inl e => eprint (msg e) ;; sys_exit 2
         | inr p => mret (Str.strip (stdout p))
         end)
      = if decide (succeeds W (merge_base_cmd repo_dir baseline_ref target_ref))
        then ([Git (merge_base_cmd repo_dir baseline_ref target_ref)],
              Ret (Str.strip (stdout (git W (merge_base_cmd repo_dir baseline_ref target_ref)))))
        else ([Git (merge_base_cmd repo_dir baseline_ref target_ref);
               Stderr (msg (git W (merge_base_cmd repo_dir baseline_ref target_ref)))],
              Exit 2)) as Hmb.
    { intros msg. destruct (decide _).
      - by rewrite bind_run_ok.
      - by rewrite bind_run_failed. }
    rewrite (Hmb (λ e, "ERROR: git merge-base " +:+ "" +:+ "failed for " +:+ baseline_ref
                        +:+ " and " +:+ target_ref +:+ ":" +:+ newline +:+ stderr e)).
    destruct Hno as [Hfail|Hempty].
    + rewrite bind_run_failed by done. cbv iota.
      rewrite (Hmb (λ e, "ERROR: git merge-base " +:+ "fallback " +:+ "failed for "
                          +:+ baseline_ref +:+ " and " +:+ target_ref +:+ ":" +:+ newline
                          +:+ stderr e)).
      destruct (decide _); (split; [done|]); split; by intros ?.
    + destruct (decide (succeeds W (fork_point_cmd repo_dir baseline_ref target_ref)))
        as [Hok|Hfail].
      * rewrite (bind_run_ok W (fork_point_cmd _ _ _)) by done. cbv iota zeta.
        rewrite Hempty. cbn [Str.nonempty].
        rewrite (Hmb (λ e, "ERROR: git merge-base " +:+ "fallback " +:+ "failed for "
                          +:+ baseline_ref +:+ " and " +:+ target_ref +:+ ":" +:+ newline
                          +:+ stderr e)).
        destruct (decide (succeeds W (merge_base_cmd _ _ _)));
          (split; [done|]); split; by intros ?.
      * rewrite (bind_run_failed W (fork_point_cmd _ _ _)) by done. cbv iota.
        rewrite (Hmb (λ e, "ERROR: git merge-base " +:+ "fallback " +:+ "failed for "
                          +:+ baseline_ref +:+ " and " +:+ target_ref +:+ ":" +:+ newline
                          +:+ stderr e)).
        destruct (decide (succeeds W (merge_base_cmd _ _ _)));
          (split; [done|]); split; by intros ?.
Qed.


(** ** The writer *)

Lemma length_app_str s t : String.length (s +:+ t) = (String.length s + String.length t)%nat.
Proof. induction s as [|a s IH]; [done|]. rewrite app_cons. simpl. by rewrite IH. Qed.

Lemma name_cases p :
  wf_path p → (parts p = [] ∧ name p = "") ∨ (∃ l, parts p = l ++ [name p] ∧ good_part (name p)).
Proof.
  intros [_ Hp]. unfold name.
  destruct (parts p) as [|a l] using rev_ind; [by left|]. right.
  rewrite last_last. exists l. split; [done|].
  apply Forall_app in Hp as [_ Ha]. by inversion Ha.
Qed.

Lemma tmp_name_good p :
  wf_path p → good_part ("." +:+ name p +:+ ".tmp").
Proof.
  intros Hp. split; [done|]. split.
  - change ("." +:+ name p +:+ ".tmp") with (String "." (name p +:+ ".tmp")).
    intros [= H]. by apply app_empty_inv in H as [_ ?].
  - change ("." +:+ name p +:+ ".tmp") with (String "." (name p +:+ ".tmp")).
    simpl. rewrite has_char_app.
    destruct (name_cases p Hp) as [[_ ->]|(l & _ & (_ & _ & ->))]; done.
Qed.

Lemma tmp_path_parts p :
  wf_path p →
  tmp_path_of p
  = {| root := root p; parts := removelast (parts p) ++ ["." +:+ name p +:+ ".tmp"] |}.
Proof.
  intros Hp. unfold tmp_path_of.
  pose proof (of_string_join ["." +:+ name p +:+ ".tmp"]) as H.
  change (Str.join "/" ["." +:+ name p +:+ ".tmp"]) with ("." +:+ name p +:+ ".tmp") in H.
  rewrite H; [done|done|]. constructor; [by apply tmp_name_good|constructor].
Qed.

Lemma tmp_path_wf p : wf_path p → wf_path (tmp_path_of p).
Proof.
  intros Hp. unfold tmp_path_of. apply joinpath_wf; [by apply parent_wf|apply of_string_wf].
Qed.

Lemma as_posix_inj p q : wf_path p → wf_path q → as_posix p = as_posix q → p = q.
Proof.
  intros Hp Hq H. by rewrite <- (of_string_as_posix p), <- (of_string_as_posix q), H.
Qed.

Lemma tmp_path_differs p : wf_path p → as_posix (tmp_path_of p) ≠ as_posix p.
Proof.
  intros Hp H. apply as_posix_inj in H; [|by apply tmp_path_wf|done].
  rewrite tmp_path_parts in H by done.
  destruct p as [r ps]. injection H as H. cbn [parts] in H.
  destruct (name_cases _ Hp) as [[Hps Hn]|(l & Hps & _)]; cbn [parts] in Hps.
  - rewrite Hps in H. done.
  - rewrite Hps in H at 1 3. rewrite removelast_last in H.
    apply app_inv_head in H. injection H as H.
    apply (f_equal String.length) in H.
    change ("." +:+ ?n +:+ ".tmp") with (String "." (n +:+ ".tmp")) in H.
    simpl in H. rewrite length_app_str in H. simpl in H. lia.
Qed.

Lemma tmp_path_parent p : wf_path p → parent (tmp_path_of p) = parent p.
Proof.
  intros Hp. rewrite tmp_path_parts by done. unfold parent. cbn [root parts].
  by rewrite removelast_last.
Qed.

(** X11: [write_atomic_lines] writes the lines to a temporary file in the
    directory of the output file, whose name is the name of the output file
    with a dot in front and [.tmp] behind, and then moves it over the
    output file.  When it returns, the output file holds the lines and the
    temporary file is gone; when the write or the move fails, the output
    file is as it was. *)
Theorem write_atomic_lines_effect W out_path lines fs :
  wf_path out_path →
  parent (tmp_path_of out_path) = parent out_path
  ∧ name (tmp_path_of out_path) = "." +:+ name out_path +:+ ".tmp"
  ∧ as_posix (tmp_path_of out_path) ≠ as_posix out_path
  ∧ match outcome (write_atomic_lines W out_path lines) with
    | Ret p =>
        p = out_path
        ∧ fs_after fs (trace (write_atomic_lines W out_path lines))
          = <[as_posix out_path := file_content lines]>
              (delete (as_posix (tmp_path_of out_path)) fs)
    | Raise _ =>
        fs_after fs (trace (write_atomic_lines W out_path lines)) !! as_posix out_path
        = fs !! as_posix out_path
    | Exit _ => False
    end.
Proof.
  intros Hwf. split; [by apply tmp_path_parent|]. split.
  { rewrite tmp_path_parts by done. unfold name. cbn [parts]. by rewrite last_last. }
  pose proof (tmp_path_differs out_path Hwf) as Hne. split; [done|].
  unfold write_atomic_lines. fold (tmp_path_of out_path).
  destruct (fs_can_write W _); [|done].
  destruct (fs_can_replace W _ _); simpl.
  - split; [done|]. rewrite lookup_insert_eq. by rewrite delete_insert_eq.
  - by rewrite lookup_insert_ne.
Qed.

Lemma write_atomic_lines_effect_witness :
  wf_path (of_string "/r/.magma_overlay.spec")
  ∧ as_posix (tmp_path_of (of_string "/r/.magma_overlay.spec")) = "/r/..magma_overlay.spec.tmp"
  ∧ fs_after {["/r/.magma_overlay.spec" := "old"]}
      (trace (write_atomic_lines (example_world None [] [])
                (of_string "/r/.magma_overlay.spec") ["{"; "}"]))
    = <[ "/r/.magma_overlay.spec" := file_content ["{"; "}"] ]>
        (delete (as_posix (tmp_path_of (of_string "/r/.magma_overlay.spec")))
           {["/r/.magma_overlay.spec" := "old"]}).
Proof.
  pose proof (of_string_wf "/r/.magma_overlay.spec") as Hwf.
  split; [exact Hwf|]. split; [reflexivity|].
  pose proof (write_atomic_lines_effect (example_world None [] [])
                (of_string "/r/.magma_overlay.spec") ["{"; "}"]
                {["/r/.magma_overlay.spec" := "old"]} Hwf) as (_ & _ & _ & H).
  exact (proj2 H).
Defined.

Lemma split_file_content lines :
  Forall (λ l, has_char "010" l = false) lines →
  Str.split "010" (file_content lines) = lines ++ [""].
Proof.
  unfold file_content. induction 1 as [|l ls Hl _ IH]; [done|].
  assert (String.concat "" (map (λ l, l +:+ newline) (l :: ls))
          = l +:+ String "010" (String.concat "" (map (λ l, l +:+ newline) ls))) as ->.
  { simpl. destruct (map _ ls) eqn:E; [done|]. by rewrite !str_app_assoc. }
  by rewrite split_app_sep, split_no_char, IH.
Qed.

(** X12: the file that [write_atomic_lines] writes has one line per entry,
    in the order given, each ended by a newline: split at the newlines it
    gives the entries back, followed by the empty rest after the last
    newline. *)
Theorem written_file_lines W out_path lines tmp content :
  Forall (λ l, has_char "010" l = false) lines →
  WriteFile tmp content ∈ trace (write_atomic_lines W out_path lines) →
  Str.split "010" content = lines ++ [""].
Proof.
  intros Hlines. unfold write_atomic_lines.
  destruct (fs_can_write W _); [|by intros ?%elem_of_nil].
  destruct (fs_can_replace W _ _); cbn -[file_content].
  - intros [[= _ ->]|Hin]%elem_of_cons; [by apply split_file_content|].
    apply elem_of_cons in Hin as [?|?%elem_of_nil]; done.
  - intros [= _ ->]%list_elem_of_singleton. by apply split_file_content.
Qed.

Lemma written_file_lines_witness :
  Forall (λ l, has_char "010" l = false) ["{"; "+package/a/y.spec"; "package/a/x.m"; "}"]
  ∧ Str.split "010" (file_content ["{"; "+package/a/y.spec"; "package/a/x.m"; "}"])
    = ["{"; "+package/a/y.spec"; "package/a/x.m"; "}"; ""].
Proof.
  assert (Forall (λ l, has_char "010" l = false)
            ["{"; "+package/a/y.spec"; "package/a/x.m"; "}"]) as H
    by repeat constructor.
  split; [exact H|].
  apply (written_file_lines (example_world None [] []) (of_string "/r/out.spec")
           ["{"; "+package/a/y.spec"; "package/a/x.m"; "}"] "/r/.out.spec.tmp" _ H).
  apply list_elem_of_In. vm_compute. by left.
Defined.

Section RetEmits.
Context (P : event → Prop).

Lemma ret_emits_ret {A} (a : A) : ret_emits P (mret a).
Proof. intros ? _. constructor. Qed.
Lemma ret_emits_no_ret {A} (m : M A) : (∀ a, outcome m ≠ Ret a) → ret_emits P m.
Proof. intros H a Ha. by destruct (H a). Qed.
Lemma ret_emits_emits {A} (m : M A) : emits P m → ret_emits P m.
Proof. by intros H a _. Qed.
Lemma ret_emits_bind {A B} (m : M A) (f : A → M B) :
  ret_emits P m → (∀ a, ret_emits P (f a)) → ret_emits P (m ≫= f).
Proof.
  intros Hm Hf b Hb. apply bind_Ret_inv in Hb as (a & Ha & Hb & ->).
  apply Forall_app. split; [by eapply Hm|by eapply Hf].
Qed.
Lemma ret_emits_for_each {A} (l : list A) body :
  (∀ x, ret_emits P (body x)) → ret_emits P (for_each l body).
Proof.
  intros H. induction l; simpl; [apply ret_emits_ret|].
  apply ret_emits_bind; auto.
Qed.
Lemma ret_emits_fold_m {A S} (l : list A) (body : S → A → M S) s :
  (∀ s x, ret_emits P (body s x)) → ret_emits P (fold_m l body s).
Proof.
  intros H. revert s. induction l; intros s; simpl; [apply ret_emits_ret|].
  apply ret_emits_bind; auto.
Qed.
Lemma ret_emits_run {B} W cmd (k : CompletedProcess + CompletedProcess → M B) :
  (succeeds W cmd → P (Git cmd) ∧ ret_emits P (k (inr (git W cmd)))) →
  (¬ succeeds W cmd →
   (∀ b, outcome (k (inl (git W cmd))) ≠ Ret b)
   ∨ (P (Git cmd) ∧ ret_emits P (k (inl (git W cmd))))) →
  ret_emits P (run W cmd ≫= k).
Proof.
  intros Hok Hfail b. destruct (decide (succeeds W cmd)) as [Hs|Hf].
  - rewrite bind_run_ok by done. simpl. intros Hb.
    destruct (Hok Hs) as [HP Hk]. constructor; [done|]. by eapply Hk.
  - rewrite bind_run_failed by done. simpl. intros Hb.
    destruct (Hfail Hf) as [Hno|[HP Hk]]; [by destruct (Hno b)|].
    constructor; [done|]. by eapply Hk.
Qed.
End RetEmits.

(** ** What a run that succeeds has done *)

Ltac ret_step tac :=
  lazymatch goal with
  | |- ret_emits _ (mret _) => apply ret_emits_ret
  | |- ret_emits _ (sys_exit _) => by apply ret_emits_no_ret
  | |- ret_emits _ (raise _) => by apply ret_emits_no_ret
  | |- ret_emits _ (eprint _ ≫= λ _, sys_exit _) => by apply ret_emits_no_ret
  | |- ret_emits _ (run _ _ ≫= _) =>
      apply ret_emits_run;
      [ intros ?; split; [tac|]
      | intros ?; first [ by left | right; split; [tac|] ] ]
  | |- ret_emits _ (_ ≫= _) => apply ret_emits_bind; [|intros]
  | |- ret_emits _ (for_each _ _) => apply ret_emits_for_each; intros
  | |- ret_emits _ (fold_m _ _ _) => apply ret_emits_fold_m; intros
  | |- ret_emits _ (match ?x with _ => _ end) => destruct x
  | |- ret_emits _ ((match ?x with _ => _ end) _) => destruct x
  | |- ret_emits _ _ => progress cbv beta iota zeta
  end.

Section WentWell.
Context (order : list string → list string) (W : World).

Local Ltac go :=
  repeat ret_step ltac:(first [ by left | by right; eexists _, _, _ ]).

Lemma well_resolve p : ret_emits (went_well W) (resolve W p).
Proof. unfold resolve. go. Qed.
Lemma well_expanduser p : ret_emits (went_well W) (expanduser W p).
Proof. unfold expanduser. go. Qed.
Lemma well_load_config p : ret_emits (went_well W) (load_config W p).
Proof. unfold load_config. go. Qed.
Lemma well_resolve_repo_dir cfg p :
  ret_emits (went_well W) (resolve_repo_dir_from_config W cfg p).
Proof.
  unfold resolve_repo_dir_from_config. go; auto using well_resolve, well_expanduser.
Qed.
Lemma well_maybe_fetch r b : ret_emits (went_well W) (maybe_fetch W r b).
Proof. unfold maybe_fetch. go. Qed.
Lemma well_ensure_target_exists r t : ret_emits (went_well W) (ensure_target_exists W r t).
Proof. unfold ensure_target_exists. go. Qed.
Lemma well_ensure_selectors r cs rs t :
  ret_emits (went_well W) (ensure_selectors_are_ancestors W r cs rs t).
Proof. unfold ensure_selectors_are_ancestors, check_commit, check_range. go. Qed.
Lemma well_resolve_effective_baseline r b t m :
  ret_emits (went_well W) (resolve_effective_baseline W r b t m).
Proof. unfold resolve_effective_baseline. go. Qed.
Lemma well_collect_diff r b t ps :
  ret_emits (went_well W) (collect_paths_from_diff W r b t ps).
Proof. unfold collect_paths_from_diff. go. Qed.
Lemma well_collect_commits r cs ps :
  ret_emits (went_well W) (collect_paths_from_commits W r cs ps).
Proof. unfold collect_paths_from_commits. go. Qed.
Lemma well_collect_ranges r rs ps :
  ret_emits (went_well W) (collect_paths_from_ranges W r rs ps).
Proof. unfold collect_paths_from_ranges. go. Qed.
Lemma well_collect_uncommitted r ps :
  ret_emits (went_well W) (collect_paths_from_uncommitted W r ps).
Proof. unfold collect_paths_from_uncommitted. go. Qed.
Lemma well_normalize_explicit ps r pre :
  ret_emits (went_well W) (normalize_and_apply_explicit_paths W ps r pre).
Proof.
  unfold normalize_and_apply_explicit_paths, apply_explicit_path,
    normalize_explicit_path. go; auto using well_expanduser.
Qed.
Lemma well_materialize r rp es :
  ret_emits (went_well W) (materialize_and_classify order W r rp es).
Proof. unfold materialize_and_classify, classify_one. go; auto using well_resolve. Qed.
Lemma well_resolve_all s : ret_emits (went_well W) (resolve_all order W s).
Proof. unfold resolve_all. go; auto using well_resolve. Qed.
Lemma well_resolve_include_specs r l :
  ret_emits (went_well W) (resolve_include_specs W r l).
Proof. unfold resolve_include_specs. go; auto using well_resolve, well_expanduser. Qed.
Lemma well_choose_out_path r o : ret_emits (went_well W) (choose_out_path W r o).
Proof. unfold choose_out_path. go; auto using well_resolve, well_expanduser. Qed.
Lemma well_write_atomic_lines p l : ret_emits (went_well W) (write_atomic_lines W p l).
Proof.
  apply ret_emits_emits. unfold write_atomic_lines. emits_solve ltac:(exact I).
Qed.

End WentWell.

Lemma listing_no_ret (h : string) (l : list string) (f : string → string) a :
  outcome (eprint h ;; for_each l (λ x, eprint (f x)) ;; @sys_exit unit 2) ≠ Ret a.
Proof. by rewrite for_each_eprint. Qed.

(** X13: a run that succeeds has printed nothing on the diagnostic stream
    but one warning for each path that was dropped, and every git command
    it has run has succeeded, the fork-point probe apart. *)
Theorem successful_run_went_well order W args :
  outcome (main order W args) = Ret tt →
  Forall (went_well W) (trace (main order W args)).
Proof.
  intros Hret.
  assert (ret_emits (went_well W) (main order W args)) as Hall.
  { clear Hret. unfold main.
    repeat first
      [ lazymatch goal with
        | |- ret_emits _ (eprint _ ≫= λ _, for_each _ _ ≫= λ _, sys_exit _) =>
            apply ret_emits_no_ret; intros; apply listing_no_ret
        | |- ret_emits _ (for_each _ (λ _, eprint _)) =>
            apply ret_emits_for_each; intros; apply ret_emits_emits, emits_emit;
            by eexists
        | |- ret_emits _ (print _) => apply ret_emits_emits, emits_emit; exact I
        | |- ret_emits _ (let '(_, _) := ?x in _) => destruct x
        end
      | by eauto using well_resolve, well_load_config, well_resolve_repo_dir,
          well_maybe_fetch, well_ensure_target_exists, well_ensure_selectors,
          well_resolve_effective_baseline, well_collect_diff, well_collect_commits,
          well_collect_ranges, well_collect_uncommitted, well_normalize_explicit,
          well_materialize, well_resolve_all, well_resolve_include_specs,
          well_choose_out_path, well_write_atomic_lines
      | ret_step ltac:(fail) ]. }
  exact (Hall tt Hret).
Qed.

Lemma successful_run_went_well_witness :
  outcome (main id world_dropped_path example_args) = Ret tt
  ∧ Stderr "WARNING: path missing at target and was dropped: package/a/x.m"
      ∈ trace (main id world_dropped_path example_args)
  ∧ Forall (went_well world_dropped_path)
      (trace (main id world_dropped_path example_args)).
Proof.
  assert (Stderr "WARNING: path missing at target and was dropped: package/a/x.m"
            ∈ trace (main id world_dropped_path example_args)) as Hwarn.
  { apply list_elem_of_In. vm_compute. repeat (first [left; reflexivity | right]). }
  assert (outcome (main id world_dropped_path example_args) = Ret tt) as H
    by (vm_compute; reflexivity).
  split; [exact H|]. split; [exact Hwarn|].
  exact (successful_run_went_well id world_dropped_path example_args H).
Defined.

(** ** The git commands of a run *)

Lemma elem_trace_bind {A B} (m : M A) (f : A → M B) e :
  e ∈ trace (m ≫= f) → e ∈ trace m ∨ ∃ a, outcome m = Ret a ∧ e ∈ trace (f a).
Proof.
  destruct (outcome m) as [a|c|exn] eqn:Hr.
  - rewrite (bind_Ret_eq _ _ _ Hr). simpl. intros [?|?]%elem_of_app; eauto.
  - rewrite (bind_Exit _ _ _ Hr). by left.
  - rewrite (bind_Raise _ _ _ Hr). by left.
Qed.

Section Startup.
Context (W : World).
Abbreviation no_git := (emits (λ e, is_git e = false)).
Local Ltac go := emits_solve ltac:(done).

Lemma no_git_resolve p : no_git (resolve W p).
Proof. unfold resolve. go. Qed.
Lemma no_git_expanduser p : no_git (expanduser W p).
Proof. unfold expanduser. go. Qed.
Lemma no_git_load_config p : no_git (load_config W p).
Proof. unfold load_config. go. Qed.
Lemma no_git_resolve_repo_dir cfg p : no_git (resolve_repo_dir_from_config W cfg p).
Proof.
  unfold resolve_repo_dir_from_config. go; auto using no_git_resolve, no_git_expanduser.
Qed.
Lemma no_git_elem {A} (m : M A) cmd : no_git m → Git cmd ∉ trace m.
Proof.
  intros H Hin. unfold emits in H. rewrite Forall_forall in H. by specialize (H _ Hin).
Qed.
End Startup.

Section RepoEvents.
Context (order : list string → list string) (W : World).
Context (r : Path) (fetch : bool).
Abbreviation ok := (emits (repo_event (as_posix r) fetch)).

Local Ltac query :=
  first
    [ exact I
    | left; eexists _, _; split; [reflexivity|];
      apply list_elem_of_In; simpl; tauto ].
Local Ltac go := emits_solve query.

Lemma repo_resolve p : ok (resolve W p).
Proof. unfold resolve. go. Qed.
Lemma repo_expanduser p : ok (expanduser W p).
Proof. unfold expanduser. go. Qed.
Lemma repo_run cmd : repo_command (as_posix r) fetch cmd → ok (run W cmd).
Proof. intros H. unfold run. emits_solve ltac:(exact H). Qed.
Lemma repo_maybe_fetch : ok (maybe_fetch W r fetch).
Proof.
  unfold maybe_fetch. destruct (negb fetch) eqn:E; [apply emits_ret|].
  apply negb_false_iff in E.
  apply emits_bind; [apply repo_run; by right|]. intros []; go.
Qed.

Local Ltac go' :=
  unfold run;
  go; auto using repo_resolve, repo_expanduser.

Lemma repo_ensure_target_exists t : ok (ensure_target_exists W r t).
Proof. unfold ensure_target_exists. go'. Qed.
Lemma repo_ensure_selectors cs rs t : ok (ensure_selectors_are_ancestors W r cs rs t).
Proof. unfold ensure_selectors_are_ancestors, check_commit, check_range. go'. Qed.
Lemma repo_resolve_effective_baseline b t m : ok (resolve_effective_baseline W r b t m).
Proof. unfold resolve_effective_baseline. go'. Qed.
Lemma repo_collect_diff b t ps : ok (collect_paths_from_diff W r b t ps).
Proof. unfold collect_paths_from_diff. go'. Qed.
Lemma repo_collect_commits cs ps : ok (collect_paths_from_commits W r cs ps).
Proof. unfold collect_paths_from_commits. go'. Qed.
Lemma repo_collect_ranges rs ps : ok (collect_paths_from_ranges W r rs ps).
Proof. unfold collect_paths_from_ranges. go'. Qed.
Lemma repo_collect_uncommitted ps : ok (collect_paths_from_uncommitted W r ps).
Proof. unfold collect_paths_from_uncommitted. go'. Qed.
Lemma repo_normalize_explicit ps pre : ok (normalize_and_apply_explicit_paths W ps r pre).
Proof.
  unfold normalize_and_apply_explicit_paths, apply_explicit_path,
    normalize_explicit_path. go'.
Qed.
Lemma repo_materialize rp es : ok (materialize_and_classify order W r rp es).
Proof. unfold materialize_and_classify, classify_one. go'. Qed.
Lemma repo_resolve_all s : ok (resolve_all order W s).
Proof. unfold resolve_all. go'. Qed.
Lemma repo_resolve_include_specs l : ok (resolve_include_specs W r l).
Proof. unfold resolve_include_specs. go'. Qed.
Lemma repo_choose_out_path o : ok (choose_out_path W r o).
Proof. unfold choose_out_path. go'. Qed.
Lemma repo_write_atomic_lines p l : ok (write_atomic_lines W p l).
Proof. unfold write_atomic_lines. go'. Qed.

End RepoEvents.

(** X14: every git command of a run is issued after the configuration has
    been read and the repository directory has been found to exist; it is
    [git -C <repo_dir>] followed by one of the read-only queries
    [rev-parse], [merge-base], [diff], [diff-tree] and [ls-files], or it is
    [git -C <repo_dir> fetch --prune] and the configuration sets [fetch]. *)
Theorem git_commands order W args cmd :
  Git cmd ∈ trace (main order W args) →
  ∃ cfg_path cfg repo_dir,
    repository_found W args cfg_path cfg repo_dir
    ∧ repo_command (as_posix repo_dir) (default false (cfg_fetch cfg)) cmd.
Proof.
  unfold main. intros H.
  apply elem_trace_bind in H as [H|(cfg_path & H1 & H)];
    [by apply no_git_elem in H; [|apply no_git_resolve]|].
  apply elem_trace_bind in H as [H|([] & H2 & H)].
  { apply no_git_elem in H; [done|]. emits_solve ltac:(done). }
  assert (is_file W cfg_path = true) as Hfile.
  { by destruct (is_file W cfg_path). }
  apply elem_trace_bind in H as [H|(cfg & H3 & H)];
    [by apply no_git_elem in H; [|apply no_git_load_config]|].
  apply load_config_yields in H3.
  apply elem_trace_bind in H as [H|(repo_dir & H4 & H)];
    [by apply no_git_elem in H; [|apply no_git_resolve_repo_dir]|].
  cbv zeta in H.
  apply elem_trace_bind in H as [H|([] & H5 & H)].
  { apply no_git_elem in H; [done|]. emits_solve ltac:(done). }
  assert (is_dir W repo_dir = true) as Hdir.
  { by destruct (is_dir W repo_dir). }
  exists cfg_path, cfg, repo_dir. split; [done|].
  match type of H with
  | _ ∈ trace ?m =>
      assert (emits (repo_event (as_posix repo_dir) (default false (cfg_fetch cfg))) m)
        as Hall
  end.
  { repeat first
      [ apply emits_bind;
        [ first
            [ by eauto using repo_maybe_fetch, repo_ensure_target_exists,
                repo_ensure_selectors, repo_resolve_effective_baseline,
                repo_collect_diff, repo_collect_commits, repo_collect_ranges,
                repo_collect_uncommitted, repo_normalize_explicit, repo_materialize,
                repo_resolve_all, repo_resolve_include_specs, repo_choose_out_path,
                repo_write_atomic_lines
            | emits_solve ltac:(exact I); eauto using repo_collect_uncommitted ]
        | intros ]
      | lazymatch goal with
        | |- emits _ (let '(_, _) := ?x in _) => destruct x
        end
      | progress cbv zeta
      | by emits_solve ltac:(exact I) ]. }
  unfold emits in Hall. rewrite Forall_forall in Hall. exact (Hall _ H).
Qed.

Lemma git_commands_witness :
  Git (diff_cmd (of_string "/r") "origin/main" "HEAD")
    ∈ trace (main id world_unchecked_explicit example_args)
  ∧ ∃ cfg_path cfg repo_dir,
      repository_found world_unchecked_explicit example_args cfg_path cfg repo_dir
      ∧ repo_command (as_posix repo_dir) (default false (cfg_fetch cfg))
          (diff_cmd (of_string "/r") "origin/main" "HEAD").
Proof.
  assert (Git (diff_cmd (of_string "/r") "origin/main" "HEAD")
            ∈ trace (main id world_unchecked_explicit example_args)) as H.
  { apply list_elem_of_In. vm_compute. repeat (first [by left | right]). }
  split; [exact H|].
  exact (git_commands id world_unchecked_explicit example_args _ H).
Defined.

(** *** The checks at the start *)

Lemma trace_resolve W p : trace (resolve W p) = [].
Proof. unfold resolve. by destruct (fs_resolve W _). Qed.

Lemma trace_load_config W p : trace (load_config W p) = [].
Proof. unfold load_config. by destruct (toml W _). Qed.

Lemma trace_resolve_repo_dir W cfg p a :
  outcome (resolve_repo_dir_from_config W cfg p) = Ret a →
  trace (resolve_repo_dir_from_config W cfg p) = [].
Proof.
  unfold resolve_repo_dir_from_config. destruct (cfg_repo_dir cfg); [|done].
  intros (rd & Hrd & _ & ->)%bind_Ret_inv.
  rewrite trace_expanduser. simpl. destruct (is_absolute rd); apply trace_resolve.
Qed.

(** X15: the three checks at the start of a run.  A configuration path that
    is no file, a configuration without [repo_dir] and a repository
    directory that is no directory each end the run with [sys.exit(2)]
    after one message; nothing else has happened by then: no git command,
    no file written. *)
Theorem startup_checks order W args cfg_path :
  outcome (resolve W (of_string (arg_config args))) = Ret cfg_path →
  (is_file W cfg_path = false →
   main order W args
   = ([Stderr ("ERROR: config not found: " +:+ as_posix cfg_path)], Exit 2))
  ∧ (∀ cfg,
       is_file W cfg_path = true →
       toml W (as_posix cfg_path) = Some cfg →
       (cfg_repo_dir cfg = None →
        main order W args
        = ([Stderr "ERROR: config must define 'repo_dir' (absolute or relative to the TOML)."],
           Exit 2))
       ∧ (∀ repo_dir,
            outcome (resolve_repo_dir_from_config W cfg cfg_path) = Ret repo_dir →
            is_dir W repo_dir = false →
            main order W args
            = ([Stderr ("ERROR: repo_dir does not exist: " +:+ as_posix repo_dir)],
               Exit 2))).
Proof.
  intros H1. unfold main. rewrite (bind_Ret_eq _ _ _ H1), trace_resolve.
  split; [intros Hfile; by rewrite Hfile|].
  intros cfg Hfile Htoml. rewrite Hfile. simpl negb. cbv iota. rewrite ret_bind.
  assert (load_config W cfg_path = mret cfg) as -> by (unfold load_config; by rewrite Htoml).
  rewrite ret_bind. split.
  - intros Hnone. unfold resolve_repo_dir_from_config. by rewrite Hnone.
  - intros repo_dir H4 Hdir.
    rewrite (bind_Ret_eq _ _ _ H4), (trace_resolve_repo_dir _ _ _ _ H4).
    cbv zeta. by rewrite Hdir.
Qed.

Lemma startup_checks_witness :
  outcome (resolve world_no_repo (of_string (arg_config example_args)))
  = Ret (of_string "/r/overlay.toml")
  ∧ main id world_no_repo example_args
    = ([Stderr "ERROR: repo_dir does not exist: /r"], Exit 2).
Proof.
  assert (outcome (resolve world_no_repo (of_string (arg_config example_args)))
          = Ret (of_string "/r/overlay.toml")) as H by reflexivity.
  split; [exact H|].
  destruct (startup_checks id world_no_repo example_args _ H) as [_ H'].
  destruct (H' (example_config [] [] [] [] None None) eq_refl eq_refl) as [_ H''].
  exact (H'' (of_string "/r") eq_refl eq_refl).
Defined.

(** ** Absolute selectors and the classifier *)

Lemma relative_to_join p other rel :
  relative_to p other = Some rel → other // rel = p ∧ root rel = "" ∧ 
  parts rel = list.drop (length (parts other)) (parts p).
Proof.
  unfold relative_to. case_bool_decide as Hr; [|done].
  case_bool_decide as Hp; [|done]. simpl. intros [= <-].
  split; [|done]. unfold joinpath. simpl.
  destruct Hp as [k Hk]. destruct p as [rp pp]. simpl in *. subst.
  by rewrite drop_app_length.
Qed.

Lemma relative_to_none p other rel :
  relative_to p other = None → is_absolute rel = false → other // rel ≠ p.
Proof.
  unfold relative_to, joinpath. intros H Hrel Heq. rewrite Hrel in Heq. subst p.
  simpl in H. rewrite bool_decide_true in H by done.
  rewrite bool_decide_true in H by (by eexists). done.
Qed.

(** X16: an explicit selector that is absolute once [~] is expanded is
    resolved and made relative to the repository directory: the selector
    that is recorded, joined to the repository directory, is the resolved
    path again.  When the resolved path does not lie in the repository
    directory the run ends with [sys.exit(2)] after a message, and when the
    path cannot be resolved with another. *)
Theorem absolute_selector_normalized W repo_dir pth p :
  outcome (expanduser W (of_string pth)) = Ret p →
  is_absolute p = true →
  match fs_resolve W (as_posix p) with
  | None =>
      normalize_explicit_path W repo_dir pth
      = ([Stderr ("ERROR: invalid explicit path: " +:+ pth)], Exit 2)
  | Some s =>
      (∃ rel_s, normalize_explicit_path W repo_dir pth = mret rel_s
                ∧ is_absolute (of_string rel_s) = false
                ∧ repo_dir // of_string rel_s = of_string s)
      ∨ (normalize_explicit_path W repo_dir pth
         = ([Stderr ("ERROR: explicit path not under repo_dir: " +:+ pth)], Exit 2)
         ∧ ∀ rel, is_absolute rel = false → repo_dir // rel ≠ of_string s)
  end.
Proof.
  intros Hp Habs. unfold normalize_explicit_path.
  rewrite (bind_Ret_eq _ _ _ Hp), trace_expanduser, Habs.
  destruct (fs_resolve W (as_posix p)) as [s|]; [|done].
  destruct (relative_to (of_string s) repo_dir) as [rel|] eqn:Hrel.
  - left. exists (as_posix rel). split; [done|].
    destruct (relative_to_join _ _ _ Hrel) as (Hjoin & Hroot & Hparts).
    assert (wf_path rel) as Hwf.
    { split; [by left|]. rewrite Hparts. apply Forall_drop, of_string_wf. }
    rewrite of_string_as_posix by done. split; [|done].
    unfold is_absolute. by rewrite Hroot.
  - right. split; [done|]. intros rel. by apply relative_to_none.
Qed.

Lemma absolute_selector_normalized_witness :
  outcome (expanduser world_malformed_config (of_string "/r/package/sub/../x.m"))
  = Ret (of_string "/r/package/sub/../x.m")
  ∧ is_absolute (of_string "/r/package/sub/../x.m") = true
  ∧ ((∃ rel_s,
        normalize_explicit_path world_malformed_config (of_string "/r")
          "/r/package/sub/../x.m" = mret rel_s
        ∧ is_absolute (of_string rel_s) = false
        ∧ of_string "/r" // of_string rel_s = of_string "/r/package/x.m")
     ∨ (normalize_explicit_path world_malformed_config (of_string "/r")
          "/r/package/sub/../x.m"
        = ([Stderr ("ERROR: explicit path not under repo_dir: " +:+ "/r/package/sub/../x.m")],
           Exit 2)
        ∧ ∀ rel, is_absolute rel = false →
                 of_string "/r" // rel ≠ of_string "/r/package/x.m")).
Proof.
  assert (outcome (expanduser world_malformed_config (of_string "/r/package/sub/../x.m"))
          = Ret (of_string "/r/package/sub/../x.m")) as H1 by reflexivity.
  assert (is_absolute (of_string "/r/package/sub/../x.m") = true) as H2 by reflexivity.
  split; [exact H1|]. split; [exact H2|].
  exact (absolute_selector_normalized world_malformed_config (of_string "/r")
           "/r/package/sub/../x.m" _ H1 H2).
Defined.

(** the selector [/r/package/sub/../x.m] is recorded as [package/x.m] *)
Example absolute_selector_scenario :
  normalize_explicit_path world_malformed_config (of_string "/r") "/r/package/sub/../x.m"
  = mret "package/x.m".
Proof. reflexivity. Qed.

(** *** The classifier *)

Lemma classify_one_cases W repo_dir explicit_set acc rel acc' :
  outcome (classify_one W repo_dir explicit_set acc rel) = Ret acc' →
  trace (classify_one W repo_dir explicit_set acc rel) = []
  ∧ acc' =
    if present W repo_dir rel then
      if Str.endswith rel ".spec" then
        MkClassified (abs_spec acc ∪ {[abs_of repo_dir rel]}) (abs_m acc)
          (missing_explicit acc) (dropped_missing acc)
      else if Str.endswith rel ".m" then
        MkClassified (abs_spec acc) (abs_m acc ∪ {[abs_of repo_dir rel]})
          (missing_explicit acc) (dropped_missing acc)
      else acc
    else if bool_decide (rel ∈ explicit_set) then
      MkClassified (abs_spec acc) (abs_m acc) (missing_explicit acc ++ [rel])
        (dropped_missing acc)
    else
      MkClassified (abs_spec acc) (abs_m acc) (missing_explicit acc)
        (dropped_missing acc ++ [rel]).
Proof.
  unfold classify_one, present, resolve, exists_, abs_of.
  destruct (fs_resolve W _) as [s|]; [|done]. rewrite ret_bind.
  destruct (fs_exists W _); simpl.
  - destruct (Str.endswith rel ".spec"); [by intros [= <-]|].
    destruct (Str.endswith rel ".m"); by intros [= <-].
  - destruct (bool_decide _); by intros [= <-].
Qed.

Lemma classify_fold W repo_dir explicit_set l acc cl :
  outcome (fold_m l (classify_one W repo_dir explicit_set) acc) = Ret cl →
  trace (fold_m l (classify_one W repo_dir explicit_set) acc) = []
  ∧ abs_spec cl
    = abs_spec acc
      ∪ list_to_set (map (abs_of repo_dir)
          (filter (λ rel, present W repo_dir rel = true
                          ∧ Str.endswith rel ".spec" = true) l))
  ∧ abs_m cl
    = abs_m acc
      ∪ list_to_set (map (abs_of repo_dir)
          (filter (λ rel, present W repo_dir rel = true
                          ∧ Str.endswith rel ".spec" = false
                          ∧ Str.endswith rel ".m" = true) l))
  ∧ missing_explicit cl
    = missing_explicit acc
      ++ filter (λ rel, present W repo_dir rel = false ∧ rel ∈ explicit_set) l
  ∧ dropped_missing cl
    = dropped_missing acc
      ++ filter (λ rel, present W repo_dir rel = false ∧ rel ∉ explicit_set) l.
Proof.
  revert acc. induction l as [|rel l IH]; intros acc.
  - intros [= <-]. simpl. rewrite !filter_nil. simpl.
    rewrite !app_nil_r. repeat split; set_solver.
  - cbn [fold_m]. intros (acc' & Hacc' & Hcl & ->)%bind_Ret_inv.
    destruct (classify_one_cases _ _ _ _ _ _ Hacc') as [-> Hacc].
    destruct (IH _ Hcl) as (-> & Hs & Hm & Hme & Hd).
    split; [done|]. rewrite Hs, Hm, Hme, Hd, Hacc. clear.
    destruct (present W repo_dir rel) eqn:Hp.
    + rewrite (filter_cons_False (λ rel, _ = false ∧ rel ∈ explicit_set))
        by (rewrite Hp; by intros []).
      rewrite (filter_cons_False (λ rel, _ = false ∧ rel ∉ explicit_set))
        by (rewrite Hp; by intros []).
      destruct (Str.endswith rel ".spec") eqn:E1; [|destruct (Str.endswith rel ".m") eqn:E2].
      * rewrite (filter_cons_True (λ rel, _ ∧ Str.endswith rel ".spec" = true)) by done.
        rewrite (filter_cons_False (λ rel, _ ∧ _ = false ∧ _))
          by (rewrite E1; by intros (? & ? & ?)).
        simpl. repeat split; try done. set_solver.
      * rewrite (filter_cons_False (λ rel, _ ∧ Str.endswith rel ".spec" = true))
          by (rewrite E1; by intros []).
        rewrite (filter_cons_True (λ rel, _ ∧ _ = false ∧ _)) by done.
        simpl. repeat split; try done. set_solver.
      * rewrite (filter_cons_False (λ rel, _ ∧ Str.endswith rel ".spec" = true))
          by (rewrite E1; by intros []).
        rewrite (filter_cons_False (λ rel, _ ∧ _ = false ∧ _))
          by (rewrite E2; by intros (? & ? & ?)).
        done.
    + rewrite (filter_cons_False (λ rel, _ ∧ Str.endswith rel ".spec" = true))
        by (rewrite Hp; by intros []).
      rewrite (filter_cons_False (λ rel, _ ∧ _ = false ∧ _))
        by (rewrite Hp; by intros (? & ? & ?)).
      case_bool_decide as Hex.
      * rewrite (filter_cons_True (λ rel, _ = false ∧ rel ∈ explicit_set)) by done.
        rewrite (filter_cons_False (λ rel, _ = false ∧ rel ∉ explicit_set))
          by (by intros []).
        simpl. by rewrite <- app_assoc.
      * rewrite (filter_cons_False (λ rel, _ = false ∧ rel ∈ explicit_set))
          by (by intros []).
        rewrite (filter_cons_True (λ rel, _ = false ∧ rel ∉ explicit_set)) by done.
        simpl. by rewrite <- app_assoc.
Qed.

(** X17: what [materialize_and_classify] returns.  It looks at the
    candidates in alphabetical order and prints nothing.  The candidates
    whose file is missing are listed in that order, the explicitly selected
    ones in one list and the others in a second one.  Of the candidates
    whose file is there, those that end in [.spec] give the first set and
    those that end in [.m] the second; every other candidate is left out. *)
Theorem materialize_result order W repo_dir rel_paths explicit_set cl :
  visits_once order →
  outcome (materialize_and_classify order W repo_dir rel_paths explicit_set) = Ret cl →
  trace (materialize_and_classify order W repo_dir rel_paths explicit_set) = []
  ∧ Sorted String.le (sorted (elements rel_paths))
  ∧ missing_explicit cl
    = filter (λ rel, present W repo_dir rel = false ∧ rel ∈ explicit_set)
        (sorted (elements rel_paths))
  ∧ dropped_missing cl
    = filter (λ rel, present W repo_dir rel = false ∧ rel ∉ explicit_set)
        (sorted (elements rel_paths))
  ∧ (∀ p, p ∈ abs_spec cl ↔
       ∃ rel, rel ∈ rel_paths ∧ present W repo_dir rel = true
              ∧ Str.endswith rel ".spec" = true ∧ p = abs_of repo_dir rel)
  ∧ (∀ p, p ∈ abs_m cl ↔
       ∃ rel, rel ∈ rel_paths ∧ present W repo_dir rel = true
              ∧ Str.endswith rel ".spec" = false ∧ Str.endswith rel ".m" = true
              ∧ p = abs_of repo_dir rel).
Proof.
  intros Hord. unfold materialize_and_classify. rewrite (sorted_iter order) by done.
  intros (Ht & Hs & Hm & Hme & Hd)%classify_fold. simpl in *.
  split; [done|]. split; [apply sorted_Sorted|]. split; [done|]. split; [done|].
  rewrite Hs, Hm. split; intros p.
  - rewrite elem_of_union, elem_of_list_to_set.
    change (map ?f ?l) with (f <$> l). rewrite list_elem_of_fmap. split.
    + intros [?%elem_of_empty|(rel & -> & [[? ?] Hin]%list_elem_of_filter)]; [done|].
      exists rel. rewrite elem_of_sorted, elem_of_elements in Hin. done.
    + intros (rel & Hin & ? & ? & ->). right. exists rel. split; [done|].
      apply list_elem_of_filter. split; [done|].
      by rewrite elem_of_sorted, elem_of_elements.
  - rewrite elem_of_union, elem_of_list_to_set.
    change (map ?f ?l) with (f <$> l). rewrite list_elem_of_fmap. split.
    + intros [?%elem_of_empty|(rel & -> & [(? & ? & ?) Hin]%list_elem_of_filter)]; [done|].
      exists rel. rewrite elem_of_sorted, elem_of_elements in Hin. done.
    + intros (rel & Hin & ? & ? & ? & ->). right. exists rel. split; [done|].
      apply list_elem_of_filter. split; [done|].
      by rewrite elem_of_sorted, elem_of_elements.
Qed.

Lemma materialize_result_witness :
  visits_once id
  ∧ outcome (materialize_and_classify id
               (example_world None ["/r/package/gone.m"; "/r/package/lost.m"] [])
               (of_string "/r")
               {["package/a/x.m"; "package/gone.m"; "package/lost.m";
                 "package/a/y.spec"; "package/README"]}
               {["package/gone.m"]})
    = Ret (MkClassified {["/r/package/a/y.spec"]} {["/r/package/a/x.m"]}
             ["package/gone.m"] ["package/lost.m"])
  ∧ ["package/gone.m"]
    = filter (λ rel, present (example_world None ["/r/package/gone.m"; "/r/package/lost.m"] [])
                       (of_string "/r") rel = false
                     ∧ rel ∈ ({["package/gone.m"]} : gset string))
        (sorted (elements ({["package/a/x.m"; "package/gone.m"; "package/lost.m";
                             "package/a/y.spec"; "package/README"]} : gset string))).
Proof.
  assert (outcome (materialize_and_classify id
               (example_world None ["/r/package/gone.m"; "/r/package/lost.m"] [])
               (of_string "/r")
               {["package/a/x.m"; "package/gone.m"; "package/lost.m";
                 "package/a/y.spec"; "package/README"]}
               {["package/gone.m"]})
    = Ret (MkClassified {["/r/package/a/y.spec"]} {["/r/package/a/x.m"]}
             ["package/gone.m"] ["package/lost.m"])) as H by (vm_compute; reflexivity).
  split; [exact id_visits_once|]. split; [exact H|].
  exact (proj1 (proj2 (proj2 (materialize_result id _ _ _ _ _ id_visits_once H)))).
Defined.

(** ** The grouped layout without a common directory *)

Lemma names_in_root W out_dir l : names_in W out_dir "" l = [].
Proof.
  unfold names_in. induction l as [|p l IH]; [done|].
  rewrite fmap_cons. cbn [mbind list_bind]. 
  destruct (decide _) as [E|_]; [|exact IH].
  destruct (parent_dir_cases W out_dir p) as [H|H%normal_dir_nonempty];
    rewrite E in H; done.
Qed.

Lemma block_entries_root W abs_spec abs_m out_dir indent :
  block_entries W abs_spec abs_m out_dir indent "" = [].
Proof. unfold block_entries. by rewrite !names_in_root. Qed.

Lemma prefix_head {A} (l k : list A) : l ≠ [] → l `prefix_of` k → head k = head l.
Proof. intros Hl [r ->]. by destruct l. Qed.

Lemma no_common_dir all_dirs :
  Forall normal_dir (filter (λ d, Str.nonempty d = true) all_dirs) →
  no_shared_ancestor (filter (λ d, Str.nonempty d = true) all_dirs) →
  find_common_dir all_dirs = None.
Proof.
  intros Hn Hno. unfold find_common_dir.
  set (dirs := filter _ all_dirs) in *.
  case_bool_decide as Hlen; [|done].
  destruct Hno as [?|(d1 & d2 & H1 & H2 & Hne)]; [lia|].
  destruct dirs as [|d0 rest] eqn:Edirs; [by apply elem_of_nil in H1|].
  rewrite (commonpath_normal d0 rest Hn).
  set (L := fold_left _ _ _).
  assert (∀ d, d ∈ d0 :: rest → L `prefix_of` dir_parts d) as HL.
  { intros d Hd. apply fold_common_prefix_prefix.
    apply elem_of_cons in Hd as [->|Hd]; [by left|].
    right. by apply list_elem_of_fmap_2. }
  destruct L as [|x L'] eqn:EL; [done|].
  exfalso. apply Hne.
  by rewrite (prefix_head (x :: L') _ ltac:(done) (HL d1 H1)),
    (prefix_head (x :: L') _ ltac:(done) (HL d2 H2)).
Qed.

(** X18: in grouped mode, when no directory is above all the others, the
    output after the forced entries is one block for each directory other
    than the directory of the output file, in alphabetical order: the
    directory with a slash, an opening brace, the entries of the directory
    indented by two spaces, a closing brace.  The files that lie in the
    directory of the output file itself are in no block: they are left
    out. *)
Theorem curly_separate_blocks order W abs_spec abs_m out_dir include_specs_abs :
  visits_once order →
  no_shared_ancestor (directories order W abs_spec abs_m out_dir) →
  build_output_lines_curly order W abs_spec abs_m out_dir include_specs_abs
  = map (λ p, "+" +:+ to_rel W out_dir p) include_specs_abs
    ++ flat_map (λ d, [d +:+ "/"; "{"]
                      ++ block_entries W abs_spec abs_m out_dir "  " d
                      ++ ["}"])
         (directories order W abs_spec abs_m out_dir).
Proof.
  intros Hord Hno.
  assert (Forall normal_dir (directories order W abs_spec abs_m out_dir)) as Hn.
  { apply Forall_forall. intros d. by apply directories_normal. }
  unfold build_output_lines_curly. cbv zeta.
  rewrite (no_common_dir _ Hn Hno). f_equal.
  unfold directories. apply flat_map_filter. intros d Hd.
  unfold fallback_dir. rewrite dir_entries_canonical by done.
  destruct (decide (Str.nonempty d = true)) as [Hne|Hne].
  - rewrite Hne.
    destruct (all_dirs_elem order W Hord abs_spec abs_m out_dir d Hd)
      as [->|(ps & Hps & Hgood & ->)]; [done|].
    by rewrite join_good_has_last.
  - destruct d; [|done]. simpl. apply block_entries_root.
Qed.

Lemma curly_separate_blocks_witness :
  visits_once id
  ∧ no_shared_ancestor
      (directories id world_malformed_config {["/r/docs/y.spec"]}
         {["/r/top.m"; "/r/docs/a.m"; "/r/package/b.m"]} (of_string "/r"))
  ∧ build_output_lines_curly id world_malformed_config {["/r/docs/y.spec"]}
      {["/r/top.m"; "/r/docs/a.m"; "/r/package/b.m"]} (of_string "/r") []
    = [ "docs/"; "{"; "  a.m"; "  +y.spec"; "}";
        "package/"; "{"; "  b.m"; "}" ].
Proof.
  assert (no_shared_ancestor
            (directories id world_malformed_config {["/r/docs/y.spec"]}
               {["/r/top.m"; "/r/docs/a.m"; "/r/package/b.m"]} (of_string "/r"))) as H.
  { right. exists "docs", "package". split; [|split].
    - apply list_elem_of_In. vm_compute. by left.
    - apply list_elem_of_In. vm_compute. right. by left.
    - by vm_compute. }
  split; [exact id_visits_once|]. split; [exact H|].
  rewrite (curly_separate_blocks id world_malformed_config {["/r/docs/y.spec"]}
             {["/r/top.m"; "/r/docs/a.m"; "/r/package/b.m"]} (of_string "/r") []
             id_visits_once H).
  vm_compute. reflexivity.
Defined.

(** ** From an entry back to the file *)

Lemma clean_plain c : clean_part c → plain_part c.
Proof. intros [? _]. by apply good_plain. Qed.

Lemma Forall_clean_plain l : Forall clean_part l → Forall plain_part l.
Proof. intros H. eapply Forall_impl; [done|apply clean_plain]. Qed.

Lemma Forall_clean_good l : Forall clean_part l → Forall good_part l.
Proof. intros H. eapply Forall_impl; [done|]. by intros ? [? _]. Qed.

Lemma normpath_step_clean s acc c :
  clean_part c → OsPath.normpath_step s acc c = c :: acc.
Proof.
  intros [(H1 & H2 & _) H3]. unfold OsPath.normpath_step.
  by rewrite !bool_decide_false by done.
Qed.

Lemma normpath_fold_clean s l acc :
  Forall clean_part l → fold_left (OsPath.normpath_step s) l acc = rev l ++ acc.
Proof.
  intros Hl. revert acc. induction Hl as [|c l Hc _ IH]; intros acc; [done|].
  simpl. rewrite normpath_step_clean, IH by done. by rewrite <- app_assoc.
Qed.

Lemma normpath_fold_dotdot k acc :
  Forall clean_part acc →
  fold_left (OsPath.normpath_step 1) (replicate k "..") acc = list.drop k acc.
Proof.
  revert acc. induction k as [|k IH]; intros acc Hacc; [done|].
  simpl. unfold OsPath.normpath_step at 2. simpl.
  rewrite (bool_decide_false (head acc = Some "..")).
  2:{ destruct Hacc as [|c acc [_ Hc] _]; [done|]. simpl. congruence. }
  simpl. rewrite IH.
  - destruct acc; [|done]. simpl. by rewrite drop_nil.
  - destruct Hacc; simpl; [constructor|done].
Qed.

Lemma str_snoc s : s ≠ "" → ∃ t a, s = t +:+ String a "".
Proof.
  induction s as [|b s IH]; [done|]. intros _.
  destruct s as [|c s'].
  - by exists "", b.
  - destruct IH as (t & a & Ht); [done|]. exists (String b t), a.
    by rewrite app_cons, <- Ht.
Qed.

Lemma rev_app_snoc s t u : String.rev_app (s +:+ t) u = String.rev_app t (String.rev_app s u).
Proof. revert u. induction s as [|a s IH]; intros u; [done|]. rewrite app_cons. simpl. apply IH. Qed.

Lemma endswith_slash_snoc s a :
  Str.endswith (s +:+ String a "") "/" = bool_decide (a = "/"%char).
Proof.
  unfold Str.endswith, String.rev. rewrite rev_app_snoc.
  change (String.rev_app "/" "") with "/".
  change (String.rev_app (String a "") ?u) with (String a u).
  rewrite str_prefix_cons, str_prefix_empty, andb_true_r.
  apply bool_decide_ext. split; by intros ->.
Qed.

Lemma plain_last_char c : plain_part c → ∃ t a, c = t +:+ String a "" ∧ a ≠ "/"%char.
Proof.
  intros [Hne Hc]. destruct (str_snoc c Hne) as (t & a & ->).
  exists t, a. split; [done|]. rewrite has_char_app in Hc.
  apply orb_false_iff in Hc as [_ Hc]. simpl in Hc. rewrite orb_false_r in Hc.
  intros ->. by rewrite Ascii.eqb_refl in Hc.
Qed.

Lemma join_last_char ps :
  ps ≠ [] → Forall plain_part ps →
  ∃ t a, Str.join "/" ps = t +:+ String a "" ∧ a ≠ "/"%char.
Proof.
  intros Hne Hps. destruct ps as [|c ps _] using rev_ind; [done|].
  apply Forall_app in Hps as [Hps Hc]. inversion Hc as [|?? Hc' _]; subst.
  destruct (plain_last_char c Hc') as (t & a & -> & Ha).
  destruct (decide (ps = [])) as [->|Hps'].
  - by exists t, a.
  - rewrite join_app by done.
    change (Str.join "/" [t +:+ String a ""]) with (t +:+ String a "").
    exists (Str.join "/" ps +:+ "/" +:+ t), a. by rewrite !str_app_assoc.
Qed.

(** [normpath] of an absolute path given by its components *)
Lemma normpath_abs l :
  Forall plain_part l →
  OsPath.normpath ("/" +:+ Str.join "/" l)
  = "/" +:+ Str.join "/" (rev (fold_left (OsPath.normpath_step 1) l [])).
Proof.
  intros Hl. destruct (decide (l = [])) as [->|Hne]; [done|].
  destruct (join_plain_head l Hne Hl) as (a & s & Hj & Ha).
  unfold OsPath.normpath.
  change ("/" +:+ Str.join "/" l) with (String "/" (Str.join "/" l)).
  assert (OsPath.initial_slashes (String "/" (Str.join "/" l)) = 1%nat) as ->.
  { unfold OsPath.initial_slashes, Str.startswith. rewrite Hj.
    rewrite !str_prefix_cons, !str_prefix_empty.
    by rewrite bool_decide_true, (bool_decide_false (_ = a)) by done. }
  assert (Str.split "/" (String "/" (Str.join "/" l)) = "" :: l) as ->.
  { simpl. by rewrite split_join_plain. }
  simpl fold_left.
  change (OsPath.normpath_step 1 [] "") with (@nil string).
  by destruct (Str.join "/" (rev _)).
Qed.

Lemma components_abs ps :
  Forall plain_part ps →
  OsPath.components (Str.lstrip "/" ("/" +:+ Str.join "/" ps)) = ps.
Proof.
  intros Hps. destruct (decide (ps = [])) as [->|Hne]; [done|].
  destruct (join_plain_head ps Hne Hps) as (a & s & Hj & Ha).
  change ("/" +:+ Str.join "/" ps) with (String "/" (Str.join "/" ps)).
  change (Str.lstrip "/" (String "/" ?s)) with (Str.lstrip "/" s).
  rewrite Hj, lstrip_head by done. unfold OsPath.components.
  by rewrite <- Hj, split_join_plain.
Qed.

Lemma normpath_clean ps :
  Forall clean_part ps →
  OsPath.normpath ("/" +:+ Str.join "/" ps) = "/" +:+ Str.join "/" ps.
Proof.
  intros Hps. rewrite normpath_abs by by apply Forall_clean_plain.
  by rewrite normpath_fold_clean, app_nil_r, rev_involutive.
Qed.

Lemma isabs_abs s : OsPath.isabs ("/" +:+ s) = true.
Proof. unfold OsPath.isabs, Str.startswith. by rewrite str_prefix_app. Qed.

Lemma abspath_clean cwd ps :
  Forall clean_part ps →
  OsPath.abspath cwd ("/" +:+ Str.join "/" ps) = "/" +:+ Str.join "/" ps.
Proof. intros Hps. unfold OsPath.abspath. rewrite isabs_abs. by apply normpath_clean. Qed.

(** the components of the relative path from [S] to [P] *)
Lemma rel_list_fold S P :
  Forall clean_part S → Forall clean_part P →
  fold_left (OsPath.normpath_step 1)
    (replicate (length S - length (OsPath.common_prefix S P)) ".."
     ++ list.drop (length (OsPath.common_prefix S P)) P) (rev S)
  = rev P.
Proof.
  intros HS HP.
  destruct (common_prefix_l S P) as [S' HS'], (common_prefix_r S P) as [P' HP'].
  set (C := OsPath.common_prefix S P) in *.
  rewrite fold_left_app, normpath_fold_dotdot by by apply Forall_rev.
  rewrite HP' at 1. rewrite drop_app_length.
  rewrite normpath_fold_clean.
  2:{ rewrite HP' in HP. by apply Forall_app in HP as [_ ?]. }
  rewrite HS' at 1 2. rewrite length_app, rev_app_distr.
  replace (length C + length S' - length C)%nat with (length (rev S'))
    by (rewrite length_rev; lia).
  rewrite drop_app_length. by rewrite HP', rev_app_distr.
Qed.

Lemma relpath_clean cwd S P :
  Forall clean_part S → Forall clean_part P →
  OsPath.relpath cwd ("/" +:+ Str.join "/" P) ("/" +:+ Str.join "/" S)
  = match replicate (length S - length (OsPath.common_prefix S P)) ".."
          ++ list.drop (length (OsPath.common_prefix S P)) P with
    | [] => "."
    | _ :: _ =>
        Str.join "/"
          (replicate (length S - length (OsPath.common_prefix S P)) ".."
           ++ list.drop (length (OsPath.common_prefix S P)) P)
    end.
Proof.
  intros HS HP. unfold OsPath.relpath.
  rewrite !abspath_clean by done.
  by rewrite !components_abs by by apply Forall_clean_plain.
Qed.

Lemma dotdot_good : good_part "..".
Proof. done. Qed.

Lemma rel_list_good S P :
  Forall clean_part P →
  Forall good_part
    (replicate (length S - length (OsPath.common_prefix S P)) ".."
     ++ list.drop (length (OsPath.common_prefix S P)) P).
Proof.
  intros HP. apply Forall_app. split.
  - apply Forall_replicate, dotdot_good.
  - by apply Forall_drop, Forall_clean_good.
Qed.

Lemma as_posix_abs ps : as_posix (abs_path ps) = "/" +:+ Str.join "/" ps.
Proof. reflexivity. Qed.

(** X19: the entry of a file leads back to the file.  For an output
    directory and a file given by absolute, normalised paths, the path of
    the file relative to the directory, as the manifest has it, joined to
    the directory and normalised, is the path of the file. *)
Theorem to_rel_round_trip W (S P : list string) :
  Forall clean_part S → Forall clean_part P →
  OsPath.normpath
    (OsPath.join (as_posix (abs_path S))
       (to_rel W (abs_path S) (as_posix (abs_path P))))
  = as_posix (abs_path P).
Proof.
  intros HS HP. unfold to_rel, relpath_posix. rewrite !as_posix_abs.
  rewrite relpath_clean by done.
  pose proof (rel_list_fold S P HS HP) as Hfold.
  pose proof (rel_list_good S P HP) as Hgood.
  set (R := replicate _ _ ++ _) in *.
  (* the entry, and the list of its components *)
  assert (∃ R', R' ≠ [] ∧ Forall plain_part R'
            ∧ fold_left (OsPath.normpath_step 1) R' (rev S) = rev P
            ∧ as_posix (of_string (match R with [] => "." | _ => Str.join "/" R end))
              = Str.join "/" R') as (R' & HR'ne & HR'plain & HR'fold & ->).
  { destruct R as [|x R0] eqn:ER.
    - exists ["."]. split; [done|]. split; [by repeat constructor|]. split; [|done].
      simpl. exact Hfold.
    - exists (x :: R0). split; [done|].
      split; [eapply Forall_impl; [done|apply good_plain]|]. split; [done|].
      by rewrite of_string_join by done. }
  destruct (join_plain_head R' HR'ne HR'plain) as (a & s & Hj & Ha).
  assert (OsPath.join ("/" +:+ Str.join "/" S) (Str.join "/" R')
          = "/" +:+ Str.join "/" (S ++ R')) as ->.
  { unfold OsPath.join, OsPath.isabs. rewrite Hj, startswith_slash.
    rewrite bool_decide_false by done. rewrite <- Hj.
    destruct (decide (S = [])) as [->|HSne]; [done|].
    destruct (join_last_char S HSne) as (t & b & Ht & Hb); [by apply Forall_clean_plain|].
    rewrite Ht at 1 2. rewrite <- str_app_assoc, endswith_slash_snoc.
    rewrite bool_decide_false by done.
    rewrite str_app_assoc, <- Ht. simpl.
    rewrite join_app by done. by rewrite !str_app_assoc. }
  rewrite normpath_abs.
  2:{ apply Forall_app. split; [by apply Forall_clean_plain|done]. }
  rewrite fold_left_app, (normpath_fold_clean 1 S []) by done.
  rewrite app_nil_r, HR'fold.
  by rewrite rev_involutive.
Qed.

Lemma to_rel_round_trip_witness :
  Forall clean_part ["r"; "out"]
  ∧ Forall clean_part ["r"; "package"; "a"; "x.m"]
  ∧ to_rel world_malformed_config (abs_path ["r"; "out"])
      (as_posix (abs_path ["r"; "package"; "a"; "x.m"]))
    = "../package/a/x.m"
  ∧ OsPath.normpath (OsPath.join "/r/out" "../package/a/x.m") = "/r/package/a/x.m".
Proof.
  assert (Forall clean_part ["r"; "out"]) as H1
    by (repeat (apply Forall_cons; split; [by split|]); apply Forall_nil_2).
  assert (Forall clean_part ["r"; "package"; "a"; "x.m"]) as H2
    by (repeat (apply Forall_cons; split; [by split|]); apply Forall_nil_2).
  split; [exact H1|]. split; [exact H2|]. split; [reflexivity|].
  exact (to_rel_round_trip world_malformed_config _ _ H1 H2).
Defined.

(** X20: [relpath_posix] never returns an absolute path and never the
    empty string: an entry of the manifest is a relative path. *)
Theorem relpath_posix_relative cwd p start :
  relpath_posix cwd p start ≠ ""
  ∧ OsPath.isabs (relpath_posix cwd p start) = false.
Proof.
  unfold relpath_posix.
  pose proof (relpath_relative cwd p start) as Hroot.
  pose proof (of_string_wf (OsPath.relpath cwd p start)) as [_ Hparts].
  set (R := of_string _) in *. unfold as_posix. rewrite Hroot.
  destruct (parts R) as [|x l] eqn:E; [done|].
  destruct (join_good_head (x :: l)) as (a & s & Hj & Ha); [done..|].
  rewrite app_empty_l, Hj. split; [done|].
  unfold OsPath.isabs. by rewrite startswith_slash, bool_decide_false.
Qed.

(** ** The two classified sets *)

Lemma last_char_snoc t a : last_char (t +:+ String a "") = Some a.
Proof.
  induction t as [|b t IH]; [done|]. rewrite app_cons.
  change (last_char (String b (t +:+ String a "")))
    with (match t +:+ String a "" with
          | "" => Some b
          | _ => last_char (t +:+ String a "")
          end).
  rewrite IH. destruct t; done.
Qed.

Lemma last_char_app s t : t ≠ "" → last_char (s +:+ t) = last_char t.
Proof.
  intros (u & a & ->)%str_snoc. by rewrite <- str_app_assoc, !last_char_snoc.
Qed.

Lemma rev_snoc t a : String.rev (t +:+ String a "") = String a (String.rev t).
Proof. unfold String.rev. by rewrite rev_app_snoc. Qed.

Lemma endswith_last_char s u a :
  Str.endswith s (u +:+ String a "") = true → last_char s = Some a.
Proof.
  unfold Str.endswith. rewrite rev_snoc. intros [v Hv]%str_prefix_inv.
  rewrite app_cons in Hv. destruct (decide (s = "")) as [->|Hne]; [done|].
  destruct (str_snoc s Hne) as (t & b & ->). rewrite rev_snoc in Hv.
  injection Hv as -> _. apply last_char_snoc.
Qed.

Lemma split_snoc c t a :
  a ≠ c →
  ∃ init x, Str.split c t = init ++ [x]
            ∧ Str.split c (t +:+ String a "") = init ++ [x +:+ String a ""].
Proof.
  intros Hac. induction t as [|b t (init & x & Ht & IH)].
  - exists [], "". split; [done|]. simpl.
    destruct (Ascii.eqb_spec a c); [done|done].
  - rewrite app_cons. simpl. rewrite Ht, IH.
    destruct (Ascii.eqb b c).
    + exists ("" :: init), x. done.
    + destruct init as [|y init]; simpl.
      * by exists [], (String b x).
      * by exists (String b y :: init), x.
Qed.

Lemma as_posix_last_char repo_dir rel a :
  last_char rel = Some a → a ≠ "/"%char → a ≠ "."%char →
  last_char (as_posix (repo_dir // of_string rel)) = Some a.
Proof.
  intros Hlast Hslash Hdot.
  assert (rel ≠ "") as Hne by (by intros ->).
  destruct (str_snoc rel Hne) as (t & b & ->).
  rewrite last_char_snoc in Hlast. injection Hlast as ->.
  destruct (split_snoc "/" t a Hslash) as (init & x & _ & Hsplit).
  assert (∃ pre, parts (repo_dir // of_string (t +:+ String a ""))
                 = pre ++ [x +:+ String a ""]) as [pre Hparts].
  { unfold joinpath, of_string. cbn [root parts]. rewrite Hsplit, filter_app.
    rewrite (filter_cons_True _ (x +:+ String a "")).
    2:{ apply keep_component_true. split.
        - intros [_ ?]%app_empty_inv. done.
        - destruct x as [|? [|]]; [|done..]. intros [= ->]. done. }
    rewrite filter_nil. destruct (is_absolute _); cbn [parts]; [by eexists|].
    eexists. by rewrite app_assoc. }
  unfold as_posix. rewrite Hparts.
  assert (∀ r, last_char (r +:+ Str.join "/" (pre ++ [x +:+ String a ""])) = Some a) as H.
  { intros r. rewrite last_char_app.
    - destruct (decide (pre = [])) as [->|Hpre].
      + apply last_char_snoc.
      + rewrite join_app by done.
        change (Str.join "/" [x +:+ String a ""]) with (x +:+ String a "").
        by rewrite <- !str_app_assoc, last_char_snoc.
    - destruct (decide (pre = [])) as [->|Hpre].
      + intros [_ ?]%app_empty_inv. done.
      + rewrite join_app by done. intros [_ [_ E]%app_empty_inv]%app_empty_inv.
        by apply app_empty_inv in E as [_ ?]. }
  destruct (root _); [|apply H].
  destruct pre; apply (H "").
Qed.

(** X21: the two sets of [materialize_and_classify] are disjoint: no path
    is both a manifest and a source file. *)
Theorem classified_sets_disjoint order W repo_dir rel_paths explicit_set cl :
  visits_once order →
  outcome (materialize_and_classify order W repo_dir rel_paths explicit_set) = Ret cl →
  abs_spec cl ## abs_m cl.
Proof.
  intros Hord Hcl.
  destruct (materialize_classified order W repo_dir rel_paths explicit_set Hord cl Hcl)
    as [Hspec Hm].
  intros p (rel1 & s1 & _ & E1 & _ & _ & ->)%Hspec (rel2 & s2 & _ & E2 & _ & _ & Heq)%Hm.
  apply (endswith_last_char rel1 ".spe" "c") in E1.
  apply (endswith_last_char rel2 "." "m") in E2.
  apply (as_posix_last_char repo_dir) in E1; [|done..].
  apply (as_posix_last_char repo_dir) in E2; [|done..].
  rewrite Heq in E1. congruence.
Qed.

Lemma classified_sets_disjoint_witness :
  visits_once id
  ∧ outcome (materialize_and_classify id (example_world None [] []) (of_string "/r")
               {["package/a/x.m"; "package/a/y.spec"; "package/x.spec.m"]} ∅)
    = Ret (MkClassified {["/r/package/a/y.spec"]}
             {["/r/package/a/x.m"; "/r/package/x.spec.m"]} [] [])
  ∧ ({["/r/package/a/y.spec"]} : gset string)
    ## ({["/r/package/a/x.m"; "/r/package/x.spec.m"]} : gset string).
Proof.
  assert (outcome (materialize_and_classify id (example_world None [] []) (of_string "/r")
               {["package/a/x.m"; "package/a/y.spec"; "package/x.spec.m"]} ∅)
    = Ret (MkClassified {["/r/package/a/y.spec"]}
             {["/r/package/a/x.m"; "/r/package/x.spec.m"]} [] [])) as H
    by (vm_compute; reflexivity).
  split; [exact id_visits_once|]. split; [exact H|].
  exact (classified_sets_disjoint id _ _ _ _ _ id_visits_once H).
Defined.

(** ** What a run that succeeds leaves behind *)

Lemma ends_after_bind {A B} P (Q1 : A → Prop) (R : list event → B → Prop)
    (m : M A) (f : A → M B) :
  emits P m → yields Q1 m → (∀ a, Q1 a → ends_after P R (f a)) →
  ends_after P R (m ≫= f).
Proof.
  intros HP Hm Hf b Hb. apply bind_Ret_inv in Hb as (a & Ha & Hb & ->).
  destruct (Hf a (Hm a Ha) b Hb) as (t & s & -> & Ht & HR).
  exists (trace m ++ t), s. split; [by rewrite app_assoc|]. split; [|done].
  apply Forall_app. by split.
Qed.

Lemma choose_first_given W repo_dir (a b c : option string) :
  choose_out_path W repo_dir (if truthy a then a else py_or b c)
  = choose_out_path W repo_dir (first_given [a; b; c]).
Proof.
  unfold choose_out_path, py_or. cbn [first_given].
  destruct (truthy a) eqn:Ea; [by rewrite Ea|].
  destruct (truthy b) eqn:Eb; [by rewrite Eb|].
  destruct (truthy c) eqn:Ec; by rewrite ?Ec.
Qed.

Lemma yields_check (b : bool) msg :
  yields (λ _, b = false) (if b then eprint msg ;; sys_exit 2 else mret tt).
Proof. destruct b; [by apply yields_no_ret|by apply yields_ret]. Qed.

Lemma yields_no_missing (cl : Classified) :
  yields (λ _, missing_explicit cl = [])
    (match missing_explicit cl with
     | [] => mret tt
     | missing =>
         eprint "ERROR: explicitly selected paths missing at target:" ;;
         for_each missing (λ rel, eprint ("  " +:+ rel)) ;;
         sys_exit 2
     end).
Proof.
  destruct (missing_explicit cl); [by apply yields_ret|].
  apply yields_no_ret. intros a. apply listing_no_ret.
Qed.

(** what a run that succeeds has computed, step by step, and the three
    events it ends with *)
Lemma main_end order W args :
  ends_after no_write
    (λ s _, ∃ cfg_path cfg repo_dir out_path specs sources include_specs_abs lines,
       repository_found W args cfg_path cfg repo_dir
       ∧ selects order W cfg repo_dir specs sources
       ∧ final_state order W args cfg repo_dir out_path specs sources
           include_specs_abs lines s)
    (main order W args).
Proof.
  assert (∀ s, no_write (Stdout s)) as Pout by done.
  assert (∀ s, no_write (Stderr s)) as Perr by done.
  assert (∀ cmd, no_write (Git cmd)) as Pgit by done.
  unfold main.
  eapply ends_after_bind; [by apply emits_resolve|apply yields_self|intros cfg_path H1].
  eapply ends_after_bind;
    [by emits_solve ltac:(done)|apply yields_check|intros _ H2%negb_false_iff].
  eapply ends_after_bind;
    [by apply emits_load_config|apply load_config_yields|intros cfg H3].
  eapply ends_after_bind;
    [by apply emits_resolve_repo_dir|apply yields_self|intros repo_dir H4].
  cbv zeta.
  eapply ends_after_bind;
    [by emits_solve ltac:(done)|apply yields_check|intros _ H5%negb_false_iff].
  eapply ends_after_bind; [by apply emits_maybe_fetch|apply yields_True|intros _ _].
  eapply ends_after_bind;
    [by apply emits_ensure_target_exists|apply yields_True|intros _ _].
  eapply ends_after_bind; [by apply emits_ensure_selectors|apply yields_True|intros _ _].
  fold (prefixes_of cfg).
  eapply ends_after_bind;
    [by apply emits_resolve_effective_baseline|apply yields_self|intros eb S1].
  eapply ends_after_bind; [by apply emits_collect_diff|apply yields_self|intros d S2].
  eapply ends_after_bind; [by apply emits_collect_commits|apply yields_self|intros c S3].
  eapply ends_after_bind; [by apply emits_collect_ranges|apply yields_self|intros r S4].
  eapply ends_after_bind; [|apply yields_self|intros u S5].
  { destruct (default true _); [by apply emits_collect_uncommitted|apply emits_ret]. }
  eapply ends_after_bind;
    [by apply emits_normalize_explicit|apply yields_self|intros [explicit_set rel] S6].
  eapply ends_after_bind; [by apply emits_materialize|apply yields_self|intros cl S7].
  eapply ends_after_bind; [by apply emits_resolve_all|apply yields_self|intros specs S8].
  eapply ends_after_bind; [by apply emits_resolve_all|apply yields_self|intros sources S9].
  eapply ends_after_bind;
    [by emits_solve ltac:(done)|apply yields_no_missing|intros ? S10].
  eapply ends_after_bind; [by emits_solve ltac:(done)|apply yields_True|intros _ _].
  fold (include_specs_of cfg).
  eapply ends_after_bind;
    [by apply emits_resolve_include_specs|apply yields_self|intros include_specs_abs H6].
  rewrite choose_first_given.
  eapply ends_after_bind;
    [by apply emits_choose_out_path|apply yields_self|intros out_path H7].
  fold (format_of cfg).
  apply (ends_after_bind _ (λ lines,
           (format_of cfg = "flat" ∨ format_of cfg = "curly")
           ∧ (format_of cfg = "flat" →
            lines = build_output_lines_flat order W specs sources
                      (default "spec-first" (opt_order cfg)) (parent out_path)
                      include_specs_abs)
           ∧ (format_of cfg = "curly" →
              lines = build_output_lines_curly order W specs sources
                        (parent out_path) include_specs_abs))).
  { by emits_solve ltac:(done). }
  { case_bool_decide as Hfmt.
    - apply yields_ret. split; [by left|]. split; [done|by rewrite Hfmt].
    - case_bool_decide as Hfmt'; [|by apply yields_no_ret].
      apply yields_ret. split; [by right|]. split; [by rewrite Hfmt'|done]. }
  intros lines (Hfmt & Hflat & Hcurly) [] Hret.
  unfold write_atomic_lines in *. fold (tmp_path_of out_path) in *.
  destruct (fs_can_write W _); [|done].
  destruct (fs_can_replace W _ _); [|done].
  eexists [], _. split; [reflexivity|]. split; [constructor|].
  exists cfg_path, cfg, repo_dir, out_path, specs, sources, include_specs_abs, lines.
  split; [done|]. split.
  { by exists eb, d, c, r, u, explicit_set, rel, cl. }
  split; [done|]. split; [done|]. split; [done|]. split; [done|].
  split; [done|]. reflexivity.
Qed.

Lemma main_final order W args :
  ends_after no_write
    (λ s _, ∃ cfg_path cfg repo_dir out_path abs_spec abs_m include_specs_abs lines,
       repository_found W args cfg_path cfg repo_dir
       ∧ final_state order W args cfg repo_dir out_path abs_spec abs_m
           include_specs_abs lines s)
    (main order W args).
Proof.
  intros a Ha.
  destruct (main_end order W args a Ha)
    as (t & s & Ht & Hquiet & cfg_path & cfg & repo_dir & out_path & specs & sources
        & inc & lines & Hfound & _ & Hfinal).
  exists t, s. split; [done|]. split; [done|].
  by exists cfg_path, cfg, repo_dir, out_path, specs, sources, inc, lines.
Qed.


(** X22: a run that succeeds touches two paths and no other: it writes the
    temporary file next to the output file and moves it over the output
    file, and that is the last thing it does before the summary.  The
    output file is the one that [--output] names; if there is none, the one
    that [output] names at the top of the configuration, or else in its
    options; and if there is none at all, [.magma_overlay.spec] in the
    repository directory. *)
Theorem manifest_location order W args :
  outcome (main order W args) = Ret tt →
  ∃ cfg_path cfg repo_dir out_path t content summary,
    repository_found W args cfg_path cfg repo_dir
    ∧ outcome (choose_out_path W repo_dir
                 (first_given [arg_output args; cfg_output cfg; opt_output cfg]))
      = Ret out_path
    ∧ (first_given [arg_output args; cfg_output cfg; opt_output cfg] = None →
       outcome (resolve W (repo_dir // of_string ".magma_overlay.spec")) = Ret out_path)
    ∧ trace (main order W args)
      = t ++ [ WriteFile (as_posix (tmp_path_of out_path)) content;
               Replace (as_posix (tmp_path_of out_path)) (as_posix out_path);
               Stdout summary ]
    ∧ Forall no_write t.
Proof.
  intros Hret.
  destruct (main_final order W args tt Hret)
    as (t & s & Ht & Hquiet & cfg_path & cfg & repo_dir & out_path & abs_spec & abs_m
        & inc & lines & Hfound & _ & Hout & _ & _ & _ & ->).
  exists cfg_path, cfg, repo_dir, out_path, t. eexists _, _.
  split; [done|]. split; [done|]. split; [|by split].
  intros Hnone. by rewrite Hnone in Hout.
Qed.

Lemma manifest_location_witness :
  outcome (main id world_unchecked_explicit example_args) = Ret tt
  ∧ ∃ cfg_path cfg repo_dir out_path t content summary,
      repository_found world_unchecked_explicit example_args cfg_path cfg repo_dir
      ∧ outcome (choose_out_path world_unchecked_explicit repo_dir
                   (first_given [arg_output example_args; cfg_output cfg; opt_output cfg]))
        = Ret out_path
      ∧ (first_given [arg_output example_args; cfg_output cfg; opt_output cfg] = None →
         outcome (resolve world_unchecked_explicit
                    (repo_dir // of_string ".magma_overlay.spec")) = Ret out_path)
      ∧ trace (main id world_unchecked_explicit example_args)
        = t ++ [ WriteFile (as_posix (tmp_path_of out_path)) content;
                 Replace (as_posix (tmp_path_of out_path)) (as_posix out_path);
                 Stdout summary ]
      ∧ Forall no_write t.
Proof.
  assert (outcome (main id world_unchecked_explicit example_args) = Ret tt) as H
    by (vm_compute; reflexivity).
  split; [exact H|].
  exact (manifest_location id world_unchecked_explicit example_args H).
Defined.

Lemma flat_length order W abs_spec abs_m order_mode out_dir include_specs_abs :
  visits_once order →
  length (build_output_lines_flat order W abs_spec abs_m order_mode out_dir
            include_specs_abs)
  = (length include_specs_abs + (size abs_spec + size abs_m))%nat.
Proof.
  intros Hord. unfold build_output_lines_flat.
  assert (∀ s : gset string, length (iter order s) = size s) as Hiter.
  { intros s. by rewrite (iter_perm order s Hord). }
  assert (∀ s : gset string, length (sorted (iter order s)) = size s) as Hsorted.
  { intros s. by rewrite sorted_Permutation. }
  case_bool_decide.
  - by rewrite !length_app, !length_map, !Hsorted.
  - rewrite length_app, !length_map. unfold sorted_by_snd.
    rewrite merge_sort_Permutation. by rewrite length_app, !length_map, !Hiter.
Qed.

(** X23: in flat mode the summary of a run that succeeds is true to the
    file: the manifest has, between its braces, one line for each forced
    entry of the configuration and then as many lines as the two numbers of
    the summary add up to. *)
Theorem flat_summary_counts order W args :
  visits_once order →
  outcome (main order W args) = Ret tt →
  ∃ cfg_path cfg repo_dir t tmp out forced body (n_spec n_m : nat),
    repository_found W args cfg_path cfg repo_dir
    ∧ trace (main order W args)
      = t ++ [ WriteFile tmp (file_content ("{" :: (forced ++ body) ++ ["}"]));
               Replace tmp out;
               Stdout ("Wrote " +:+ pretty n_spec +:+ " spec and " +:+ pretty n_m
                       +:+ " source entries to " +:+ out) ]
    ∧ length forced = length (include_specs_of cfg)
    ∧ (format_of cfg = "flat" → length body = (n_spec + n_m)%nat).
Proof.
  intros Hord Hret.
  destruct (main_final order W args tt Hret)
    as (t & s & Ht & _ & cfg_path & cfg & repo_dir & out_path & abs_spec & abs_m
        & inc & lines & Hfound & Hinc & _ & Hfmt & Hflat & Hcurly & ->).
  apply resolve_include_specs_length in Hinc.
  exists cfg_path, cfg, repo_dir, t. eexists _, _.
  exists (take (length inc) lines), (list.drop (length inc) lines), (size abs_spec), (size abs_m).
  rewrite take_drop. split; [done|]. split; [done|].
  assert (length lines = (length inc + (size abs_spec + size abs_m))%nat
          ∨ format_of cfg = "curly"
            ∧ ∃ rest, lines = map (λ p, "+" +:+ to_rel W (parent out_path) p) inc ++ rest)
    as Hlen.
  { destruct Hfmt as [Hf|Hc].
    - left. rewrite (Hflat Hf). by apply flat_length.
    - right. split; [done|]. rewrite (Hcurly Hc). unfold build_output_lines_curly.
      cbv zeta. destruct (find_common_dir _) as [c|]; [|by eexists].
      destruct (Str.nonempty c); by eexists. }
  split.
  - rewrite length_take. destruct Hlen as [Hlen|(_ & rest & ->)].
    + lia.
    + rewrite length_app, length_map. lia.
  - intros Hf. destruct Hlen as [Hlen|[Hc _]]; [|by rewrite Hf in Hc].
    rewrite length_drop. lia.
Qed.

Lemma flat_summary_counts_witness :
  visits_once id
  ∧ outcome (main id world_forced_missing example_args) = Ret tt
  ∧ ∃ cfg_path cfg repo_dir t tmp out forced body (n_spec n_m : nat),
      repository_found world_forced_missing example_args cfg_path cfg repo_dir
      ∧ trace (main id world_forced_missing example_args)
        = t ++ [ WriteFile tmp (file_content ("{" :: (forced ++ body) ++ ["}"]));
                 Replace tmp out;
                 Stdout ("Wrote " +:+ pretty n_spec +:+ " spec and " +:+ pretty n_m
                         +:+ " source entries to " +:+ out) ]
      ∧ length forced = length (include_specs_of cfg)
      ∧ (format_of cfg = "flat" → length body = (n_spec + n_m)%nat).
Proof.
  assert (outcome (main id world_forced_missing example_args) = Ret tt) as H
    by (vm_compute; reflexivity).
  split; [exact id_visits_once|]. split; [exact H|].
  exact (flat_summary_counts id world_forced_missing example_args id_visits_once H).
Defined.

(** ** Forced entries and the working tree *)

Lemma resolve_include_specs_fold W repo_dir l acc r :
  outcome (fold_m l (λ include_specs_abs sp,
             p ← expanduser W (of_string sp);
             q ← (if negb (is_absolute p) then resolve W (repo_dir // p)
                  else resolve W p);
             mret (include_specs_abs ++ [as_posix q])) acc) = Ret r →
  ∃ r', r = acc ++ r' ∧ Forall2 (forced_from W repo_dir) l r'.
Proof.
  revert acc. induction l as [|sp l IH]; intros acc.
  - intros [= <-]. exists []. by rewrite app_nil_r.
  - cbn [fold_m]. intros (acc' & Hacc' & Hr & _)%bind_Ret_inv.
    apply bind_Ret_inv in Hacc' as (p & Hp & Hacc' & _).
    apply bind_Ret_inv in Hacc' as (q & Hq & [= <-] & _).
    destruct (IH _ Hr) as (r' & -> & Hr').
    exists (as_posix q :: r'). split; [by rewrite <- app_assoc|].
    constructor; [|done]. exists p.
    destruct (is_absolute p); simpl in Hq;
      apply resolve_yields in Hq as (s & Hs & ->); by exists s.
Qed.

Lemma curly_forced order W abs_spec abs_m out_dir include_specs_abs :
  ∃ rest, build_output_lines_curly order W abs_spec abs_m out_dir include_specs_abs
          = map (λ p, "+" +:+ to_rel W out_dir p) include_specs_abs ++ rest.
Proof.
  unfold build_output_lines_curly. cbv zeta.
  destruct (find_common_dir _) as [c|]; [|by eexists].
  destruct (Str.nonempty c); by eexists.
Qed.

Lemma flat_forced order W abs_spec abs_m order_mode out_dir include_specs_abs :
  ∃ rest, build_output_lines_flat order W abs_spec abs_m order_mode out_dir
            include_specs_abs
          = map (λ p, "+" +:+ to_rel W out_dir p) include_specs_abs ++ rest.
Proof. unfold build_output_lines_flat. case_bool_decide; by eexists. Qed.

(** X24: in both layouts the manifest of a run that succeeds starts, after
    its opening brace, with the forced entries: one for each inclusion of
    the configuration, in the order of the configuration.  The entry is a
    [+] and the path of the inclusion relative to the directory of the
    output file, where the path of the inclusion is taken from the
    repository directory, unless it is absolute, and resolved. *)
Theorem forced_entries order W args :
  outcome (main order W args) = Ret tt →
  ∃ cfg_path cfg repo_dir out_path include_specs_abs rest t tmp summary,
    repository_found W args cfg_path cfg repo_dir
    ∧ Forall2 (forced_from W repo_dir) (include_specs_of cfg) include_specs_abs
    ∧ trace (main order W args)
      = t ++ [ WriteFile tmp
                 (file_content
                    ("{" :: (map (λ p, "+" +:+ to_rel W (parent out_path) p)
                               include_specs_abs ++ rest) ++ ["}"]));
               Replace tmp (as_posix out_path);
               Stdout summary ].
Proof.
  intros Hret.
  destruct (main_final order W args tt Hret)
    as (t & s & Ht & _ & cfg_path & cfg & repo_dir & out_path & abs_spec & abs_m
        & inc & lines & Hfound & Hinc & _ & Hfmt & Hflat & Hcurly & ->).
  unfold resolve_include_specs in Hinc.
  apply resolve_include_specs_fold in Hinc as (r' & -> & Hforced).
  rewrite app_nil_l in *.
  assert (∃ rest, lines = map (λ p, "+" +:+ to_rel W (parent out_path) p) r' ++ rest)
    as [rest ->].
  { destruct Hfmt as [Hf|Hc].
    - rewrite (Hflat Hf). apply flat_forced.
    - rewrite (Hcurly Hc). apply curly_forced. }
  exists cfg_path, cfg, repo_dir, out_path, r', rest, t. eexists _, _.
  split; [done|]. split; [done|]. exact Ht.
Qed.

Lemma forced_entries_witness :
  outcome (main id world_forced_missing example_args) = Ret tt
  ∧ ∃ cfg_path cfg repo_dir out_path include_specs_abs rest t tmp summary,
      repository_found world_forced_missing example_args cfg_path cfg repo_dir
      ∧ Forall2 (forced_from world_forced_missing repo_dir) (include_specs_of cfg)
          include_specs_abs
      ∧ trace (main id world_forced_missing example_args)
        = t ++ [ WriteFile tmp
                   (file_content
                      ("{" :: (map (λ p, "+" +:+ to_rel world_forced_missing
                                                  (parent out_path) p)
                                 include_specs_abs ++ rest) ++ ["}"]));
                 Replace tmp (as_posix out_path);
                 Stdout summary ].
Proof.
  assert (outcome (main id world_forced_missing example_args) = Ret tt) as H
    by (vm_compute; reflexivity).
  split; [exact H|].
  exact (forced_entries id world_forced_missing example_args H).
Defined.

Section Worktree.
Context (order : list string → list string) (W : World).
Abbreviation apart := (emits no_worktree_query).

Local Ltac other :=
  first
    [ exact I
    | let H := fresh in
      intros (? & [H|[H|H]]); unfold staged_cmd, unstaged_cmd, untracked_cmd in H;
      congruence ].
Local Ltac go := unfold run; emits_solve other.

Lemma apart_resolve p : apart (resolve W p).
Proof. unfold resolve. go. Qed.
Lemma apart_expanduser p : apart (expanduser W p).
Proof. unfold expanduser. go. Qed.
Lemma apart_load_config p : apart (load_config W p).
Proof. unfold load_config. go. Qed.

Local Ltac go' := go; auto using apart_resolve, apart_expanduser.

Lemma apart_resolve_repo_dir cfg p : apart (resolve_repo_dir_from_config W cfg p).
Proof. unfold resolve_repo_dir_from_config. go'. Qed.
Lemma apart_maybe_fetch r b : apart (maybe_fetch W r b).
Proof. unfold maybe_fetch. go'. Qed.
Lemma apart_ensure_target_exists r t : apart (ensure_target_exists W r t).
Proof. unfold ensure_target_exists. go'. Qed.
Lemma apart_ensure_selectors r cs rs t : apart (ensure_selectors_are_ancestors W r cs rs t).
Proof. unfold ensure_selectors_are_ancestors, check_commit, check_range. go'. Qed.
Lemma apart_resolve_effective_baseline r b t m :
  apart (resolve_effective_baseline W r b t m).
Proof. unfold resolve_effective_baseline. go'. Qed.
Lemma apart_collect_diff r b t ps : apart (collect_paths_from_diff W r b t ps).
Proof. unfold collect_paths_from_diff. go'. Qed.
Lemma apart_collect_commits r cs ps : apart (collect_paths_from_commits W r cs ps).
Proof. unfold collect_paths_from_commits. go'. Qed.
Lemma apart_collect_ranges r rs ps : apart (collect_paths_from_ranges W r rs ps).
Proof. unfold collect_paths_from_ranges. go'. Qed.
Lemma apart_normalize_explicit ps r pre :
  apart (normalize_and_apply_explicit_paths W ps r pre).
Proof.
  unfold normalize_and_apply_explicit_paths, apply_explicit_path,
    normalize_explicit_path. go'.
Qed.
Lemma apart_materialize r rp es : apart (materialize_and_classify order W r rp es).
Proof. unfold materialize_and_classify, classify_one. go'. Qed.
Lemma apart_resolve_all s : apart (resolve_all order W s).
Proof. unfold resolve_all. go'. Qed.
Lemma apart_resolve_include_specs r l : apart (resolve_include_specs W r l).
Proof. unfold resolve_include_specs. go'. Qed.
Lemma apart_choose_out_path r o : apart (choose_out_path W r o).
Proof. unfold choose_out_path. go'. Qed.
Lemma apart_write_atomic_lines p l : apart (write_atomic_lines W p l).
Proof. unfold write_atomic_lines. go'. Qed.

End Worktree.

(** X25: when the configuration sets [include_uncommitted] to false, the run
    does not ask git about the working tree: none of its commands is the
    listing of the staged changes, of the changes that are not staged, or
    of the untracked files. *)
Theorem committed_only order W args cfg_path cfg :
  outcome (resolve W (of_string (arg_config args))) = Ret cfg_path →
  toml W (as_posix cfg_path) = Some cfg →
  opt_include_uncommitted cfg = Some false →
  ∀ cmd, Git cmd ∈ trace (main order W args) → ¬ worktree_query cmd.
Proof.
  intros H1 Htoml Hopt cmd Hin. unfold main in Hin.
  apply elem_trace_bind in Hin as [Hin|(cfg_path' & H1' & Hin)];
    [by apply no_git_elem in Hin; [|apply no_git_resolve]|].
  rewrite H1 in H1'. injection H1' as <-.
  apply elem_trace_bind in Hin as [Hin|([] & _ & Hin)].
  { apply no_git_elem in Hin; [done|]. emits_solve ltac:(done). }
  apply elem_trace_bind in Hin as [Hin|(cfg' & H3 & Hin)];
    [by apply no_git_elem in Hin; [|apply no_git_load_config]|].
  apply load_config_yields in H3. rewrite Htoml in H3. injection H3 as <-.
  apply elem_trace_bind in Hin as [Hin|(repo_dir & _ & Hin)];
    [by apply no_git_elem in Hin; [|apply no_git_resolve_repo_dir]|].
  cbv zeta in Hin. rewrite Hopt in Hin. simpl default in Hin.
  match type of Hin with
  | _ ∈ trace ?m => assert (emits no_worktree_query m) as Hall
  end.
  { repeat first
      [ apply emits_bind;
        [ first
            [ by eauto using apart_maybe_fetch, apart_ensure_target_exists,
                apart_ensure_selectors, apart_resolve_effective_baseline,
                apart_collect_diff, apart_collect_commits, apart_collect_ranges,
                apart_normalize_explicit, apart_materialize, apart_resolve_all,
                apart_resolve_include_specs, apart_choose_out_path,
                apart_write_atomic_lines
            | by emits_solve ltac:(exact I) ]
        | intros ]
      | lazymatch goal with
        | |- emits _ (let '(_, _) := ?x in _) => destruct x
        end
      | progress cbv zeta
      | by emits_solve ltac:(exact I) ]. }
  unfold emits in Hall. rewrite Forall_forall in Hall. exact (Hall _ Hin).
Qed.

Lemma committed_only_witness :
  filter (λ e, is_git e = true) (trace (main id world_committed_only example_args))
  = [ Git ["git"; "-C"; "/r"; "rev-parse"; "--verify"; "HEAD"];
      Git (diff_cmd (of_string "/r") "origin/main" "HEAD") ]
  ∧ ∀ cmd, Git cmd ∈ trace (main id world_committed_only example_args) →
           ¬ worktree_query cmd.
Proof.
  split; [by vm_compute|].
  apply (committed_only id world_committed_only example_args (of_string "/r/overlay.toml")
           config_committed_only); reflexivity.
Defined.

(** * How a run ends *)

(** ** The status of a run *)



(** ** Runs that do not succeed *)

Lemma raises_after_bind {A B} P (Q1 : A → Prop) (R : list event → Prop)
    (m : M A) (f : A → M B) :
  emits P m → R [] → yields Q1 m → (∀ a, Q1 a → raises_after P R (f a)) →
  raises_after P R (m ≫= f).
Proof.
  intros HP HR Hm Hf e He. destruct (outcome m) as [a|c|e'] eqn:Hr.
  - destruct (bind_Ret m f a Hr) as [Ht Ho]. rewrite Ho in He.
    destruct (Hf a (Hm a Hr) e He) as (t & s & Hts & Ht' & Hs).
    exists (trace m ++ t), s. rewrite Ht, Hts. split; [by rewrite app_assoc|].
    split; [|done]. apply Forall_app. by split.
  - by rewrite (bind_Exit m f c Hr) in He.
  - rewrite (bind_Raise m f e' Hr). simpl.
    exists (trace m), []. by rewrite app_nil_r.
Qed.

Lemma choose_out_path_wf W repo_dir o : yields wf_path (choose_out_path W repo_dir o).
Proof.
  unfold choose_out_path. destruct (truthy o); [|apply resolve_wf].
  apply (yields_bind wf_path); [apply expanduser_wf, of_string_wf|].
  intros p Hp. destruct (is_absolute p); simpl; [by apply yields_ret|apply resolve_wf].
Qed.

(** a run that ends in an exception has written nothing, the temporary file
    of the writer apart *)
Lemma main_raises order W args :
  raises_after no_write (wrote_at_most_tmp W args) (main order W args).
Proof.
  assert (∀ s, no_write (Stdout s)) as Pout by done.
  assert (∀ s, no_write (Stderr s)) as Perr by done.
  assert (∀ cmd, no_write (Git cmd)) as Pgit by done.
  assert (wrote_at_most_tmp W args []) as Hnil by (by left).
  unfold main.
  eapply raises_after_bind;
    [by apply emits_resolve|done|apply yields_self|intros cfg_path H1].
  eapply raises_after_bind;
    [by emits_solve ltac:(done)|done|apply yields_check|intros _ H2%negb_false_iff].
  eapply raises_after_bind;
    [by apply emits_load_config|done|apply load_config_yields|intros cfg H3].
  eapply raises_after_bind;
    [by apply emits_resolve_repo_dir|done|apply yields_self|intros repo_dir H4].
  cbv zeta.
  eapply raises_after_bind;
    [by emits_solve ltac:(done)|done|apply yields_check|intros _ H5%negb_false_iff].
  eapply raises_after_bind; [by apply emits_maybe_fetch|done|apply yields_True|intros _ _].
  eapply raises_after_bind;
    [by apply emits_ensure_target_exists|done|apply yields_True|intros _ _].
  eapply raises_after_bind;
    [by apply emits_ensure_selectors|done|apply yields_True|intros _ _].
  eapply raises_after_bind;
    [by apply emits_resolve_effective_baseline|done|apply yields_True|intros ? _].
  eapply raises_after_bind; [by apply emits_collect_diff|done|apply yields_True|intros ? _].
  eapply raises_after_bind;
    [by apply emits_collect_commits|done|apply yields_True|intros ? _].
  eapply raises_after_bind;
    [by apply emits_collect_ranges|done|apply yields_True|intros ? _].
  eapply raises_after_bind; [|done|apply yields_True|intros ? _].
  { destruct (default true _); [by apply emits_collect_uncommitted|apply emits_ret]. }
  eapply raises_after_bind;
    [by apply emits_normalize_explicit|done|apply yields_True|intros [explicit_set rel] _].
  eapply raises_after_bind; [by apply emits_materialize|done|apply yields_True|intros cl _].
  eapply raises_after_bind; [by apply emits_resolve_all|done|apply yields_True|intros ? _].
  eapply raises_after_bind; [by apply emits_resolve_all|done|apply yields_True|intros ? _].
  eapply raises_after_bind; [by emits_solve ltac:(done)|done|apply yields_True|intros _ _].
  eapply raises_after_bind; [by emits_solve ltac:(done)|done|apply yields_True|intros _ _].
  eapply raises_after_bind;
    [by apply emits_resolve_include_specs|done|apply yields_True|intros ? _].
  rewrite choose_first_given.
  eapply raises_after_bind;
    [by apply emits_choose_out_path|done|apply yields_self|intros out_path H7].
  eapply raises_after_bind; [by emits_solve ltac:(done)|done|apply yields_True|intros lines _].
  intros e He.
  unfold write_atomic_lines in *. fold (tmp_path_of out_path) in *.
  destruct (fs_can_write W _); [|by exists [], []].
  destruct (fs_can_replace W _ _); [done|].
  eexists [], _. split; [reflexivity|]. split; [constructor|].
  right. exists cfg_path, cfg, repo_dir, out_path. eexists.
  split; [done|]. split; [done|]. reflexivity.
Qed.

Lemma no_write_no_replace e : no_write e → no_replace e.
Proof. by destruct e. Qed.

Lemma fs_after_app fs t s : fs_after fs (t ++ s) = fs_after (fs_after fs t) s.
Proof. apply fold_left_app. Qed.




(** when the move over the output file fails, the run ends in the exception
    of the writer: the temporary file is written, and that is the only
    write *)
Example failed_replace_scenario :
  outcome (main id world_no_replace example_args) = Raise "OSError"
  ∧ filter (λ e, is_write e = true) (trace (main id world_no_replace example_args))
    = [ WriteFile "/r/..magma_overlay.spec.tmp"
          (file_content [ "{"; "package/"; "{"; "  a/"; "  {"; "    x.m"; "    +y.spec";
                          "  }"; "  b/"; "  {"; "    z.m"; "  }"; "}"; "}" ]) ].
Proof. split; by vm_compute. Qed.
